(** * A shallow embedding of legal2akn's structural parsers

    This development models [src/legal2akn/parser.py] ([DocumentParser]) and
    [src/legal2akn/pdf_parser.py] ([PDFParser.extract_constitution_structure]
    and its two repair passes) and proves what their spec says about them.

    Text is a list of Unicode code points ([N]).  The [re] module is modelled
    by a backtracking matcher that returns every way a pattern can match, in
    the priority order of Python's engine; the first of them is the match
    Python reports. *)

From Stdlib Require Import Ascii String Bool Arith Lia NArith ZArith List.
From Stdlib Require Import Permutation Sorted.
Import ListNotations.

(** ** Characters and Python string helpers *)

Definition char := N.
Definition str := list char.

(** ASCII source text written as a Rocq string literal. *)
Definition of_string (s : string) : str := map N_of_ascii (list_ascii_of_string s).

Definition nl : char := 10%N.

(** Several ASCII lines joined by newlines, [chr(10).join(ls)]. *)
Fixpoint lines (ls : list string) : str :=
  match ls with
  | [] => []
  | [l] => of_string l
  | l :: ls' => of_string l ++ nl :: lines ls'
  end.

(** [str.isspace] (and the [\s] class of a [str] pattern). *)
Definition is_space (c : char) : bool :=
  ((9 <=? c) && (c <=? 13))%N || ((28 <=? c) && (c <=? 32))%N
  || (c =? 133)%N || (c =? 160)%N || (c =? 5760)%N
  || ((8192 <=? c) && (c <=? 8202))%N
  || (c =? 8232)%N || (c =? 8233)%N || (c =? 8239)%N || (c =? 8287)%N
  || (c =? 12288)%N.

(** First code points of the runs of ten Unicode decimal digits ([\d]). *)
Definition digit_blocks : list N :=
  [48; 1632; 1776; 1984; 2406; 2534; 2662; 2790; 2918; 3046; 3174; 3302;
   3430; 3558; 3664; 3792; 3872; 4160; 4240; 6112; 6160; 6470; 6608; 6784;
   6800; 6992; 7088; 7232; 7248; 42528; 43216; 43264; 43472; 43504; 43600;
   44016; 65296; 66720; 68912; 69734; 69872; 69942; 70096; 70384; 70736;
   70864; 71248; 71360; 71472; 71904; 72016; 72784; 73040; 73120; 92768;
   92864; 93008; 123200; 123632; 125264; 130032]%N.

Definition is_digit (c : char) : bool :=
  existsb (fun b => ((b <=? c) && (c <? b + 10))%N) digit_blocks
  || ((120782 <=? c) && (c <=? 120831))%N.

Definition is_ascii_alpha (c : char) : bool :=
  ((65 <=? c) && (c <=? 90))%N || ((97 <=? c) && (c <=? 122))%N.

(** [\w] as used by [\b]: letters, digits and underscore.  Non-ASCII letters
    are not in the model's word class. *)
Definition is_word (c : char) : bool := is_ascii_alpha c || is_digit c || (c =? 95)%N.

Definition ascii_lower (c : char) : char :=
  if ((65 <=? c) && (c <=? 90))%N then (c + 32)%N else c.

(** Case-insensitive comparison of a text character [x] with an ASCII pattern
    character [l] under [re.IGNORECASE]: simple lower-casing, plus the code
    points Python folds onto ASCII letters (dotted and dotless i, long s,
    Kelvin sign). *)
Definition ci_eq (x l : char) : bool :=
  (ascii_lower x =? ascii_lower l)%N
  || ((ascii_lower l =? 105)%N && ((x =? 304)%N || (x =? 305)%N))
  || ((ascii_lower l =? 107)%N && (x =? 8490)%N)
  || ((ascii_lower l =? 115)%N && (x =? 383)%N).

(** [str.upper] on the characters a Roman-numeral class can capture. *)
Definition py_upper_char (c : char) : char :=
  if ((97 <=? c) && (c <=? 122))%N then (c - 32)%N
  else if (c =? 305)%N then 73%N
  else if (c =? 383)%N then 83%N
  else c.

Definition py_upper (s : str) : str := map py_upper_char s.

(** [s[i:j]] for non-negative bounds. *)
Definition slice (s : str) (i j : nat) : str := firstn (j - i) (skipn i s).

Fixpoint drop_while (p : char -> bool) (s : str) : str :=
  match s with
  | c :: t => if p c then drop_while p t else s
  | [] => []
  end.

(** [s.strip(chars)]; [s.strip()] is [strip_by is_space]. *)
Definition strip_by (p : char -> bool) (s : str) : str :=
  rev (drop_while p (rev (drop_while p s))).

Definition strip (s : str) : str := strip_by is_space s.

Definition strip_chars (cs : str) (s : str) : str :=
  strip_by (fun c => existsb (N.eqb c) cs) s.

(** [s.replace(a, b)] for single characters. *)
Definition replace_char (a b : char) (s : str) : str :=
  map (fun c => if (c =? a)%N then b else c) s.

(** [s.split('\n')]. *)
Fixpoint split_lines (s : str) : list str :=
  match s with
  | [] => [[]]
  | c :: t =>
      if (c =? nl)%N then [] :: split_lines t
      else match split_lines t with
           | l :: ls => (c :: l) :: ls
           | [] => [[c]]
           end
  end.

(** [s.find('\n', start)] as an integer. *)
Fixpoint find_nl_from (s : str) (i : nat) : Z :=
  match s with
  | [] => (-1)%Z
  | c :: t => if (c =? nl)%N then Z.of_nat i else find_nl_from t (S i)
  end.

Definition str_find_nl (s : str) (start : nat) : Z := find_nl_from (skipn start s) start.

Definition str_eqb (a b : str) : bool := if list_eq_dec N.eq_dec a b then true else false.

(** ** The [re] module

    [run r st] lists the states in which [r] can finish when started in
    [st], most preferred first.  A state records the previous character
    (for [^], [$] and [\b]), the number of characters consumed, the unread
    input and the captured groups. *)

Inductive re : Type :=
| RClass (f : char -> bool)          (* one character of a class *)
| RSeq (r1 r2 : re)
| RAlt (r1 r2 : re)                  (* r1|r2, r1 preferred *)
| RStar (greedy : bool) (r : re)     (* r* or r*? *)
| ROpt (greedy : bool) (r : re)      (* r? or r?? *)
| RGroup (n : nat) (r : re)          (* capturing group n *)
| RBol (multiline : bool)            (* ^ *)
| REol (multiline : bool)            (* $ *)
| RWordB                             (* \b *)
| REps.

Record mstate := MState { prev : option char; pos : nat; rest : str; caps : list (nat * str) }.

Definition prev_word (p : option char) : bool :=
  match p with Some c => is_word c | None => false end.

(** Iterations of a star whose body is [step], greedy or lazy; it iterates
    only while the body consumes input (the bodies of the patterns below
    never match the empty string).  [fuel] bounds the number of iterations
    and is never the limit, as [run] passes one more than the input left. *)
Fixpoint star_iter (step : mstate -> list mstate) (g : bool) (fuel : nat) (s : mstate)
  : list mstate :=
  match fuel with
  | 0 => [s]
  | S f =>
      let more := flat_map (fun s' => if pos s <? pos s' then star_iter step g f s' else [])
                           (step s) in
      if g then more ++ [s] else s :: more
  end.

Fixpoint run (r : re) (s : mstate) : list mstate :=
  match r with
  | RClass f =>
      match rest s with
      | c :: t => if f c then [MState (Some c) (S (pos s)) t (caps s)] else []
      | [] => []
      end
  | RSeq r1 r2 => flat_map (run r2) (run r1 s)
  | RAlt r1 r2 => run r1 s ++ run r2 s
  | RStar g r1 => star_iter (run r1) g (S (length (rest s))) s
  | ROpt g r1 => if g then run r1 s ++ [s] else s :: run r1 s
  | RGroup n r1 =>
      map (fun s' => MState (prev s') (pos s') (rest s')
                       ((n, firstn (pos s' - pos s) (rest s)) :: caps s'))
          (run r1 s)
  | RBol ml =>
      match prev s with
      | None => [s]
      | Some c => if ml && (c =? nl)%N then [s] else []
      end
  | REol ml =>
      match rest s with
      | [] => [s]
      | c :: t =>
          if (c =? nl)%N && (ml || match t with [] => true | _ => false end)
          then [s] else []
      end
  | RWordB =>
      let b := match rest s with c :: _ => is_word c | [] => false end in
      if xorb (prev_word (prev s)) b then [s] else []
  | REps => [s]
  end.

Record mobj := MObj { mstart : nat; mend : nat; mgroups : list (nat * str) }.

(** [m.group(n)] ([None] when the group did not participate). *)
Definition group (m : mobj) (n : nat) : option str :=
  option_map snd (find (fun p => Nat.eqb (fst p) n) (mgroups m)).

(** [m.group(n)] of a group every match of the pattern sets. *)
Definition grp (m : mobj) (n : nat) : str :=
  match group m n with Some s => s | None => [] end.

(** The match Python's engine reports at one position: length and groups. *)
Definition match_here (r : re) (p : option char) (rs : str) : option (nat * list (nat * str)) :=
  match run r (MState p 0 rs []) with
  | s' :: _ => Some (pos s', caps s')
  | [] => None
  end.

(** [finditer]: try every position left to right; after a match of length
    [k] the scan resumes at its end ([skip] counts the characters still to
    pass over). *)
Fixpoint scan (r : re) (p : option char) (rs : str) (off skip : nat) : list mobj :=
  match rs with
  | [] =>
      match skip with
      | 0 => match match_here r p [] with
             | Some (k, g) => [MObj off (off + k) g]
             | None => []
             end
      | S _ => []
      end
  | c :: t =>
      match skip with
      | S sk => scan r (Some c) t (S off) sk
      | 0 =>
          match match_here r p rs with
          | Some (k, g) => MObj off (off + k) g :: scan r (Some c) t (S off) (k - 1)
          | None => scan r (Some c) t (S off) 0
          end
      end
  end.

Definition finditer (r : re) (s : str) : list mobj := scan r None s 0 0.

(** [pattern.search(s)]: the first match of [finditer]. *)
Definition search (r : re) (s : str) : option mobj := hd_error (finditer r s).

(** [pattern.match(s)]: a match at position 0. *)
Definition pmatch (r : re) (s : str) : option mobj :=
  option_map (fun '(k, g) => MObj 0 k g) (match_here r None s).

(** [m.group(0)]. *)
Definition group0 (s : str) (m : mobj) : str := slice s (mstart m) (mend m).

(** [re.sub(pattern, repl, s)] with a literal [repl]: the text between
    consecutive matches, joined by [repl]. *)
Fixpoint gaps (repl : str) (s : str) (pos : nat) (ms : list mobj) : str :=
  match ms with
  | [] => skipn pos s
  | m :: ms' => slice s pos (mstart m) ++ repl ++ gaps repl s (mend m) ms'
  end.

Definition re_sub (r : re) (repl : str) (s : str) : str := gaps repl s 0 (finditer r s).

Definition re_sub_empty (r : re) (s : str) : str := re_sub r [] s.

(** [re.sub(pattern, tmpl, s)] with a computed replacement [tmpl m] for
    each match [m]. *)
Fixpoint gaps_by (tmpl : mobj -> str) (s : str) (pos : nat) (ms : list mobj) : str :=
  match ms with
  | [] => skipn pos s
  | m :: ms' => slice s pos (mstart m) ++ tmpl m ++ gaps_by tmpl s (mend m) ms'
  end.

(** [re.sub(pattern, r'\1', s)] *)
Definition re_sub_group1 (r : re) (s : str) : str := gaps_by (fun m => grp m 1) s 0 (finditer r s).

(** Pattern syntax. *)
Definition seqs (rs : list re) : re := fold_right RSeq REps rs.
Definition lit (ic : bool) (c : char) : re :=
  RClass (fun x => if ic then ci_eq x c else (x =? c)%N).
Definition word (ic : bool) (s : string) : re := seqs (map (lit ic) (of_string s)).
Definition oneof (ic : bool) (s : string) : re :=
  RClass (fun x => existsb (fun c => if ic then ci_eq x c else (x =? c)%N) (of_string s)).
Definition star (r : re) : re := RStar true r.
Definition plus (r : re) : re := RSeq r (RStar true r).
Definition opt (r : re) : re := ROpt true r.
Definition sp : re := RClass is_space.
Definition dig : re := RClass is_digit.
Definition dot : re := RClass (fun c => negb (c =? nl)%N).
Definition lower_az : re := RClass (fun c => ((97 <=? c) && (c <=? 122))%N).
Definition anyc : re := RClass (fun _ => true).
Definition lazy_star (r : re) : re := RStar false r.
(** [r{0,n}] (greedy) or [r{0,n}?] (lazy). *)
Fixpoint upto (greedy : bool) (n : nat) (r : re) : re :=
  match n with
  | 0 => REps
  | S n' => ROpt greedy (RSeq r (upto greedy n' r))
  end.
(** [[A-Z]], case-insensitive or not. *)
Definition upper_az (ic : bool) : re :=
  RClass (fun x => if ic then existsb (ci_eq x) (map N.of_nat (seq 65 26))
                   else ((65 <=? x) && (x <=? 90))%N).

(** ** models.py *)

Record DocumentMetadata := {
  title : str;
  document_type : str;
  country : str;
  language : str;
  date_enacted : option (Z * Z * Z);
  date_effective : option (Z * Z * Z);
  publisher : option str;
  uri : option str }.

(** [DocumentMetadata(title=title)] with the field defaults. *)
Definition default_metadata (t : str) : DocumentMetadata :=
  {| title := t; document_type := of_string "act"; country := of_string "US";
     language := of_string "eng"; date_enacted := None; date_effective := None;
     publisher := None; uri := None |}.

#[warnings="-register-all"]
Inductive Section : Type :=
  mkSection (sec_id : str) (sec_number : str) (sec_heading : option str)
            (sec_content : str) (sec_subsections : list Section).

Definition sec_id (s : Section) := let 'mkSection x _ _ _ _ := s in x.
Definition sec_number (s : Section) := let 'mkSection _ x _ _ _ := s in x.
Definition sec_heading (s : Section) := let 'mkSection _ _ x _ _ := s in x.
Definition sec_content (s : Section) := let 'mkSection _ _ _ x _ := s in x.
Definition sec_subsections (s : Section) := let 'mkSection _ _ _ _ x := s in x.

Record Article := mkArticle {
  art_id : str; art_number : str; art_heading : option str; art_sections : list Section }.

Record Chapter := mkChapter {
  chp_id : str; chp_number : str; chp_heading : option str; chp_articles : list Article }.

Record Part := mkPart {
  part_id : str; part_number : str; part_heading : option str;
  part_articles : list Article; part_chapters : list Chapter }.

Record LegalDocument := mkLegalDocument {
  metadata : DocumentMetadata;
  preamble : option str;
  parts : list Part;
  chapters : list Chapter;
  articles : list Article;
  sections : list Section;
  conclusions : option str }.

Definition new_document (md : DocumentMetadata) : LegalDocument :=
  mkLegalDocument md None [] [] [] [] None.

(** ** parser.py: [DocumentParser] *)

Module DocumentParser.

(** ["^CHAPTER\s+(\d+|[IVXLCDM]+)\.?\s*[-:]?\s*(.*)$"], IGNORECASE | MULTILINE *)
Definition chapter_pattern : re :=
  seqs [RBol true; word true "CHAPTER"; plus sp;
        RGroup 1 (RAlt (plus dig) (plus (oneof true "IVXLCDM")));
        opt (lit true 46%N); star sp; opt (oneof true "-:"); star sp;
        RGroup 2 (star dot); REol true].

(** ["^(?:Article|Art\.?)\s+(\d+|[IVXLCDM]+)\.?\s*[-:]?\s*(.*)$"], IGNORECASE | MULTILINE *)
Definition article_pattern : re :=
  seqs [RBol true; RAlt (word true "Article") (RSeq (word true "Art") (opt (lit true 46%N)));
        plus sp;
        RGroup 1 (RAlt (plus dig) (plus (oneof true "IVXLCDM")));
        opt (lit true 46%N); star sp; opt (oneof true "-:"); star sp;
        RGroup 2 (star dot); REol true].

(** ["^(?:Section|Sec\.?|\xa7)\s+(\d+(?:\.\d+)*)\s*[-:]?\s*(.*)$"], IGNORECASE | MULTILINE
    (the section sign is code point 167) *)
Definition section_pattern : re :=
  seqs [RBol true;
        RAlt (word true "Section")
             (RAlt (RSeq (word true "Sec") (opt (lit true 46%N))) (lit true 167%N));
        plus sp;
        RGroup 1 (RSeq (plus dig) (star (RSeq (lit true 46%N) (plus dig))));
        star sp; opt (oneof true "-:"); star sp;
        RGroup 2 (star dot); REol true].

(** ["^\s*\(([a-z]|\d+)\)\s+(.*)$"], MULTILINE *)
Definition subsection_pattern : re :=
  seqs [RBol true; star sp; lit false 40%N;
        RGroup 1 (RAlt lower_az (plus dig));
        lit false 41%N; plus sp; RGroup 2 (star dot); REol true].

(** ["^\s*\([a-z]|\d+\)\s*"], no flags (the clean-up in [_extract_subsections]) *)
Definition subsection_cleanup : re :=
  RAlt (seqs [RBol false; star sp; lit false 40%N; lower_az])
       (seqs [plus dig; lit false 41%N; star sp]).

(** The loop header shared by the four [_extract_*] methods:
    [for i, match in enumerate(matches)], with
    [start = anchor(match)], [end = matches[i+1].start()] or [len(text)],
    and [text[start:end]]. *)
Fixpoint units (anchor : mobj -> nat) (text : str) (ms : list mobj) : list (mobj * str) :=
  match ms with
  | [] => []
  | m :: ms' =>
      let e := match ms' with m' :: _ => mstart m' | [] => length text end in
      (m, slice text (anchor m) e) :: units anchor text ms'
  end.

Definition heading_of (h : str) : option str :=
  match h with [] => None | _ => Some h end.

(** [_extract_subsections] *)
Definition build_subsection (m : mobj) (span : str) : Section :=
  let subsection_num := grp m 1 in
  let content := strip (re_sub_empty subsection_cleanup span) in
  mkSection (of_string "subsec_" ++ subsection_num) subsection_num None content [].

Definition extract_subsections (text : str) : list Section :=
  map (fun '(m, span) => build_subsection m span)
      (units mstart text (finditer subsection_pattern text)).

(** [_extract_sections] *)
Definition build_section (m : mobj) (span : str) : Section :=
  let section_num := grp m 1 in
  let section_heading := strip (grp m 2) in
  let content := strip span in
  let subsections := extract_subsections content in
  let content :=
    match subsections with
    | [] => content
    | _ => match search subsection_pattern content with
           | Some first_subsection => strip (firstn (mstart first_subsection) content)
           | None => content
           end
    end in
  mkSection (of_string "sec_" ++ replace_char 46%N 95%N section_num) section_num
            (heading_of section_heading) content subsections.

Definition extract_sections (text : str) : list Section :=
  map (fun '(m, span) => build_section m span)
      (units mend text (finditer section_pattern text)).

(** [_extract_articles] *)
Definition build_article (m : mobj) (span : str) : Article :=
  let article_num := grp m 1 in
  mkArticle (of_string "art_" ++ article_num) article_num
            (heading_of (strip (grp m 2))) (extract_sections span).

Definition extract_articles (text : str) : list Article :=
  map (fun '(m, span) => build_article m span)
      (units mend text (finditer article_pattern text)).

(** [_extract_chapters] *)
Definition build_chapter (m : mobj) (span : str) : Chapter :=
  let chapter_num := grp m 1 in
  mkChapter (of_string "chp_" ++ chapter_num) chapter_num
            (heading_of (strip (grp m 2))) (extract_articles span).

Definition extract_chapters (text : str) : list Chapter :=
  map (fun '(m, span) => build_chapter m span)
      (units mend text (finditer chapter_pattern text)).

(** [_find_first_structure] *)
Definition find_first_structure (text : str) : Z :=
  let positions :=
    flat_map (fun p => match search p text with
                       | Some m => [Z.of_nat (mstart m)]
                       | None => []
                       end)
             [chapter_pattern; article_pattern; section_pattern] in
  match positions with
  | [] => (-1)%Z
  | p :: ps => fold_left Z.min ps p
  end.

(** Lines 35-39 of [parse]: the preamble and the text handed on. *)
Definition split_preamble (text : str) : option str * str :=
  let preamble_end := find_first_structure text in
  if (0 <? preamble_end)%Z
  then (Some (strip (firstn (Z.to_nat preamble_end) text)), skipn (Z.to_nat preamble_end) text)
  else (None, text).

(** [parse] *)
Definition parse (text : str) (md : option DocumentMetadata) : LegalDocument :=
  let metadata := match md with
                  | Some m => m
                  | None => default_metadata (of_string "Untitled Document")
                  end in
  let document := new_document metadata in
  let '(pre, text) := split_preamble text in
  let document := {| metadata := metadata; preamble := pre; parts := [];
                     chapters := []; articles := []; sections := [];
                     conclusions := None |} in
  let chs := extract_chapters text in
  match chs with
  | _ :: _ => {| metadata := metadata; preamble := pre; parts := []; chapters := chs;
                 articles := []; sections := []; conclusions := None |}
  | [] =>
      let arts := extract_articles text in
      match arts with
      | _ :: _ => {| metadata := metadata; preamble := pre; parts := []; chapters := [];
                     articles := arts; sections := []; conclusions := None |}
      | [] => {| metadata := metadata; preamble := pre; parts := []; chapters := [];
                 articles := []; sections := extract_sections text; conclusions := None |}
      end
  end.

End DocumentParser.

(** ** pdf_parser.py: [PDFParser.extract_constitution_structure]

    The dictionaries the method builds become records.  The [print] calls
    of [_find_part_vii_specifically] only write to the console and are left
    out. *)

Module PDFParser.

Record PartEntry := mkPartEntry {
  p_number : str; p_title : str; p_position : Z; p_line : str }.

Record ArticleEntry := mkArticleEntry {
  a_number : str; a_title : str; a_position : Z; a_line : str }.

Record ScheduleEntry := mkScheduleEntry { s_name : str; s_position : Z }.

Record Structure := mkStructure {
  st_parts : list PartEntry; st_articles : list ArticleEntry;
  st_schedules : list ScheduleEntry }.

(** [[–—\-\.]] (en dash, em dash, hyphen, full stop) *)
Definition dash_class : re :=
  RClass (fun x => (x =? 8211)%N || (x =? 8212)%N || (x =? 45)%N || (x =? 46)%N).

(** ["^#{1,2}\s*PART\s+([IVXLCDM]+)\s*[–—\-\.]?\s*(.*)$"], IGNORECASE *)
Definition part_pattern : re :=
  seqs [RBol false; lit true 35%N; upto true 1 (lit true 35%N); star sp; word true "PART";
        plus sp; RGroup 1 (plus (oneof true "IVXLCDM")); star sp; opt dash_class;
        star sp; RGroup 2 (star dot); REol false].

(** ["^#{2,4}\s*Article\s+(\d+[A-Z]?)\s*[.–—\-]?\s*(.*)$"], IGNORECASE *)
Definition article_pattern : re :=
  seqs [RBol false; lit true 35%N; lit true 35%N; upto true 2 (lit true 35%N); star sp;
        word true "Article"; plus sp; RGroup 1 (RSeq (plus dig) (opt (upper_az true)));
        star sp; opt dash_class; star sp; RGroup 2 (star dot); REol false].

(** ["^\s*PART\s+([IVXLCDM]+)\s*[–—\-\.]?\s*(.*)$"], no flags *)
Definition part_text_pattern : re :=
  seqs [RBol false; star sp; word false "PART"; plus sp;
        RGroup 1 (plus (oneof false "IVXLCDM")); star sp; opt dash_class; star sp;
        RGroup 2 (star dot); REol false].

(** ["^\s*Article\s+(\d+[A-Z]?)\s*[.–—\-]?\s*(.*)$"], no flags *)
Definition article_text_pattern : re :=
  seqs [RBol false; star sp; word false "Article"; plus sp;
        RGroup 1 (RSeq (plus dig) (opt (upper_az false)));
        star sp; opt dash_class; star sp; RGroup 2 (star dot); REol false].

Fixpoint alts (rs : list re) : re :=
  match rs with
  | [] => RClass (fun _ => false)
  | [r] => r
  | r :: rs' => RAlt r (alts rs')
  end.

(** ["(FIRST|SECOND|...|TWELFTH)\s+SCHEDULE"], IGNORECASE *)
Definition schedule_pattern : re :=
  seqs [RGroup 1 (alts (map (word true)
          ["FIRST"; "SECOND"; "THIRD"; "FOURTH"; "FIFTH"; "SIXTH"; "SEVENTH";
           "EIGHTH"; "NINTH"; "TENTH"; "ELEVENTH"; "TWELFTH"]%string));
        plus sp; word true "SCHEDULE"].

(** [re.sub(r'[#*_]', '', s)] *)
Definition clean_markdown (s : str) : str := re_sub_empty (oneof false "#*_") s.

Definition mem_str (x : str) (l : list str) : bool := existsb (str_eqb x) l.

Fixpoint index_of (x : str) (l : list str) : option nat :=
  match l with
  | [] => None
  | y :: l' => if str_eqb x y then Some 0 else option_map S (index_of x l')
  end.

(** [list.insert(i, x)] for [0 <= i]. *)
Definition list_insert {A} (i : nat) (x : A) (l : list A) : list A :=
  firstn i l ++ x :: skipn i l.

(** [sorted(l, key=k)]: a stable sort. *)
Fixpoint insert_by {A} (k : A -> nat) (x : A) (l : list A) : list A :=
  match l with
  | [] => [x]
  | y :: l' => if k x <=? k y then x :: y :: l' else y :: insert_by k x l'
  end.

Fixpoint sort_by {A} (k : A -> nat) (l : list A) : list A :=
  match l with
  | [] => []
  | x :: l' => insert_by k x (sort_by k l')
  end.

Definition expected_parts : list str :=
  map of_string ["I"; "II"; "III"; "IV"; "V"; "VI"; "VII"; "VIII"; "IX"; "X";
                 "XI"; "XII"; "XIII"; "XIV"; "XV"; "XVI"; "XVII"; "XVIII";
                 "XIX"; "XX"; "XXI"; "XXII"]%string.

(** [key=lambda x: expected_parts.index(x['number']) if x['number'] in expected_parts else 999] *)
Definition part_key (p : PartEntry) : nat :=
  match index_of (p_number p) expected_parts with Some i => i | None => 999 end.

Definition sort_parts (l : list PartEntry) : list PartEntry := sort_by part_key l.

(** The four patterns of [_fix_missing_parts] for part [e], in order,
    compiled with MULTILINE | IGNORECASE. *)
Definition fallback_patterns (e : str) : list re :=
  let num := seqs (map (lit true) e) in
  [ seqs [RWordB; word true "PART"; plus sp; num; RWordB];
    seqs [RBol true; star sp; word true "PART"; plus sp; num; sp];
    seqs [lit true 35%N; upto true 3 (lit true 35%N); star sp; word true "PART"; plus sp; num; RWordB];
    seqs [word true "**PART"; plus sp; num; word true "**"] ].

(** [for pattern_template in patterns: ... match = pattern.search(text); if match: ... break] *)
Fixpoint first_search (ps : list re) (text : str) : option mobj :=
  match ps with
  | [] => None
  | p :: ps' => match search p text with
                | Some m => Some m
                | None => first_search ps' text
                end
  end.

(** The [for ... else] loop that picks [insert_pos] in [_fix_missing_parts];
    a part whose number is not canonical raises [ValueError] and is skipped. *)
Fixpoint fix_insert_pos (ei : nat) (i : nat) (l : list PartEntry) : nat :=
  match l with
  | [] => i
  | p :: l' =>
      match index_of (p_number p) expected_parts with
      | Some j => if ei <? j then i else fix_insert_pos ei (S i) l'
      | None => fix_insert_pos ei (S i) l'
      end
  end.

Definition recovered_entry (text : str) (e : str) (m : mobj) : PartEntry :=
  let start := mend m in
  let end_ := str_find_nl text start in
  let end_ := if (end_ =? -1)%Z then start + 100 else Z.to_nat end_ in
  let title := strip_chars (of_string " -" ++ [8211; 8212]%N ++ of_string ".*#" ++ [nl])
                           (slice text start end_) in
  mkPartEntry e (match title with [] => of_string "Part " ++ e | _ => title end)
              (Z.of_nat (mstart m)) (group0 text m).

(** One iteration of [for expected in expected_parts]: state is
    [(found_parts, found_numbers)]. *)
Definition fix_step (text : str) (st : list PartEntry * list str) (e : str)
  : list PartEntry * list str :=
  let '(found, nums) := st in
  if mem_str e nums then st
  else match first_search (fallback_patterns e) text with
       | Some m =>
           let ei := match index_of e expected_parts with Some i => i | None => 0 end in
           (list_insert (fix_insert_pos ei 0 found) (recovered_entry text e m) found,
            nums ++ [e])
       | None => st
       end.

(** The list [_fix_missing_parts] holds before its final [sorted]. *)
Definition fix_missing_parts_unsorted (text : str) (found_parts : list PartEntry)
  : list PartEntry :=
  fst (fold_left (fix_step text) expected_parts (found_parts, map p_number found_parts)).

(** [_fix_missing_parts] *)
Definition fix_missing_parts (text : str) (found_parts : list PartEntry) : list PartEntry :=
  sort_parts (fix_missing_parts_unsorted text found_parts).

(** [(?:STATES|STATE)], IGNORECASE *)
Definition states_word : re := RAlt (word true "STATES") (word true "STATE").
(** [(?:PART\s+B|Part\s+B)], IGNORECASE *)
Definition part_b : re :=
  RAlt (seqs [word true "PART"; plus sp; lit true 66%N])
       (seqs [word true "Part"; plus sp; lit true 66%N]).

(** [part_vii_patterns], compiled with MULTILINE | IGNORECASE | DOTALL. *)
Definition part_vii_patterns : list re :=
  [ seqs [word true "PART"; plus sp; word true "VII"; RWordB; lazy_star anyc; states_word];
    seqs [word true "Part"; plus sp; word true "VII"; RWordB; lazy_star anyc; states_word];
    seqs [word true "PART"; star sp; star dash_class; star sp; word true "VII"; RWordB;
          lazy_star anyc; states_word];
    seqs [lit true 35%N; upto true 3 (lit true 35%N); star sp; word true "PART"; plus sp;
          word true "VII"; RWordB];
    seqs [word true "**PART"; plus sp; word true "VII**"];
    seqs [word true "VII"; RWordB; lazy_star anyc; word true "STATES"; lazy_star anyc;
          word true "PART"; plus sp; lit true 66%N];
    seqs [word true "Part"; plus sp; lit true 66%N; lazy_star anyc; word true "STATES";
          lazy_star anyc; word true "VII"];
    RAlt (seqs [part_b; lazy_star anyc; word true "VII"])
         (seqs [word true "VII"; lazy_star anyc; part_b]);
    seqs [RAlt (RBol true) (lit true nl); star sp; word true "VII";
          plus (RClass (fun x => (x =? 46)%N || is_space x || (x =? 45)%N
                              || (x =? 8211)%N || (x =? 8212)%N));
          lazy_star anyc;
          RAlt (word true "STATES") (seqs [word true "First"; plus sp; word true "Schedule"])] ].

(** ["PART\s+VII\s*[–—\-\.]*\s*(.{0,100}?)(?:\n|PART\s+VIII)"], IGNORECASE | DOTALL *)
Definition vii_context_pattern : re :=
  seqs [word true "PART"; plus sp; word true "VII"; star sp; star dash_class; star sp;
        RGroup 1 (upto false 100 anyc);
        RAlt (lit true nl) (seqs [word true "PART"; plus sp; word true "VIII"])].

Definition default_vii_title : str := of_string "THE STATES IN PART B OF THE FIRST SCHEDULE".

(** The title chosen when a Part VII pattern matched. *)
Definition vii_title (text : str) : str :=
  match search vii_context_pattern text with
  | Some cm =>
      let extracted := strip (grp cm 1) in
      let extracted := re_sub_empty (oneof false "#*_[](){}") extracted in
      let extracted := strip (re_sub (plus sp) (of_string " ") extracted) in
      if (5 <? length extracted) && (length extracted <? 100) then extracted
      else default_vii_title
  | None => default_vii_title
  end.

(** [insert_pos]: before the first part numbered VIII, IX or X, else at the end. *)
Fixpoint vii_insert_pos (i : nat) (l : list PartEntry) : nat :=
  match l with
  | [] => i
  | p :: l' =>
      if mem_str (p_number p) (map of_string ["VIII"; "IX"; "X"]%string) then i
      else vii_insert_pos (S i) l'
  end.

Definition vii_number : str := of_string "VII".

Definition vii_placeholder : PartEntry :=
  mkPartEntry vii_number default_vii_title (-1)%Z (of_string "PART VII (manually added)").

(** The list [_find_part_vii_specifically] holds before its final [sorted]. *)
Definition find_part_vii_unsorted (text : str) (found_parts : list PartEntry)
  : list PartEntry :=
  let entry :=
    match first_search part_vii_patterns text with
    | Some m => mkPartEntry vii_number (vii_title text) (Z.of_nat (mstart m))
                            (firstn 100 (group0 text m))
    | None => vii_placeholder
    end in
  list_insert (vii_insert_pos 0 found_parts) entry found_parts.

(** [_find_part_vii_specifically] *)
Definition find_part_vii_specifically (text : str) (found_parts : list PartEntry)
  : list PartEntry :=
  sort_parts (find_part_vii_unsorted text found_parts).

(** Lines 70-89 of [extract_constitution_structure] without the
    deduplication: the part entry a stripped, non-empty [line] (line [i])
    announces. *)
Definition line_part (i : nat) (line : str) : option PartEntry :=
  let pm := match pmatch part_pattern line with
            | Some m => Some m
            | None => pmatch part_text_pattern line
            end in
  match pm with
  | Some m =>
      let part_num := py_upper (grp m 1) in
      let part_title := strip (clean_markdown (strip (grp m 2))) in
      Some (mkPartEntry part_num part_title (Z.of_nat i) line)
  | None => None
  end.

(** Lines 92-108: the article entry of a stripped, non-empty line. *)
Definition line_article (i : nat) (line : str) : option ArticleEntry :=
  let am := match pmatch article_pattern line with
            | Some m => Some m
            | None => pmatch article_text_pattern line
            end in
  match am with
  | Some m =>
      Some (mkArticleEntry (grp m 1) (strip (clean_markdown (strip (grp m 2)))) (Z.of_nat i) line)
  | None => None
  end.

(** The body of the line loop: [(structure, seen_parts)] after line [i]. *)
Definition scan_line (st : Structure * list str) (il : nat * str) : Structure * list str :=
  let '(s, seen) := st in
  let '(i, raw) := il in
  let line := strip raw in
  match line with
  | [] => st
  | _ =>
      let '(parts_, seen) :=
        match line_part i line with
        | Some p =>
            if mem_str (p_number p) seen then (st_parts s, seen)
            else (st_parts s ++ [p], seen ++ [p_number p])
        | None => (st_parts s, seen)
        end in
      let arts :=
        match line_article i line with
        | Some a => st_articles s ++ [a]
        | None => st_articles s
        end in
      let scheds :=
        match search schedule_pattern line with
        | Some _ => st_schedules s ++ [mkScheduleEntry line (Z.of_nat i)]
        | None => st_schedules s
        end in
      (mkStructure parts_ arts scheds, seen)
  end.

Definition enumerate {A} (l : list A) : list (nat * A) := combine (seq 0 (length l)) l.

(** The structure after the line loop, before the repair passes. *)
Definition scan_lines (md_text : str) : Structure :=
  fst (fold_left scan_line (enumerate (split_lines md_text)) (mkStructure [] [] [], [])).

(** [extract_constitution_structure] *)
Definition extract_constitution_structure (md_text : str) : Structure :=
  let s := scan_lines md_text in
  let ps := st_parts s in
  let ps := if length ps <? 22 then fix_missing_parts md_text ps else ps in
  let ps := if mem_str vii_number (map p_number ps) then ps
            else find_part_vii_specifically md_text ps in
  mkStructure ps (st_articles s) (st_schedules s).

(** ** [PDFParser.clean_text] *)

(** [r'^#{1,6}\s*'], MULTILINE *)
Definition header_pattern : re :=
  seqs [RBol true; lit false 35%N; upto true 5 (lit false 35%N); star sp].

(** [r'[*_]{1,2}([^*_]+)[*_]{1,2}'] *)
Definition emphasis_pattern : re :=
  seqs [oneof false "*_"; upto true 1 (oneof false "*_");
        RGroup 1 (plus (RClass (fun x => negb (existsb (fun c => (x =? c)%N) (of_string "*_")))));
        oneof false "*_"; upto true 1 (oneof false "*_")].

(** [r'\[([^\]]+)\]\([^\)]+\)'] *)
Definition link_pattern : re :=
  seqs [lit false 91%N; RGroup 1 (plus (RClass (fun x => negb (x =? 93)%N))); lit false 93%N;
        lit false 40%N; plus (RClass (fun x => negb (x =? 41)%N)); lit false 41%N].

(** [r'\n{3,}'] *)
Definition blank_lines_pattern : re := seqs [lit false nl; lit false nl; plus (lit false nl)].

(** [r' +'] *)
Definition spaces_pattern : re := plus (lit false 32%N).

(** [clean_text] *)
Definition clean_text (text : str) : str :=
  let text := re_sub_empty header_pattern text in
  let text := re_sub_group1 emphasis_pattern text in
  let text := re_sub_group1 link_pattern text in
  let text := re_sub blank_lines_pattern [nl; nl] text in
  let text := re_sub spaces_pattern [32%N] text in
  strip text.

End PDFParser.

(** ** Vocabulary of the proofs *)

(** [s'] is [s] after reading [w]. *)
Definition advances (s s' : mstate) : Prop :=
  exists w, rest s = w ++ rest s' /\ pos s' = pos s + length w.

(** The fewest characters a match of [r] consumes. *)
Fixpoint minlen (r : re) : nat :=
  match r with
  | RClass _ => 1
  | RSeq a b => minlen a + minlen b
  | RAlt a b => Nat.min (minlen a) (minlen b)
  | RGroup _ a => minlen a
  | _ => 0
  end.

(** Matches in text order, none overlapping the next, all within [lo, hi]. *)
Fixpoint chain (lo : nat) (ms : list mobj) (hi : nat) : Prop :=
  match ms with
  | [] => lo <= hi
  | m :: ms' => lo <= mstart m /\ mstart m <= mend m /\ chain (mend m) ms' hi
  end.

Definition shift (d : nat) (m : mobj) : mobj := MObj (mstart m + d) (mend m + d) (mgroups m).

(** The previous character after reading [pre]. *)
Fixpoint after (p : option char) (pre : str) : option char :=
  match pre with [] => p | c :: t => after (Some c) t end.

(** No match of [r] starts inside [pre] (in the text [pre ++ post]). *)
Fixpoint no_match_in (r : re) (p : option char) (pre post : str) : Prop :=
  match pre with
  | [] => True
  | c :: t => match_here r p (c :: t ++ post) = None /\ no_match_in r (Some c) t post
  end.

(** [^] with MULTILINE holds after [p]. *)
Definition bol_prev (p : option char) : bool :=
  match p with None => true | Some c => (c =? nl)%N end.

(** The start of a string and the position after a newline look alike to a
    pattern whose anchors are all multi-line. *)
Definition prev_equiv (a b : option char) : Prop :=
  match a, b with
  | None, None => True
  | None, Some c | Some c, None => c = nl
  | Some x, Some y => x = y
  end.

Definition state_equiv (a b : mstate) : Prop :=
  prev_equiv (prev a) (prev b) /\ pos a = pos b /\ rest a = rest b /\ caps a = caps b.

Fixpoint multiline_only (r : re) : bool :=
  match r with
  | RBol ml => ml
  | RSeq a b | RAlt a b => multiline_only a && multiline_only b
  | RStar _ a | ROpt _ a | RGroup _ a => multiline_only a
  | _ => true
  end.

(** The character before position [j] of [rs], when [p] precedes [rs]. *)
Definition prev_at (p : option char) (rs : str) (j : nat) : option char :=
  match j with 0 => p | S j' => nth_error rs j' end.

(** The span a unit's content is cut from, as the code computes it. *)
Definition next_start (text : str) (ms : list mobj) (i : nat) : nat :=
  match nth_error ms (S i) with Some m' => mstart m' | None => length text end.

(** The patterns [_find_first_structure] searches for. *)
Definition top_patterns : list re :=
  [DocumentParser.chapter_pattern; DocumentParser.article_pattern;
   DocumentParser.section_pattern].

(** The text [parse] hands to the extractors once the preamble is cut off. *)
Definition structured_text (text : str) : str := snd (DocumentParser.split_preamble text).

(** The entries [f] reads off the non-blank lines of an enumerated text. *)
Definition entries {A} (f : nat -> str -> option A) (ils : list (nat * str)) : list A :=
  flat_map (fun '(i, raw) =>
              match strip raw with
              | [] => []
              | line => match f i line with Some x => [x] | None => [] end
              end) ils.

Definition line_entries {A} (f : nat -> str -> option A) (md_text : str) : list A :=
  entries f (PDFParser.enumerate (split_lines md_text)).

(** The entries of [l] whose number is neither in [seen] nor on an earlier
    entry of [l]. *)
Fixpoint first_by_number (seen : list str) (l : list PDFParser.PartEntry)
  : list PDFParser.PartEntry :=
  match l with
  | [] => []
  | p :: l' =>
      if PDFParser.mem_str (PDFParser.p_number p) seen then first_by_number seen l'
      else p :: first_by_number (seen ++ [PDFParser.p_number p]) l'
  end.

(** * The matcher *)

(** Shapes of patterns, matches and outputs. *)

(** [has_group n r1 r]: [r] contains the capturing group [n] with body [r1]. *)
Fixpoint has_group (n : nat) (r1 r : re) : Prop :=
  match r with
  | RGroup m a => (m = n /\ a = r1) \/ has_group n r1 a
  | RSeq a b | RAlt a b => has_group n r1 a \/ has_group n r1 b
  | RStar _ a | ROpt _ a => has_group n r1 a
  | _ => False
  end.

(** Every character class of [r] only admits characters satisfying [P]. *)
Fixpoint classes_ok (P : char -> Prop) (r : re) : Prop :=
  match r with
  | RClass f => forall c, f c = true -> P c
  | RSeq a b | RAlt a b => classes_ok P a /\ classes_ok P b
  | RStar _ a | ROpt _ a | RGroup _ a => classes_ok P a
  | _ => True
  end.

(** [w] is what group [n] of [r] captures in some run of [r] from [s]. *)
Definition captured_by (r : re) (s : mstate) (n : nat) (w : str) : Prop :=
  exists r1 s0 s1, has_group n r1 r /\ advances s s0 /\ In s1 (run r1 s0) /\
                   w = firstn (pos s1 - pos s0) (rest s0).

(** [s'] is [s] after reading characters that all satisfy [P]. *)
Definition advances_in (P : char -> Prop) (s s' : mstate) : Prop :=
  exists w, rest s = w ++ rest s' /\ pos s' = pos s + length w /\ Forall P w.

(** A character of the number group of the chapter and article patterns:
    a decimal digit or, case-insensitively, one of IVXLCDM. *)
Definition roman_or_digit (c : char) : Prop :=
  is_digit c = true \/ existsb (ci_eq c) (of_string "IVXLCDM") = true.

(** The characters the Part VII title clean-up removes. *)
Definition vii_markup : str := of_string "#*_[](){}".

(** [p] is an entry [_fix_missing_parts] recovers for one of the numbers
    [es] that is not among [nums]. *)
Definition recovered_for (text : str) (es nums : list str) (p : PDFParser.PartEntry) : Prop :=
  In (PDFParser.p_number p) es /\ ~ In (PDFParser.p_number p) nums /\
  exists m, PDFParser.first_search (PDFParser.fallback_patterns (PDFParser.p_number p)) text = Some m /\
            p = PDFParser.recovered_entry text (PDFParser.p_number p) m.

(** The schedule entry [extract_constitution_structure] records for a
    stripped, non-empty [line] (line [i]). *)
Definition line_schedule (i : nat) (line : str) : option PDFParser.ScheduleEntry :=
  match search PDFParser.schedule_pattern line with
  | Some _ => Some (PDFParser.mkScheduleEntry line (Z.of_nat i))
  | None => None
  end.

(** [line] is the stripped, non-empty line number [z] of [md]. *)
Definition line_at (md : str) (z : Z) (line : str) : Prop :=
  (0 <= z)%Z /\ line <> [] /\
  exists raw, nth_error (split_lines md) (Z.to_nat z) = Some raw /\ strip raw = line.

(** [s] with every maximal run of characters satisfying [f] replaced by [d]
    ([inrun]: the previous character was in such a run). *)
Fixpoint squeeze (f : char -> bool) (d : str) (inrun : bool) (s : str) : str :=
  match s with
  | [] => []
  | c :: t => if f c then (if inrun then squeeze f d true t else d ++ squeeze f d true t)
              else c :: squeeze f d false t
  end.

(** No two adjacent characters of [l] satisfy [f]. *)
Fixpoint no_adj (f : char -> bool) (l : str) : bool :=
  match l with
  | a :: ((b :: _) as t) => negb (f a && f b) && no_adj f t
  | _ => true
  end.

Lemma advances_refl : forall s, advances s s.
Proof. intros s. exists []. simpl. split; [reflexivity | lia]. Qed.

Lemma advances_trans : forall a b c, advances a b -> advances b c -> advances a c.
Proof.
  intros a b c [w1 [H1 P1]] [w2 [H2 P2]].
  exists (w1 ++ w2). rewrite H1, H2, app_assoc, length_app. split; [reflexivity | lia].
Qed.

Section StarIter.
Variable step : mstate -> list mstate.
Variable R : mstate -> mstate -> Prop.
Hypothesis R_refl : forall s, R s s.
Hypothesis R_trans : forall a b c, R a b -> R b c -> R a c.
Hypothesis step_R : forall s s', In s' (step s) -> R s s'.

Lemma star_iter_rel : forall g fuel s s', In s' (star_iter step g fuel s) -> R s s'.
Proof.
  intros g fuel. induction fuel as [|f IH]; intros s s' Hin; simpl in Hin.
  - destruct Hin as [<- | []]. apply R_refl.
  - assert (Hmore : forall x, In x (flat_map (fun s'0 => if pos s <? pos s'0
                                 then star_iter step g f s'0 else []) (step s)) -> R s x).
    { intros x Hx. apply in_flat_map in Hx. destruct Hx as [s1 [H1 H2]].
      destruct (pos s <? pos s1); [|destruct H2].
      eapply R_trans; [apply step_R; exact H1 | apply IH; exact H2]. }
    destruct g.
    + apply in_app_or in Hin. destruct Hin as [Hin | [<- | []]]; auto.
    + destruct Hin as [<- | Hin]; auto.
Qed.
End StarIter.

Lemma run_advances : forall r s s', In s' (run r s) -> advances s s'.
Proof.
  induction r; intros s s' Hin; simpl in Hin.
  - destruct (rest s) as [|c t] eqn:E; [destruct Hin|].
    destruct (f c); [|destruct Hin]. destruct Hin as [<- | []].
    exists [c]. simpl. rewrite E. split; [reflexivity | lia].
  - apply in_flat_map in Hin. destruct Hin as [s1 [H1 H2]].
    eapply advances_trans; [apply IHr1 | apply IHr2]; eassumption.
  - apply in_app_or in Hin. destruct Hin; [apply IHr1 | apply IHr2]; assumption.
  - change (In s' (star_iter (run r) greedy (S (length (rest s))) s)) in Hin.
    eapply star_iter_rel; [apply advances_refl | apply advances_trans | apply IHr | exact Hin].
  - destruct greedy.
    + apply in_app_or in Hin. destruct Hin as [H | [<- | []]]; [apply IHr; exact H | apply advances_refl].
    + destruct Hin as [<- | H]; [apply advances_refl | apply IHr; exact H].
  - apply in_map_iff in Hin. destruct Hin as [s1 [<- H1]].
    destruct (IHr _ _ H1) as [w [E P]]. exists w. simpl. split; assumption.
  - destruct (prev s) as [c|]; [destruct (multiline && (c =? nl)%N)|];
      try destruct Hin as [<- | []]; try apply advances_refl; destruct Hin.
  - destruct (rest s) as [|c t]; [destruct Hin as [<- | []]; apply advances_refl|].
    destruct (_ && _); [destruct Hin as [<- | []]; apply advances_refl | destruct Hin].
  - destruct (xorb _ _); [destruct Hin as [<- | []]; apply advances_refl | destruct Hin].
  - destruct Hin as [<- | []]. apply advances_refl.
Qed.

Lemma run_minlen : forall r s s', In s' (run r s) -> pos s + minlen r <= pos s'.
Proof.
  induction r; intros s s' Hin; simpl in Hin; simpl minlen.
  - destruct (rest s) as [|c t]; [destruct Hin|].
    destruct (f c); [|destruct Hin]. destruct Hin as [<- | []]. simpl. lia.
  - apply in_flat_map in Hin. destruct Hin as [s1 [H1 H2]].
    specialize (IHr1 _ _ H1). specialize (IHr2 _ _ H2). lia.
  - apply in_app_or in Hin. destruct Hin as [H|H];
      [specialize (IHr1 _ _ H) | specialize (IHr2 _ _ H)]; lia.
  - destruct (run_advances (RStar greedy r) s s' Hin) as [w [_ P]]. lia.
  - destruct (run_advances (ROpt greedy r) s s' Hin) as [w [_ P]]. lia.
  - apply in_map_iff in Hin. destruct Hin as [s1 [<- H1]]. simpl. apply IHr. exact H1.
  - destruct (run_advances (RBol multiline) s s' Hin) as [w [_ P]]. lia.
  - destruct (run_advances (REol multiline) s s' Hin) as [w [_ P]]. lia.
  - destruct (run_advances RWordB s s' Hin) as [w [_ P]]. lia.
  - destruct (run_advances REps s s' Hin) as [w [_ P]]. lia.
Qed.

Lemma match_here_bounds : forall r p rs k g,
  match_here r p rs = Some (k, g) -> minlen r <= k /\ k <= length rs.
Proof.
  unfold match_here. intros r p rs k g H.
  destruct (run r (MState p 0 rs [])) as [|s' l] eqn:E; [discriminate|].
  injection H as <- <-.
  assert (Hin : In s' (run r (MState p 0 rs []))) by (rewrite E; left; reflexivity).
  pose proof (run_minlen _ _ _ Hin) as M. destruct (run_advances _ _ _ Hin) as [w [W P]].
  simpl in *. split; [lia|]. rewrite W, length_app. lia.
Qed.

Lemma chain_weaken : forall ms lo lo' hi, lo' <= lo -> chain lo ms hi -> chain lo' ms hi.
Proof.
  intros [|m ms] lo lo' hi Hle H; simpl in *; [lia|].
  destruct H as [H1 H2]. split; [lia | exact H2].
Qed.

Lemma scan_chain : forall r rs p off skip,
  skip <= length rs -> chain (off + skip) (scan r p rs off skip) (off + length rs).
Proof.
  intros r rs. induction rs as [|c t IH]; intros p off skip Hs; simpl.
  - destruct skip; [|simpl in Hs; lia].
    destruct (match_here r p []) as [[k g]|] eqn:M; simpl; [|lia].
    apply match_here_bounds in M. simpl in M. repeat split; lia.
  - destruct skip as [|sk].
    + destruct (match_here r p (c :: t)) as [[k g]|] eqn:M.
      * apply match_here_bounds in M. simpl in M. simpl.
        split; [lia|]. split; [lia|].
        apply chain_weaken with (lo := S off + (k - 1)); [lia|].
        replace (off + k) with (off + k) by lia.
        replace (off + S (length t)) with (S off + length t) by lia.
        apply IH. lia.
      * apply chain_weaken with (lo := S off + 0); [lia|].
        replace (off + 0 + S (length t)) with (S off + length t) by lia.
        replace (off + S (length t)) with (S off + length t) by lia.
        apply IH. lia.
    + replace (off + S sk) with (S off + sk) by lia.
      replace (off + S (length t)) with (S off + length t) by lia.
      apply IH. simpl in Hs. lia.
Qed.

Lemma finditer_chain : forall r text, chain 0 (finditer r text) (length text).
Proof. intros r text. apply (scan_chain r text None 0 0). lia. Qed.

Lemma scan_minlen : forall r rs p off skip,
  Forall (fun m => mstart m + minlen r <= mend m) (scan r p rs off skip).
Proof.
  intros r rs. induction rs as [|c t IH]; intros p off skip; simpl.
  - destruct skip; [|constructor].
    destruct (match_here r p []) as [[k g]|] eqn:M; [|constructor].
    apply match_here_bounds in M. constructor; [simpl; lia | constructor].
  - destruct skip as [|sk]; [|apply IH].
    destruct (match_here r p (c :: t)) as [[k g]|] eqn:M; [|apply IH].
    apply match_here_bounds in M. constructor; [simpl; lia | apply IH].
Qed.

Lemma scan_shift : forall r rs p off d skip,
  scan r p rs (off + d) skip = map (shift d) (scan r p rs off skip).
Proof.
  intros r rs. induction rs as [|c t IH]; intros p off d skip; simpl.
  - destruct skip; [|reflexivity].
    destruct (match_here r p []) as [[k g]|]; [|reflexivity].
    unfold shift. simpl. replace (off + d + k) with (off + k + d) by lia. reflexivity.
  - destruct skip as [|sk].
    + destruct (match_here r p (c :: t)) as [[k g]|].
      * replace (S (off + d)) with (S off + d) by lia. rewrite IH.
        unfold shift at 1. simpl. replace (off + d + k) with (off + k + d) by lia. reflexivity.
      * replace (S (off + d)) with (S off + d) by lia. apply IH.
    + replace (S (off + d)) with (S off + d) by lia. apply IH.
Qed.

Lemma scan_skip_prefix : forall r pre post p off,
  no_match_in r p pre post ->
  scan r p (pre ++ post) off 0 = scan r (after p pre) post (off + length pre) 0.
Proof.
  intros r pre. induction pre as [|c t IH]; intros post p off H; simpl.
  - rewrite Nat.add_0_r. destruct post; reflexivity.
  - destruct H as [H1 H2]. rewrite H1. rewrite IH by exact H2. f_equal. lia.
Qed.

Lemma scan_head_no_match : forall r pre post p off,
  match scan r p (pre ++ post) off 0 with
  | [] => True
  | m :: _ => off + length pre <= mstart m
  end -> no_match_in r p pre post.
Proof.
  intros r pre. induction pre as [|c t IH]; intros post p off H; simpl; [exact I|].
  simpl in H. destruct (match_here r p (c :: t ++ post)) as [[k g]|] eqn:M.
  - simpl in H. lia.
  - split; [reflexivity|]. apply (IH post (Some c) (S off)).
    replace (S off + length t) with (off + S (length t)) by lia. exact H.
Qed.

Lemma after_snoc : forall pre p c, after p (pre ++ [c]) = Some c.
Proof. intros pre. induction pre as [|x t IH]; intros p c; simpl; auto. Qed.

Lemma Forall2_flat_map : forall {A B} (R : A -> A -> Prop) (Q : B -> B -> Prop)
  (f g : B -> list A) l1 l2,
  Forall2 Q l1 l2 -> (forall a b, Q a b -> Forall2 R (f a) (g b)) ->
  Forall2 R (flat_map f l1) (flat_map g l2).
Proof.
  intros A B R Q f g l1 l2 H Hfg. induction H; simpl; [constructor|].
  apply Forall2_app; auto.
Qed.

Lemma Forall2_map_both : forall {A B} (R : B -> B -> Prop) (Q : A -> A -> Prop)
  (f g : A -> B) l1 l2,
  Forall2 Q l1 l2 -> (forall a b, Q a b -> R (f a) (g b)) -> Forall2 R (map f l1) (map g l2).
Proof. intros A B R Q f g l1 l2 H Hfg. induction H; simpl; constructor; auto. Qed.

Section StarEquiv.
Variables step1 step2 : mstate -> list mstate.
Hypothesis step_equiv : forall a b, state_equiv a b -> Forall2 state_equiv (step1 a) (step2 b).

Lemma star_iter_equiv : forall g fuel a b, state_equiv a b ->
  Forall2 state_equiv (star_iter step1 g fuel a) (star_iter step2 g fuel b).
Proof.
  intros g fuel. induction fuel as [|f IH]; intros a b Hab; simpl.
  - constructor; [exact Hab | constructor].
  - assert (Hm : Forall2 state_equiv
      (flat_map (fun s' => if pos a <? pos s' then star_iter step1 g f s' else []) (step1 a))
      (flat_map (fun s' => if pos b <? pos s' then star_iter step2 g f s' else []) (step2 b))).
    { apply Forall2_flat_map with (Q := state_equiv); [apply step_equiv; exact Hab|].
      intros x y Hxy. destruct Hab as [_ [Pab _]]. destruct Hxy as [Ex [Pxy [Rx Cx]]].
      rewrite Pab, Pxy. destruct (pos b <? pos y); [apply IH; repeat split; auto | constructor]. }
    destruct g.
    + apply Forall2_app; [exact Hm | constructor; [exact Hab | constructor]].
    + constructor; [exact Hab | exact Hm].
Qed.
End StarEquiv.

Lemma run_equiv : forall r a b, multiline_only r = true -> state_equiv a b ->
  Forall2 state_equiv (run r a) (run r b).
Proof.
  induction r; intros a b Hml Hab; simpl in Hml;
    destruct Hab as [Hp [Hpos [Hrest Hcaps]]].
  - simpl. rewrite <- Hrest. destruct (rest a) as [|c t]; [constructor|].
    destruct (f c); [|constructor]. constructor; [|constructor].
    repeat split; simpl; auto.
  - apply andb_prop in Hml. destruct Hml as [H1 H2]. simpl.
    apply Forall2_flat_map with (Q := state_equiv); [apply IHr1; auto; repeat split; auto|].
    intros x y Hxy. apply IHr2; auto.
  - apply andb_prop in Hml. destruct Hml as [H1 H2]. simpl.
    apply Forall2_app; [apply IHr1 | apply IHr2]; auto; repeat split; auto.
  - change (Forall2 state_equiv (star_iter (run r) greedy (S (length (rest a))) a)
                                 (star_iter (run r) greedy (S (length (rest b))) b)).
    rewrite <- Hrest. apply star_iter_equiv; [intros x y Hxy; apply IHr; auto|].
    repeat split; auto.
  - simpl. assert (H : Forall2 state_equiv (run r a) (run r b)) by (apply IHr; auto; repeat split; auto).
    destruct greedy; [apply Forall2_app; [exact H | constructor; [repeat split; auto | constructor]]|].
    constructor; [repeat split; auto | exact H].
  - simpl. apply Forall2_map_both with (Q := state_equiv); [apply IHr; auto; repeat split; auto|].
    intros x y [E1 [E2 [E3 E4]]]. unfold state_equiv. simpl.
    rewrite Hrest, Hpos, E2, E3, E4. repeat split; auto.
  - subst multiline.
    assert (Hab : state_equiv a b) by (repeat split; auto).
    simpl. destruct (prev a) as [x|], (prev b) as [y|]; simpl in Hp; subst.
    + match goal with |- context [if ?c then _ else _] => destruct c end;
        [constructor; [exact Hab | constructor] | constructor].
    + cbn. constructor; [exact Hab | constructor].
    + cbn. constructor; [exact Hab | constructor].
    + constructor; [exact Hab | constructor].
  - assert (Hab : state_equiv a b) by (repeat split; auto).
    simpl. rewrite <- Hrest. destruct (rest a) as [|c t];
      [constructor; [exact Hab | constructor]|].
    match goal with |- context [if ?c then _ else _] => destruct c end;
      [constructor; [exact Hab | constructor] | constructor].
  - assert (Hab : state_equiv a b) by (repeat split; auto).
    simpl. rewrite <- Hrest.
    assert (Hw : prev_word (prev a) = prev_word (prev b)).
    { destruct (prev a) as [x|], (prev b) as [y|]; simpl in Hp; subst; reflexivity. }
    rewrite Hw.
    match goal with |- context [if ?c then _ else _] => destruct c end;
      [constructor; [exact Hab | constructor] | constructor].
  - simpl. constructor; [repeat split; auto | constructor].
Qed.

Lemma match_here_equiv : forall r p q rs, multiline_only r = true -> prev_equiv p q ->
  match_here r p rs = match_here r q rs.
Proof.
  intros r p q rs Hml Hpq. unfold match_here.
  assert (Hab : state_equiv (MState p 0 rs []) (MState q 0 rs [])) by (repeat split; simpl; auto).
  generalize (run_equiv r _ _ Hml Hab).
  destruct (run r (MState p 0 rs [])) as [|x l], (run r (MState q 0 rs [])) as [|y l'];
    intro H; inversion H; subst; auto.
  match goal with Hx : state_equiv x y |- _ => destruct Hx as [_ [E1 [_ E2]]] end.
  rewrite E1, E2. reflexivity.
Qed.

Lemma scan_equiv : forall r p q rs off skip, multiline_only r = true -> prev_equiv p q ->
  scan r p rs off skip = scan r q rs off skip.
Proof.
  intros r p q [|c t] off [|sk] Hml Hpq; simpl; try reflexivity;
    rewrite (match_here_equiv r p q) by assumption; reflexivity.
Qed.

(** The first match [finditer] reports: no match starts before it. *)
Lemma scan_first : forall r rs p off m ms,
  scan r p rs off 0 = m :: ms ->
  exists pre post, rs = pre ++ post /\ mstart m = off + length pre /\
    no_match_in r p pre post /\
    match_here r (after p pre) post = Some (mend m - mstart m, mgroups m).
Proof.
  intros r rs. induction rs as [|c t IH]; intros p off m ms H; simpl in H.
  - destruct (match_here r p []) as [[k g]|] eqn:E; [|discriminate].
    injection H as <- _. exists [], []. simpl.
    split; [reflexivity|]. split; [lia|]. split; [exact I|].
    rewrite E. replace (off + k - off) with k by lia. reflexivity.
  - destruct (match_here r p (c :: t)) as [[k g]|] eqn:E.
    + injection H as <- _. exists [], (c :: t). simpl.
      split; [reflexivity|]. split; [lia|]. split; [exact I|].
      rewrite E. replace (off + k - off) with k by lia. reflexivity.
    + destruct (IH (Some c) (S off) m ms H) as [pre [post [E1 [E2 [E3 E4]]]]].
      exists (c :: pre), post. subst t. simpl.
      split; [reflexivity|]. split; [lia|]. split; [split; assumption|]. exact E4.
Qed.

Lemma match_here_bol : forall r p rs k g,
  match_here (RSeq (RBol true) r) p rs = Some (k, g) -> prev_equiv None p.
Proof.
  intros r [c|] rs k g H; simpl; auto.
  unfold match_here in H. simpl in H.
  destruct (c =? nl)%N eqn:E; simpl in H; [apply N.eqb_eq in E; exact E | discriminate].
Qed.

Lemma prev_equiv_sym : forall a b, prev_equiv a b -> prev_equiv b a.
Proof. intros [x|] [y|]; simpl; auto. Qed.

Lemma shift_0 : forall ms, map (shift 0) ms = ms.
Proof.
  intros ms. induction ms as [|[a b g] ms IH]; simpl; auto.
  rewrite IH. unfold shift. simpl. rewrite !Nat.add_0_r. reflexivity.
Qed.

Lemma fold_min_in : forall ps p, In (fold_left Z.min ps p) (p :: ps).
Proof.
  intros ps. induction ps as [|x ps IH]; intros p; simpl; [auto|].
  destruct (IH (Z.min p x)) as [E|E].
  - rewrite <- E. destruct (Z.min_spec p x) as [[_ ->]|[_ ->]]; simpl; auto.
  - simpl; auto.
Qed.

Lemma fold_min_le : forall ps p x, In x (p :: ps) -> (fold_left Z.min ps p <= x)%Z.
Proof.
  intros ps. induction ps as [|y ps IH]; intros p x Hx; simpl in *.
  - destruct Hx as [<-|[]]. lia.
  - destruct Hx as [<-|[<-|Hx]].
    + specialize (IH (Z.min p y) (Z.min p y) (or_introl eq_refl)). lia.
    + specialize (IH (Z.min p y) (Z.min p y) (or_introl eq_refl)). lia.
    + apply IH. auto.
Qed.

Lemma top_patterns_shape : forall r, In r top_patterns ->
  multiline_only r = true /\ exists r', r = RSeq (RBol true) r'.
Proof.
  intros r Hr. destruct Hr as [<-|[<-|[<-|[]]]]; (split; [reflexivity | eexists; reflexivity]).
Qed.

Lemma find_first_structure_spec : forall text,
  (DocumentParser.find_first_structure text <= 0)%Z \/
  ((exists r m, In r top_patterns /\ search r text = Some m /\
                DocumentParser.find_first_structure text = Z.of_nat (mstart m)) /\
   (forall r m, In r top_patterns -> search r text = Some m ->
                (DocumentParser.find_first_structure text <= Z.of_nat (mstart m))%Z)).
Proof.
  intros text. unfold DocumentParser.find_first_structure. fold top_patterns.
  set (F := fun p => match search p text with
                     | Some m => [Z.of_nat (mstart m)] | None => [] end).
  assert (HF : forall x, In x (flat_map F top_patterns) <->
                exists r m, In r top_patterns /\ search r text = Some m /\ x = Z.of_nat (mstart m)).
  { intros x. rewrite in_flat_map. unfold F. split.
    - intros [r [Hr Hx]]. destruct (search r text) as [m|] eqn:E; [|destruct Hx].
      destruct Hx as [<-|[]]. exists r, m. repeat split; auto.
    - intros [r [m [Hr [E ->]]]]. exists r. rewrite E. split; [exact Hr | left; reflexivity]. }
  destruct (flat_map F top_patterns) as [|p ps] eqn:Ep; [left; lia|].
  right. split.
  - apply HF. apply fold_min_in.
  - intros r m Hr E. apply fold_min_le. apply HF. exists r, m. auto.
Qed.

(** When one of the three top-level patterns matches, the earliest position
    is that of a match. *)
Lemma find_first_structure_some : forall text,
  (exists r m, In r top_patterns /\ search r text = Some m) ->
  exists r m, In r top_patterns /\ search r text = Some m /\
              DocumentParser.find_first_structure text = Z.of_nat (mstart m).
Proof.
  intros text Hex. unfold DocumentParser.find_first_structure. fold top_patterns.
  set (F := fun p => match search p text with
                     | Some m => [Z.of_nat (mstart m)] | None => [] end).
  assert (HF : forall x, In x (flat_map F top_patterns) <->
                exists r m, In r top_patterns /\ search r text = Some m /\ x = Z.of_nat (mstart m)).
  { intros x. rewrite in_flat_map. unfold F. split.
    - intros [r [Hr Hx]]. destruct (search r text) as [m|] eqn:E; [|destruct Hx].
      destruct Hx as [<-|[]]. exists r, m. repeat split; auto.
    - intros [r [m [Hr [E ->]]]]. exists r. rewrite E. split; [exact Hr | left; reflexivity]. }
  destruct (flat_map F top_patterns) as [|p ps] eqn:Ep.
  - exfalso. destruct Hex as [r [m [Hr Hs]]].
    apply (proj2 (HF (Z.of_nat (mstart m)))). exists r, m. auto.
  - apply HF. apply fold_min_in.
Qed.

(** Cutting the preamble off does not change what the three top-level
    patterns find: the cut is at the start of a line. *)
Lemma split_preamble_finditer : forall text r, In r top_patterns ->
  finditer r text =
  map (shift (length text - length (snd (DocumentParser.split_preamble text))))
      (finditer r (snd (DocumentParser.split_preamble text))).
Proof.
  intros text r Hr. unfold DocumentParser.split_preamble. cbv zeta.
  destruct (Z.ltb_spec 0 (DocumentParser.find_first_structure text)) as [Hp|Hp]; simpl.
  2: { rewrite Nat.sub_diag, shift_0. reflexivity. }
  destruct (find_first_structure_spec text) as [Hle|[[r0 [m0 [Hr0 [Hs0 Hp0]]]] Hmin]]; [lia|].
  unfold search in Hs0.
  destruct (finditer r0 text) as [|m0' ms0] eqn:Ef0; simpl in Hs0; [discriminate|].
  injection Hs0 as ->.
  destruct (scan_first r0 text None 0 m0 ms0 Ef0) as [pre [post [Et [Es [_ Hm]]]]].
  destruct (top_patterns_shape r0 Hr0) as [_ [r0' ->]].
  apply match_here_bol in Hm.
  destruct (top_patterns_shape r Hr) as [Hml _].
  rewrite Hp0, Es, Nat2Z.id. simpl. subst text.
  rewrite skipn_app, skipn_all, Nat.sub_diag. simpl.
  rewrite length_app. replace (length pre + length post - length post) with (length pre) by lia.
  unfold finditer. rewrite scan_skip_prefix.
  - rewrite (scan_equiv r (after None pre) None) by (auto; apply prev_equiv_sym; exact Hm).
    apply scan_shift.
  - apply (scan_head_no_match r pre post None 0).
    destruct (scan r None (pre ++ post) 0 0) as [|m ms] eqn:E; [exact I|].
    assert (Hs : search r (pre ++ post) = Some m) by (unfold search, finditer; rewrite E; reflexivity).
    specialize (Hmin r m Hr Hs). lia.
Qed.

Lemma units_length : forall a t ms, length (DocumentParser.units a t ms) = length ms.
Proof. intros a t ms. induction ms as [|m ms IH]; simpl; auto. Qed.

Lemma finditer_structured_length : forall text r, In r top_patterns ->
  length (finditer r (structured_text text)) = length (finditer r text).
Proof.
  intros text r Hr. unfold structured_text.
  rewrite (split_preamble_finditer text r Hr), length_map. reflexivity.
Qed.

Lemma extract_chapters_length : forall t,
  length (DocumentParser.extract_chapters t) = length (finditer DocumentParser.chapter_pattern t).
Proof. intros t. unfold DocumentParser.extract_chapters. rewrite length_map. apply units_length. Qed.

Lemma extract_articles_length : forall t,
  length (DocumentParser.extract_articles t) = length (finditer DocumentParser.article_pattern t).
Proof. intros t. unfold DocumentParser.extract_articles. rewrite length_map. apply units_length. Qed.

Lemma extract_sections_length : forall t,
  length (DocumentParser.extract_sections t) = length (finditer DocumentParser.section_pattern t).
Proof. intros t. unfold DocumentParser.extract_sections. rewrite length_map. apply units_length. Qed.

Lemma parse_shape : forall text md,
  let t := structured_text text in
  let d := DocumentParser.parse text md in
  preamble d = fst (DocumentParser.split_preamble text) /\ parts d = [] /\
  chapters d = DocumentParser.extract_chapters t /\
  articles d = match DocumentParser.extract_chapters t with
               | [] => DocumentParser.extract_articles t | _ => [] end /\
  sections d = match DocumentParser.extract_chapters t, DocumentParser.extract_articles t with
               | [], [] => DocumentParser.extract_sections t | _, _ => [] end.
Proof.
  intros text md t d. subst t d. unfold DocumentParser.parse, structured_text.
  destruct (DocumentParser.split_preamble text) as [pre t0]. simpl.
  destruct (DocumentParser.extract_chapters t0);
    [destruct (DocumentParser.extract_articles t0)|]; simpl; auto.
Qed.

Lemma length_nil_iff : forall {A B} (l : list A) (l' : list B),
  length l = length l' -> (l = [] <-> l' = []).
Proof. intros A B [|x l] [|y l'] H; simpl in H; split; intro E; congruence. Qed.

Lemma units_nth : forall anchor text ms i,
  nth_error (DocumentParser.units anchor text ms) i =
  option_map (fun m => (m, slice text (anchor m) (next_start text ms i))) (nth_error ms i).
Proof.
  intros anchor text ms. induction ms as [|m0 ms IH]; intros i; [destruct i; reflexivity|].
  destruct i as [|i]; simpl.
  - unfold next_start. simpl. destruct ms; reflexivity.
  - rewrite IH. reflexivity.
Qed.

Lemma nth_error_map_units : forall {B} (f : mobj -> str -> B) anchor text ms i,
  nth_error (map (fun '(m, span) => f m span) (DocumentParser.units anchor text ms)) i =
  option_map (fun m => f m (slice text (anchor m) (next_start text ms i))) (nth_error ms i).
Proof.
  intros B f anchor text ms i. rewrite nth_error_map, units_nth.
  destruct (nth_error ms i); reflexivity.
Qed.

Lemma slice_app_skipn : forall s a b, a <= b -> slice s a b ++ skipn b s = skipn a s.
Proof.
  intros s a b H. unfold slice.
  replace (skipn b s) with (skipn (b - a) (skipn a s)).
  - apply firstn_skipn.
  - rewrite skipn_skipn. f_equal. lia.
Qed.

Lemma slice_to_end : forall s b, slice s b (length s) = skipn b s.
Proof. intros s b. unfold slice. rewrite <- length_skipn. apply firstn_all. Qed.

(** The marker texts and the content spans of consecutive units, laid end
    to end, give back the text from the first marker on. *)
Lemma units_tile : forall text ms lo,
  chain lo ms (length text) ->
  concat (map (fun '(m, span) => group0 text m ++ span) (DocumentParser.units mend text ms)) =
  match ms with [] => [] | m :: _ => skipn (mstart m) text end.
Proof.
  intros text ms. induction ms as [|m ms IH]; intros lo H; simpl; auto.
  destruct H as [H1 [H2 H3]].
  destruct ms as [|m' ms'].
  - simpl in H3. simpl. unfold group0. rewrite app_nil_r, slice_to_end.
    apply slice_app_skipn. exact H2.
  - specialize (IH (mend m) H3). simpl in IH. simpl.
    rewrite IH. unfold group0. simpl in H3. destruct H3 as [H4 _].
    rewrite <- app_assoc, slice_app_skipn by exact H4.
    apply slice_app_skipn. exact H2.
Qed.

Lemma map_units : forall {B C} (f : mobj -> str -> B) (g : B -> C) (h : mobj -> C) anchor t ms,
  (forall m span, g (f m span) = h m) ->
  map g (map (fun '(m, span) => f m span) (DocumentParser.units anchor t ms)) = map h ms.
Proof.
  intros B C f g h anchor t ms H. induction ms as [|m ms IH]; simpl; auto.
  rewrite H, IH. reflexivity.
Qed.

(** * Lists of parts *)

Lemma str_eqb_spec : forall a b, str_eqb a b = true <-> a = b.
Proof. intros a b. unfold str_eqb. destruct (list_eq_dec N.eq_dec a b); split; congruence. Qed.

Lemma mem_str_spec : forall x l, PDFParser.mem_str x l = true <-> In x l.
Proof.
  intros x l. unfold PDFParser.mem_str. rewrite existsb_exists. split.
  - intros [y [Hy E]]. apply str_eqb_spec in E. subst. exact Hy.
  - intros H. exists x. split; [exact H | apply str_eqb_spec; reflexivity].
Qed.

Lemma mem_str_false : forall x l, PDFParser.mem_str x l = false <-> ~ In x l.
Proof.
  intros x l. rewrite <- mem_str_spec.
  destruct (PDFParser.mem_str x l); split; intro H; try intro H'; congruence.
Qed.

Lemma insert_by_perm : forall {A} (k : A -> nat) x l,
  Permutation (PDFParser.insert_by k x l) (x :: l).
Proof.
  intros A k x l. induction l as [|y l IH]; simpl; [reflexivity|].
  destruct (k x <=? k y); [reflexivity|].
  eapply perm_trans; [apply perm_skip; exact IH | apply perm_swap].
Qed.

Lemma sort_by_perm : forall {A} (k : A -> nat) l, Permutation (PDFParser.sort_by k l) l.
Proof.
  intros A k l. induction l as [|x l IH]; simpl; [reflexivity|].
  eapply perm_trans; [apply insert_by_perm | apply perm_skip; exact IH].
Qed.

Lemma list_insert_perm : forall {A} i (x : A) l,
  Permutation (PDFParser.list_insert i x l) (x :: l).
Proof.
  intros A i x l. unfold PDFParser.list_insert.
  transitivity (x :: (firstn i l ++ skipn i l)).
  - symmetry. apply Permutation_middle.
  - rewrite firstn_skipn. reflexivity.
Qed.

Lemma HdRel_all : forall {A} (R : A -> A -> Prop) a l,
  (forall b, In b l -> R a b) -> HdRel R a l.
Proof. intros A R a [|b l] H; constructor. apply H. left; reflexivity. Qed.

Lemma insert_by_sorted : forall {A} (k : A -> nat) x l,
  Sorted le (map k l) -> Sorted le (map k (PDFParser.insert_by k x l)).
Proof.
  intros A k x l. induction l as [|y l IH]; intros H; simpl.
  - repeat constructor.
  - destruct (Nat.leb_spec (k x) (k y)) as [Hle|Hlt]; simpl.
    + constructor; [exact H | constructor; exact Hle].
    + assert (Hss := Sorted_StronglySorted Nat.le_trans H).
      apply StronglySorted_inv in Hss. destruct Hss as [_ Hall].
      apply Sorted_inv in H. destruct H as [Hs _].
      constructor; [apply IH; exact Hs|].
      apply HdRel_all. intros b Hb.
      apply in_map_iff in Hb. destruct Hb as [z [<- Hz]].
      apply (Permutation_in _ (insert_by_perm k x l)) in Hz.
      destruct Hz as [<-|Hz]; [lia|].
      rewrite Forall_forall in Hall. apply Hall. apply in_map. exact Hz.
Qed.

Lemma sort_by_sorted : forall {A} (k : A -> nat) l, Sorted le (map k (PDFParser.sort_by k l)).
Proof.
  intros A k l. induction l as [|x l IH]; simpl; [constructor|].
  apply insert_by_sorted. exact IH.
Qed.

Lemma p_number_recovered : forall text e m,
  PDFParser.p_number (PDFParser.recovered_entry text e m) = e.
Proof. reflexivity. Qed.

(** What [_fix_missing_parts] adds: entries recovered by a fallback pattern. *)
Lemma fix_fold_in : forall text es l nums p,
  In p (fst (fold_left (PDFParser.fix_step text) es (l, nums))) ->
  In p l \/ exists e m, In e es /\
    PDFParser.first_search (PDFParser.fallback_patterns e) text = Some m /\
    p = PDFParser.recovered_entry text e m.
Proof.
  intros text es. induction es as [|e es IH]; intros l nums p H; [left; exact H|].
  cbn [fold_left] in H.
  destruct (PDFParser.fix_step text (l, nums) e) as [l' nums'] eqn:Hs.
  destruct (IH l' nums' p H) as [Hp|[e' [m' [He' [Hf' ->]]]]].
  - unfold PDFParser.fix_step in Hs.
    destruct (PDFParser.mem_str e nums).
    + injection Hs as -> _. left; exact Hp.
    + destruct (PDFParser.first_search (PDFParser.fallback_patterns e) text) as [m|] eqn:Ef.
      * injection Hs as <- _.
        apply (Permutation_in _ (list_insert_perm _ _ _)) in Hp.
        destruct Hp as [<-|Hp]; [right; exists e, m; simpl; auto | left; exact Hp].
      * injection Hs as -> _. left; exact Hp.
  - right. exists e', m'. simpl. auto.
Qed.

Lemma fix_fold_nodup : forall text es l nums,
  Permutation (map PDFParser.p_number l) nums -> NoDup nums ->
  Permutation (map PDFParser.p_number (fst (fold_left (PDFParser.fix_step text) es (l, nums))))
              (snd (fold_left (PDFParser.fix_step text) es (l, nums))) /\
  NoDup (snd (fold_left (PDFParser.fix_step text) es (l, nums))).
Proof.
  intros text es. induction es as [|e es IH]; intros l nums Hp Hn; [split; assumption|].
  cbn [fold_left].
  destruct (PDFParser.fix_step text (l, nums) e) as [l' nums'] eqn:Hs.
  apply IH.
  - unfold PDFParser.fix_step in Hs.
    destruct (PDFParser.mem_str e nums) eqn:Em; [injection Hs as <- <-; exact Hp|].
    destruct (PDFParser.first_search (PDFParser.fallback_patterns e) text) as [m|];
      [|injection Hs as <- <-; exact Hp].
    injection Hs as <- <-.
    eapply perm_trans; [apply Permutation_map, list_insert_perm|].
    simpl. eapply perm_trans; [apply perm_skip, Hp|]. apply Permutation_cons_append.
  - unfold PDFParser.fix_step in Hs.
    destruct (PDFParser.mem_str e nums) eqn:Em; [injection Hs as <- <-; exact Hn|].
    destruct (PDFParser.first_search (PDFParser.fallback_patterns e) text) as [m|];
      [|injection Hs as <- <-; exact Hn].
    injection Hs as <- <-.
    apply (Permutation_NoDup (Permutation_cons_append nums e)).
    constructor; [apply mem_str_false; exact Em | exact Hn].
Qed.

(** * The line scan of [extract_constitution_structure] *)

Lemma first_by_number_app : forall a b seen,
  first_by_number seen (a ++ b) =
  first_by_number seen a ++
  first_by_number (seen ++ map PDFParser.p_number (first_by_number seen a)) b.
Proof.
  intros a. induction a as [|q a IH]; intros b seen; simpl.
  - rewrite app_nil_r. reflexivity.
  - destruct (PDFParser.mem_str (PDFParser.p_number q) seen); [apply IH|].
    rewrite IH. simpl. rewrite <- app_assoc. reflexivity.
Qed.

Lemma first_by_number_spec : forall l seen p,
  In p (first_by_number seen l) <->
  exists pre suf, l = pre ++ p :: suf /\
    ~ In (PDFParser.p_number p) (seen ++ map PDFParser.p_number pre).
Proof.
  intros l. induction l as [|q l IH]; intros seen p; simpl.
  - split; [intros []|]. intros [pre [suf [E _]]]. destruct pre; discriminate.
  - destruct (PDFParser.mem_str (PDFParser.p_number q) seen) eqn:Em.
    + apply mem_str_spec in Em. rewrite IH. split.
      * intros [pre [suf [-> Hn]]]. exists (q :: pre), suf. split; [reflexivity|].
        simpl. rewrite in_app_iff in *. simpl. intros [H|[H|H]]; apply Hn; auto.
        left. rewrite <- H. exact Em.
      * intros [[|q' pre] [suf [E Hn]]]; simpl in E; injection E as E1 E2.
        -- subst q. rewrite app_nil_r in Hn. contradiction.
        -- exists pre, suf. split; [exact E2|]. intro H. apply Hn.
           rewrite in_app_iff in *. simpl. destruct H; auto.
    + apply mem_str_false in Em. split.
      * intros [<-|H].
        -- exists [], l. simpl. rewrite app_nil_r. auto.
        -- apply IH in H. destruct H as [pre [suf [-> Hn]]]. exists (q :: pre), suf.
           split; [reflexivity|]. simpl. rewrite <- app_assoc in Hn. exact Hn.
      * intros [[|q' pre] [suf [E Hn]]]; simpl in E; injection E as E1 E2.
        -- left. exact E1.
        -- right. apply IH. exists pre, suf. split; [exact E2|]. subst q'.
           rewrite <- app_assoc. exact Hn.
Qed.

Lemma first_by_number_nodup : forall l seen, NoDup seen ->
  NoDup (seen ++ map PDFParser.p_number (first_by_number seen l)).
Proof.
  intros l. induction l as [|q l IH]; intros seen Hs; simpl.
  - rewrite app_nil_r. exact Hs.
  - destruct (PDFParser.mem_str (PDFParser.p_number q) seen) eqn:Em; [apply IH; exact Hs|].
    simpl.
    replace (seen ++ PDFParser.p_number q
                  :: map PDFParser.p_number (first_by_number (seen ++ [PDFParser.p_number q]) l))
      with ((seen ++ [PDFParser.p_number q])
              ++ map PDFParser.p_number (first_by_number (seen ++ [PDFParser.p_number q]) l))
      by (rewrite <- app_assoc; reflexivity).
    apply IH. apply (Permutation_NoDup (Permutation_cons_append seen _)).
    constructor; [apply mem_str_false; exact Em | exact Hs].
Qed.

Lemma entries_cons : forall {A} (f : nat -> str -> option A) il ils,
  entries f (il :: ils) = entries f [il] ++ entries f ils.
Proof. intros A f [i raw] ils. unfold entries. simpl. rewrite app_nil_r. reflexivity. Qed.

Lemma scan_line_step : forall s seen i raw,
  seen = map PDFParser.p_number (PDFParser.st_parts s) ->
  PDFParser.st_parts (fst (PDFParser.scan_line (s, seen) (i, raw)))
    = PDFParser.st_parts s ++ first_by_number seen (entries PDFParser.line_part [(i, raw)]) /\
  PDFParser.st_articles (fst (PDFParser.scan_line (s, seen) (i, raw)))
    = PDFParser.st_articles s ++ entries PDFParser.line_article [(i, raw)] /\
  snd (PDFParser.scan_line (s, seen) (i, raw))
    = seen ++ map PDFParser.p_number
                  (first_by_number seen (entries PDFParser.line_part [(i, raw)])).
Proof.
  intros s seen i raw Hs. unfold PDFParser.scan_line, entries. simpl.
  destruct (strip raw) as [|c t]; simpl; [rewrite !app_nil_r; auto|].
  destruct (PDFParser.line_part i (c :: t)) as [q|];
    destruct (PDFParser.line_article i (c :: t)) as [a|]; simpl;
    try destruct (PDFParser.mem_str (PDFParser.p_number q) seen);
    simpl; rewrite ?app_nil_r; auto.
Qed.

Lemma scan_lines_fold : forall ils s seen,
  seen = map PDFParser.p_number (PDFParser.st_parts s) ->
  PDFParser.st_parts (fst (fold_left PDFParser.scan_line ils (s, seen)))
    = PDFParser.st_parts s ++ first_by_number seen (entries PDFParser.line_part ils) /\
  PDFParser.st_articles (fst (fold_left PDFParser.scan_line ils (s, seen)))
    = PDFParser.st_articles s ++ entries PDFParser.line_article ils.
Proof.
  intros ils. induction ils as [|[i raw] ils IH]; intros s seen Hseen.
  - simpl. rewrite !app_nil_r. auto.
  - cbn [fold_left]. rewrite (entries_cons PDFParser.line_part), (entries_cons PDFParser.line_article).
    destruct (scan_line_step s seen i raw Hseen) as [H1 [H2 H3]].
    destruct (PDFParser.scan_line (s, seen) (i, raw)) as [s' seen'] eqn:Hst. cbn [fst snd] in H1, H2, H3.
    destruct (IH s' seen') as [E1 E2].
    { rewrite H3, H1, map_app, Hseen. reflexivity. }
    rewrite E1, E2, H1, H2, H3, first_by_number_app, !app_assoc. auto.
Qed.

Lemma scan_lines_spec : forall md,
  PDFParser.st_parts (PDFParser.scan_lines md) = first_by_number [] (line_entries PDFParser.line_part md) /\
  PDFParser.st_articles (PDFParser.scan_lines md) = line_entries PDFParser.line_article md.
Proof.
  intros md. unfold PDFParser.scan_lines, line_entries.
  apply (scan_lines_fold _ (PDFParser.mkStructure [] [] []) []). reflexivity.
Qed.

(** * The repair passes *)

Lemma fix_fold_keep : forall text es l nums p,
  In p l -> In p (fst (fold_left (PDFParser.fix_step text) es (l, nums))).
Proof.
  intros text es. induction es as [|e es IH]; intros l nums p H; [exact H|].
  cbn [fold_left].
  destruct (PDFParser.fix_step text (l, nums) e) as [l' nums'] eqn:Hs.
  apply IH. unfold PDFParser.fix_step in Hs.
  destruct (PDFParser.mem_str e nums); [injection Hs as <- _; exact H|].
  destruct (PDFParser.first_search (PDFParser.fallback_patterns e) text) as [m|];
    [|injection Hs as <- _; exact H].
  injection Hs as <- _. apply (Permutation_in _ (Permutation_sym (list_insert_perm _ _ _))).
  right. exact H.
Qed.

Lemma fix_missing_parts_eq : forall text found,
  PDFParser.fix_missing_parts text found =
  PDFParser.sort_by PDFParser.part_key
    (fst (fold_left (PDFParser.fix_step text) PDFParser.expected_parts
                    (found, map PDFParser.p_number found))).
Proof. intros. reflexivity. Qed.

Lemma fix_missing_parts_in : forall text found p,
  In p (PDFParser.fix_missing_parts text found) ->
  In p found \/ exists e m,
    PDFParser.first_search (PDFParser.fallback_patterns e) text = Some m /\
    p = PDFParser.recovered_entry text e m.
Proof.
  intros text found p H. rewrite fix_missing_parts_eq in H.
  apply (Permutation_in p (sort_by_perm PDFParser.part_key _)) in H.
  destruct (fix_fold_in text PDFParser.expected_parts found (map PDFParser.p_number found) p H)
    as [Hp|[e [m [_ Hm]]]]; [left; exact Hp|].
  right. exists e, m. exact Hm.
Qed.

Lemma fix_missing_parts_keep : forall text found p,
  In p found -> In p (PDFParser.fix_missing_parts text found).
Proof.
  intros text found p H. rewrite fix_missing_parts_eq.
  apply (Permutation_in p (Permutation_sym (sort_by_perm PDFParser.part_key _))).
  apply fix_fold_keep. exact H.
Qed.

Lemma fix_missing_parts_nodup : forall text found,
  NoDup (map PDFParser.p_number found) ->
  NoDup (map PDFParser.p_number (PDFParser.fix_missing_parts text found)).
Proof.
  intros text found H. rewrite fix_missing_parts_eq.
  apply (Permutation_NoDup
    (Permutation_sym (Permutation_map PDFParser.p_number (sort_by_perm PDFParser.part_key _)))).
  destruct (fix_fold_nodup text PDFParser.expected_parts found (map PDFParser.p_number found)
              (Permutation_refl _) H) as [Hp Hn].
  exact (Permutation_NoDup (Permutation_sym Hp) Hn).
Qed.

Lemma find_part_vii_eq : forall text found,
  PDFParser.find_part_vii_specifically text found =
  PDFParser.sort_by PDFParser.part_key
    (PDFParser.list_insert (PDFParser.vii_insert_pos 0 found)
       (match PDFParser.first_search PDFParser.part_vii_patterns text with
        | Some m => PDFParser.mkPartEntry PDFParser.vii_number (PDFParser.vii_title text)
                      (Z.of_nat (mstart m)) (firstn 100 (group0 text m))
        | None => PDFParser.vii_placeholder
        end) found).
Proof. intros. reflexivity. Qed.

Lemma find_part_vii_entry : forall text found, exists e,
  PDFParser.p_number e = PDFParser.vii_number /\
  Permutation (PDFParser.find_part_vii_specifically text found) (e :: found) /\
  (PDFParser.first_search PDFParser.part_vii_patterns text = None -> e = PDFParser.vii_placeholder).
Proof.
  intros text found. rewrite find_part_vii_eq.
  destruct (PDFParser.first_search PDFParser.part_vii_patterns text) as [m|].
  - exists (PDFParser.mkPartEntry PDFParser.vii_number (PDFParser.vii_title text)
              (Z.of_nat (mstart m)) (firstn 100 (group0 text m))).
    split; [reflexivity|]. split; [|discriminate].
    eapply perm_trans; [apply sort_by_perm | apply list_insert_perm].
  - exists PDFParser.vii_placeholder. split; [reflexivity|]. split; [|reflexivity].
    eapply perm_trans; [apply sort_by_perm | apply list_insert_perm].
Qed.

Lemma structure_parts : forall md,
  PDFParser.st_parts (PDFParser.extract_constitution_structure md) =
  let ps0 := PDFParser.st_parts (PDFParser.scan_lines md) in
  let ps1 := if length ps0 <? 22 then PDFParser.fix_missing_parts md ps0 else ps0 in
  if PDFParser.mem_str PDFParser.vii_number (map PDFParser.p_number ps1) then ps1
  else PDFParser.find_part_vii_specifically md ps1.
Proof. reflexivity. Qed.

Lemma scan_parts_nodup : forall md,
  NoDup (map PDFParser.p_number (PDFParser.st_parts (PDFParser.scan_lines md))).
Proof.
  intros md. destruct (scan_lines_spec md) as [-> _].
  apply (first_by_number_nodup _ [] (NoDup_nil _)).
Qed.

Lemma structure_articles : forall md,
  PDFParser.st_articles (PDFParser.extract_constitution_structure md) =
  PDFParser.st_articles (PDFParser.scan_lines md).
Proof. reflexivity. Qed.

Lemma index_of_in : forall x l, In x l ->
  exists i, PDFParser.index_of x l = Some i /\ i < length l.
Proof.
  intros x l. induction l as [|y l IH]; intros H; [destruct H|]. simpl.
  destruct (str_eqb x y) eqn:E; [exists 0; split; [reflexivity|lia]|].
  destruct H as [Hy|H].
  - subst y. assert (str_eqb x x = true) by (apply str_eqb_spec; reflexivity). congruence.
  - destruct (IH H) as [i [-> Hi]]. exists (S i). split; [reflexivity|lia].
Qed.

Lemma index_of_notin : forall x l, ~ In x l -> PDFParser.index_of x l = None.
Proof.
  intros x l. induction l as [|y l IH]; intros H; [reflexivity|]. simpl.
  destruct (str_eqb x y) eqn:E.
  - apply str_eqb_spec in E. subst. exfalso. apply H. left. reflexivity.
  - rewrite IH; [reflexivity|]. intro H'. apply H. right. exact H'.
Qed.

Lemma part_key_known : forall p,
  In (PDFParser.p_number p) PDFParser.expected_parts -> PDFParser.part_key p < 22.
Proof.
  intros p H. unfold PDFParser.part_key.
  destruct (index_of_in _ _ H) as [i [-> Hi]]. exact Hi.
Qed.

Lemma part_key_unknown : forall p,
  ~ In (PDFParser.p_number p) PDFParser.expected_parts -> PDFParser.part_key p = 999.
Proof. intros p H. unfold PDFParser.part_key. rewrite (index_of_notin _ _ H). reflexivity. Qed.

Lemma vii_not_in_fixed : forall md ps,
  ~ In PDFParser.vii_number (map PDFParser.p_number ps) ->
  PDFParser.first_search (PDFParser.fallback_patterns PDFParser.vii_number) md = None ->
  ~ In PDFParser.vii_number (map PDFParser.p_number (PDFParser.fix_missing_parts md ps)).
Proof.
  intros md ps H1 H2 H. apply in_map_iff in H as [p [Hp Hin]].
  destruct (fix_missing_parts_in md ps p Hin) as [Hk|[e [m [He ->]]]].
  - apply H1. apply in_map_iff. exists p. split; assumption.
  - rewrite p_number_recovered in Hp. subst e. rewrite H2 in He. discriminate He.
Qed.

Lemma fix_missing_parts_sort : forall text found,
  PDFParser.fix_missing_parts text found =
  PDFParser.sort_by PDFParser.part_key (PDFParser.fix_missing_parts_unsorted text found).
Proof. intros. reflexivity. Qed.

Lemma find_part_vii_sort : forall text found,
  PDFParser.find_part_vii_specifically text found =
  PDFParser.sort_by PDFParser.part_key (PDFParser.find_part_vii_unsorted text found).
Proof. intros. reflexivity. Qed.

Section VIIStep.
Variable md : str.

(** The last step of [extract_constitution_structure]. *)
Let vii_step (X : list PDFParser.PartEntry) : list PDFParser.PartEntry :=
  if PDFParser.mem_str PDFParser.vii_number (map PDFParser.p_number X) then X
  else PDFParser.find_part_vii_specifically md X.

Lemma vii_step_nodup : forall X,
  NoDup (map PDFParser.p_number X) -> NoDup (map PDFParser.p_number (vii_step X)).
Proof.
  intros X H. unfold vii_step.
  destruct (PDFParser.mem_str PDFParser.vii_number (map PDFParser.p_number X)) eqn:E; [exact H|].
  apply mem_str_false in E.
  destruct (find_part_vii_entry md X) as [e [He [Hp _]]].
  apply (Permutation_NoDup (Permutation_sym (Permutation_map PDFParser.p_number Hp))).
  simpl. rewrite He. constructor; assumption.
Qed.

Lemma vii_step_keep : forall X p, In p X -> In p (vii_step X).
Proof.
  intros X p H. unfold vii_step.
  destruct (PDFParser.mem_str PDFParser.vii_number (map PDFParser.p_number X)); [exact H|].
  destruct (find_part_vii_entry md X) as [e [_ [Hp _]]].
  apply (Permutation_in p (Permutation_sym Hp)). right. exact H.
Qed.

Lemma vii_step_has : forall X, In PDFParser.vii_number (map PDFParser.p_number (vii_step X)).
Proof.
  intros X. unfold vii_step.
  destruct (PDFParser.mem_str PDFParser.vii_number (map PDFParser.p_number X)) eqn:E.
  - apply mem_str_spec. exact E.
  - destruct (find_part_vii_entry md X) as [e [He [Hp _]]].
    apply (Permutation_in _ (Permutation_sym (Permutation_map PDFParser.p_number Hp))).
    left. exact He.
Qed.

Lemma vii_step_placeholder : forall X,
  ~ In PDFParser.vii_number (map PDFParser.p_number X) ->
  PDFParser.first_search PDFParser.part_vii_patterns md = None ->
  In PDFParser.vii_placeholder (vii_step X).
Proof.
  intros X H1 H2. unfold vii_step.
  apply mem_str_false in H1. rewrite H1.
  destruct (find_part_vii_entry md X) as [e [_ [Hp He]]].
  rewrite <- (He H2). apply (Permutation_in _ (Permutation_sym Hp)). left. reflexivity.
Qed.

End VIIStep.

(** * The fallback patterns of [_fix_missing_parts] on a line "PART III - FREEDOMS" *)

Lemma fallback_iii_here : forall q post, prev_word q = false ->
  match_here (seqs [RWordB; word true "PART"; plus sp; seqs (map (lit true) (of_string "III")); RWordB])
    q (of_string "PART III - FREEDOMS" ++ post) = Some (8, []).
Proof.
  intros q post H. unfold match_here. simpl. rewrite H. simpl. reflexivity.
Qed.
Lemma scan_hd_match : forall r p rs off k g,
  match_here r p rs = Some (k, g) -> hd_error (scan r p rs off 0) = Some (MObj off (off + k) g).
Proof. intros r p [|c t] off k g H; simpl; rewrite H; reflexivity. Qed.

Lemma fallback_iii_search : forall pre post : str,
  (forall r m, hd_error (PDFParser.fallback_patterns (of_string "III")) = Some r ->
     search r (pre ++ of_string "PART III - FREEDOMS" ++ post) = Some m -> length pre <= mstart m) ->
  prev_word (after None pre) = false ->
  PDFParser.first_search (PDFParser.fallback_patterns (of_string "III"))
    (pre ++ of_string "PART III - FREEDOMS" ++ post)
  = Some (MObj (length pre) (length pre + 8) []).
Proof.
  intros pre post Hp Hw.
  set (P1 := seqs [RWordB; word true "PART"; plus sp; seqs (map (lit true) (of_string "III")); RWordB]).
  assert (Hn : no_match_in P1 None pre (of_string "PART III - FREEDOMS" ++ post)).
  { apply (scan_head_no_match _ _ _ _ 0). cbn [Nat.add].
    destruct (scan P1 None (pre ++ of_string "PART III - FREEDOMS" ++ post) 0 0) as [|m ms] eqn:E;
      [exact I|].
    apply (Hp P1 m eq_refl). unfold search, finditer. rewrite E. reflexivity. }
  change (PDFParser.first_search (PDFParser.fallback_patterns (of_string "III"))
            (pre ++ of_string "PART III - FREEDOMS" ++ post))
    with (match search P1 (pre ++ of_string "PART III - FREEDOMS" ++ post) with
          | Some m => Some m
          | None => PDFParser.first_search (tl (PDFParser.fallback_patterns (of_string "III")))
                      (pre ++ of_string "PART III - FREEDOMS" ++ post)
          end).
  unfold search, finditer. rewrite (scan_skip_prefix _ _ _ _ _ Hn).
  rewrite (scan_hd_match _ _ _ _ 8 [] (fallback_iii_here _ post Hw)). reflexivity.
Qed.
Lemma skipn_length_app : forall {A} (pre x : list A) k, skipn (length pre + k) (pre ++ x) = skipn k x.
Proof. intros A pre. induction pre as [|a pre IH]; intros x k; simpl; auto. Qed.

Lemma skipn_length_app0 : forall {A} (pre x : list A), skipn (length pre) (pre ++ x) = x.
Proof. intros A pre x. pose proof (skipn_length_app pre x 0) as H. rewrite Nat.add_0_r in H. exact H. Qed.

Lemma recovered_iii : forall pre post : str, (post = [] \/ exists t, post = nl :: t) ->
  PDFParser.recovered_entry (pre ++ of_string "PART III - FREEDOMS" ++ post) (of_string "III")
    (MObj (length pre) (length pre + 8) [])
  = PDFParser.mkPartEntry (of_string "III") (of_string "FREEDOMS") (Z.of_nat (length pre))
      (of_string "PART III").
Proof.
  intros pre post Hpost. unfold PDFParser.recovered_entry, str_find_nl, group0, slice. cbn [mstart mend].
  rewrite skipn_length_app, skipn_length_app0.
  replace (length pre + 8 - length pre) with 8 by lia.
  destruct Hpost as [->|[t ->]].
  - simpl. replace (length pre + 8 + 100 - (length pre + 8)) with 100 by lia. reflexivity.
  - assert (E : find_nl_from (skipn 8 (of_string "PART III - FREEDOMS" ++ nl :: t)) (length pre + 8)
                = Z.of_nat (length pre + 19)) by (simpl; f_equal; lia).
    rewrite E. replace (Z.of_nat (length pre + 19) =? -1)%Z with false by (symmetry; apply Z.eqb_neq; lia).
    rewrite Nat2Z.id. replace (length pre + 19 - (length pre + 8)) with 11 by lia. reflexivity.
Qed.
Lemma fix_insert_pos_shift : forall ei l i d,
  PDFParser.fix_insert_pos ei (i + d) l = PDFParser.fix_insert_pos ei i l + d.
Proof.
  intros ei l. induction l as [|p l IH]; intros i d; cbn [PDFParser.fix_insert_pos]; [reflexivity|].
  destruct (PDFParser.index_of (PDFParser.p_number p) PDFParser.expected_parts) as [j|];
    [destruct (ei <? j); [reflexivity|]|];
    rewrite <- (IH (S i) d); f_equal; lia.
Qed.

Lemma fix_insert_pos_app : forall ei A R i,
  Forall (fun p => exists j, PDFParser.index_of (PDFParser.p_number p) PDFParser.expected_parts = Some j
                             /\ j <= ei) A ->
  PDFParser.fix_insert_pos ei i (A ++ R) = length A + PDFParser.fix_insert_pos ei i R.
Proof.
  intros ei A R i H. revert i. induction H as [|p A [j [Ej Hj]] _ IH]; intros i;
    cbn [app length PDFParser.fix_insert_pos]; [reflexivity|].
  rewrite Ej. replace (ei <? j) with false by (symmetry; apply Nat.ltb_ge; lia).
  rewrite IH. replace (S i) with (i + 1) by lia. rewrite fix_insert_pos_shift. lia.
Qed.

Lemma list_insert_app : forall {X} (A R : list X) j x,
  PDFParser.list_insert (length A + j) x (A ++ R) = A ++ PDFParser.list_insert j x R.
Proof.
  intros X A. induction A as [|a A IH]; intros R j x; [reflexivity|].
  unfold PDFParser.list_insert in *. simpl. rewrite IH. reflexivity.
Qed.

Lemma part_key_index : forall p i,
  PDFParser.index_of (PDFParser.p_number p) PDFParser.expected_parts = Some i -> PDFParser.part_key p = i.
Proof. intros p i H. unfold PDFParser.part_key. rewrite H. reflexivity. Qed.

Lemma fix_fold_tail : forall text es A R nums,
  Forall (fun p => exists j, PDFParser.index_of (PDFParser.p_number p) PDFParser.expected_parts = Some j
                             /\ j < length A) A ->
  Forall (fun e => exists i, PDFParser.index_of e PDFParser.expected_parts = Some i /\ length A <= i) es ->
  Forall (fun p => length A <= PDFParser.part_key p) R ->
  exists R', fst (fold_left (PDFParser.fix_step text) es (A ++ R, nums)) = A ++ R' /\
    Forall (fun p => length A <= PDFParser.part_key p) R'.
Proof.
  intros text es A R nums HA Hes. revert R nums.
  induction Hes as [|e es [i [Ei Hi]] _ IH]; intros R nums HR; [exists R; split; [reflexivity|exact HR]|].
  cbn [fold_left].
  destruct (PDFParser.fix_step text (A ++ R, nums) e) as [l' nums'] eqn:Hs.
  unfold PDFParser.fix_step in Hs. rewrite Ei in Hs.
  destruct (PDFParser.mem_str e nums); [injection Hs as <- _; apply IH; exact HR|].
  destruct (PDFParser.first_search (PDFParser.fallback_patterns e) text) as [m|];
    [|injection Hs as <- _; apply IH; exact HR].
  injection Hs as <- _.
  rewrite fix_insert_pos_app
    by (eapply Forall_impl; [|exact HA]; intros p [j [Ej Hj]]; exists j; split; [exact Ej|lia]).
  rewrite list_insert_app. apply IH.
  apply (Permutation_Forall (Permutation_sym (list_insert_perm _ _ _))).
  constructor; [|exact HR].
  rewrite (part_key_index _ i); [exact Hi|]. rewrite p_number_recovered. exact Ei.
Qed.

Lemma insert_by_front : forall {X} (k : X -> nat) x l,
  (forall y, In y l -> k x <= k y) -> PDFParser.insert_by k x l = x :: l.
Proof.
  intros X k x [|y l] H; [reflexivity|]. simpl.
  replace (k x <=? k y) with true by (symmetry; apply Nat.leb_le; apply H; left; reflexivity).
  reflexivity.
Qed.

Lemma sort_by_prefix : forall {X} (k : X -> nat) A R,
  StronglySorted (fun a b => k a < k b) A ->
  (forall a y, In a A -> In y R -> k a < k y) ->
  PDFParser.sort_by k (A ++ R) = A ++ PDFParser.sort_by k R.
Proof.
  intros X k A R HA. induction HA as [|a A HA IH Ha]; intros H; [reflexivity|].
  simpl. rewrite IH by (intros b y Hb Hy; apply H; [right|]; assumption).
  rewrite insert_by_front; [reflexivity|].
  intros y Hy. apply in_app_or in Hy as [Hy|Hy].
  - apply Nat.lt_le_incl. rewrite Forall_forall in Ha. apply Ha. exact Hy.
  - apply Nat.lt_le_incl. apply H; [left; reflexivity|].
    apply (Permutation_in _ (sort_by_perm k R)). exact Hy.
Qed.
Lemma expected_parts_split :
  PDFParser.expected_parts =
  map of_string ["I"; "II"; "III"; "IV"; "V"]%string ++
  map of_string ["VI"; "VII"; "VIII"; "IX"; "X"; "XI"; "XII"; "XIII"; "XIV"; "XV"; "XVI";
                 "XVII"; "XVIII"; "XIX"; "XX"; "XXI"; "XXII"]%string.
Proof. reflexivity. Qed.

Lemma part_iii_repair : forall (pre post : str) t1 z1 l1 t2 z2 l2 t4 z4 l4 t5 z5 l5,
  (forall r m, hd_error (PDFParser.fallback_patterns (of_string "III")) = Some r ->
     search r (pre ++ of_string "PART III - FREEDOMS" ++ post) = Some m -> length pre <= mstart m) ->
  (pre = [] \/ exists pre', pre = pre' ++ [nl]) ->
  (post = [] \/ exists t, post = nl :: t) ->
  exists rest,
    PDFParser.fix_missing_parts (pre ++ of_string "PART III - FREEDOMS" ++ post)
      [PDFParser.mkPartEntry (of_string "I") t1 z1 l1; PDFParser.mkPartEntry (of_string "II") t2 z2 l2;
       PDFParser.mkPartEntry (of_string "IV") t4 z4 l4; PDFParser.mkPartEntry (of_string "V") t5 z5 l5]
    = [PDFParser.mkPartEntry (of_string "I") t1 z1 l1; PDFParser.mkPartEntry (of_string "II") t2 z2 l2;
       PDFParser.mkPartEntry (of_string "III") (of_string "FREEDOMS") (Z.of_nat (length pre))
         (of_string "PART III");
       PDFParser.mkPartEntry (of_string "IV") t4 z4 l4; PDFParser.mkPartEntry (of_string "V") t5 z5 l5]
      ++ rest.
Proof.
  intros pre post t1 z1 l1 t2 z2 l2 t4 z4 l4 t5 z5 l5 Hp Hpre Hpost.
  assert (Hw : prev_word (after None pre) = false)
    by (destruct Hpre as [->|[pre' ->]]; [reflexivity|rewrite after_snoc; reflexivity]).
  pose proof (fallback_iii_search pre post Hp Hw) as Hs.
  rewrite fix_missing_parts_eq, expected_parts_split, fold_left_app.
  match goal with
  | |- context [fold_left _ (map of_string ["I"; "II"; "III"; "IV"; "V"]%string) (?F, ?N)] =>
      assert (E5 : fold_left (PDFParser.fix_step (pre ++ of_string "PART III - FREEDOMS" ++ post))
                     (map of_string ["I"; "II"; "III"; "IV"; "V"]%string) (F, N)
                   = (firstn 2 F ++ PDFParser.mkPartEntry (of_string "III") (of_string "FREEDOMS")
                        (Z.of_nat (length pre)) (of_string "PART III") :: skipn 2 F,
                      N ++ [of_string "III"]))
  end.
  { cbn [map fold_left].
    assert (S1 : forall st e, PDFParser.mem_str e (snd st) = true ->
               PDFParser.fix_step (pre ++ of_string "PART III - FREEDOMS" ++ post) st e = st)
      by (intros [l n] e H; unfold PDFParser.fix_step; cbn [snd] in H; rewrite H; reflexivity).
    rewrite (S1 _ (of_string "I")) by reflexivity.
    rewrite (S1 _ (of_string "II")) by reflexivity.
    assert (S3 : forall st e m,
               PDFParser.first_search (PDFParser.fallback_patterns e)
                 (pre ++ of_string "PART III - FREEDOMS" ++ post) = Some m ->
               PDFParser.mem_str e (snd st) = false ->
               PDFParser.fix_step (pre ++ of_string "PART III - FREEDOMS" ++ post) st e =
               (PDFParser.list_insert
                  (PDFParser.fix_insert_pos
                     match PDFParser.index_of e PDFParser.expected_parts with Some i => i | None => 0 end
                     0 (fst st))
                  (PDFParser.recovered_entry (pre ++ of_string "PART III - FREEDOMS" ++ post) e m)
                  (fst st), snd st ++ [e]))
      by (intros [l n] e m H2 H1; unfold PDFParser.fix_step; cbn [snd] in H1; rewrite H1, H2; reflexivity).
    erewrite (S3 _ (of_string "III") _ Hs) by reflexivity.
    rewrite (recovered_iii pre post Hpost).
    rewrite (S1 _ (of_string "IV")) by reflexivity.
    rewrite (S1 _ (of_string "V")) by reflexivity.
    reflexivity. }
  rewrite E5. cbn [firstn skipn app].
  match goal with
  | |- context [fold_left ?f ?es (?A, ?N)] =>
      pose proof (fix_fold_tail (pre ++ of_string "PART III - FREEDOMS" ++ post) es A [] N) as T
  end.
  specialize (T ltac:(repeat apply Forall_cons; try apply Forall_nil; (eexists; split; [reflexivity|cbn; lia]))).
  specialize (T ltac:(repeat apply Forall_cons; try apply Forall_nil; (eexists; split; [reflexivity|cbn; lia]))).
  specialize (T (Forall_nil _)).
  destruct T as [R' [ER HR]].

  rewrite app_nil_r in ER. rewrite ER.
  exists (PDFParser.sort_by PDFParser.part_key R'). rewrite (sort_by_prefix PDFParser.part_key _ R'); [reflexivity| |].
  - repeat constructor; vm_compute; lia.
  - intros a y Ha Hy. rewrite Forall_forall in HR. specialize (HR y Hy). cbn [length] in HR.
    enough (PDFParser.part_key a < 5) by lia.
    repeat (destruct Ha as [<-|Ha]; [vm_compute; lia|]). destruct Ha.
Qed.

Lemma fix_fold_recovers : forall text e m es l nums,
  In e es -> ~ In e nums ->
  PDFParser.first_search (PDFParser.fallback_patterns e) text = Some m ->
  In (PDFParser.recovered_entry text e m) (fst (fold_left (PDFParser.fix_step text) es (l, nums))).
Proof.
  intros text e m es. induction es as [|e' es IH]; intros l nums Hin Hn Hm; [destruct Hin|].
  cbn [fold_left].
  destruct (PDFParser.fix_step text (l, nums) e') as [l' nums'] eqn:Hs.
  destruct (list_eq_dec N.eq_dec e' e) as [<-|Hne].
  - unfold PDFParser.fix_step in Hs. apply mem_str_false in Hn. rewrite Hn, Hm in Hs.
    injection Hs as <- _. apply fix_fold_keep.
    apply (Permutation_in _ (Permutation_sym (list_insert_perm _ _ _))). left. reflexivity.
  - destruct Hin as [Heq|Hin]; [contradiction|].
    apply (IH l' nums' Hin); [|exact Hm].
    unfold PDFParser.fix_step in Hs.
    destruct (PDFParser.mem_str e' nums); [injection Hs as _ <-; exact Hn|].
    destruct (PDFParser.first_search (PDFParser.fallback_patterns e') text) as [m'|];
      [|injection Hs as _ <-; exact Hn].
    injection Hs as _ <-. intros H. apply in_app_or in H as [H|[H|[]]]; [exact (Hn H)|].
    exact (Hne H).
Qed.

Lemma fix_missing_parts_recovers : forall text found e m,
  In e PDFParser.expected_parts -> ~ In e (map PDFParser.p_number found) ->
  PDFParser.first_search (PDFParser.fallback_patterns e) text = Some m ->
  In (PDFParser.recovered_entry text e m) (PDFParser.fix_missing_parts text found).
Proof.
  intros text found e m H1 H2 H3. rewrite fix_missing_parts_eq.
  apply (Permutation_in _ (Permutation_sym (sort_by_perm PDFParser.part_key _))).
  apply fix_fold_recovers; assumption.
Qed.

(** ** Subsection markers at the start of a line *)

Lemma run_seq_head : forall a b s s1 s2,
  (exists l1, run a s = s1 :: l1) -> (exists l2, run b s1 = s2 :: l2) ->
  exists l, run (RSeq a b) s = s2 :: l.
Proof.
  intros a b s s1 s2 [l1 H1] [l2 H2]. simpl. rewrite H1. simpl. rewrite H2.
  eexists. reflexivity.
Qed.

Lemma star_iter_S : forall step g fuel s,
  star_iter step g (S fuel) s =
  (let more := flat_map (fun s' => if pos s <? pos s' then star_iter step g fuel s' else []) (step s) in
   if g then more ++ [s] else s :: more).
Proof. reflexivity. Qed.

Lemma star_class_head : forall f x r p n caps fuel,
  Forall (fun ch => f ch = true) x ->
  match r with c :: _ => f c = false | [] => True end ->
  length x < fuel ->
  exists l, star_iter (run (RClass f)) true fuel (MState p n (x ++ r) caps)
            = MState (after p x) (n + length x) r caps :: l.
Proof.
  intros f x. induction x as [|ch x IH]; intros r p n caps fuel Hx Hr Hf;
    (destruct fuel as [|fuel]; [simpl in Hf; lia|]); rewrite star_iter_S; cbv zeta.
  - assert (E : run (RClass f) (MState p n ([] ++ r) caps) = []).
    { destruct r as [|c r]; [reflexivity|]. simpl. rewrite Hr. reflexivity. }
    rewrite E. rewrite Nat.add_0_r. exists []. reflexivity.
  - inversion Hx as [|? ? Hch Hx']; subst.
    assert (E : run (RClass f) (MState p n ((ch :: x) ++ r) caps) = [MState (Some ch) (S n) (x ++ r) caps]).
    { simpl. rewrite Hch. reflexivity. }
    rewrite E. cbn [flat_map pos]. rewrite (proj2 (Nat.ltb_lt n (S n)) (Nat.lt_succ_diag_r n)).
    destruct (IH r (Some ch) (S n) caps fuel Hx' Hr) as [l Hl]; [simpl in Hf; lia|].
    rewrite Hl. replace (S n + length x) with (n + length (ch :: x)) by (simpl; lia).
    eexists. reflexivity.
Qed.

Lemma star_class_run : forall f x r p n caps,
  Forall (fun ch => f ch = true) x ->
  match r with c :: _ => f c = false | [] => True end ->
  exists l, run (RStar true (RClass f)) (MState p n (x ++ r) caps)
            = MState (after p x) (n + length x) r caps :: l.
Proof.
  intros f x r p n caps Hx Hr. apply star_class_head; [exact Hx|exact Hr|].
  cbn [rest]. rewrite length_app. lia.
Qed.

Lemma run_class_yes : forall f c t p n g, f c = true ->
  run (RClass f) (MState p n (c :: t) g) = [MState (Some c) (S n) t g].
Proof. intros f c t p n g H. simpl. rewrite H. reflexivity. Qed.

Lemma run_class_no : forall f c t p n g, f c = false ->
  run (RClass f) (MState p n (c :: t) g) = [].
Proof. intros f c t p n g H. simpl. rewrite H. reflexivity. Qed.

Lemma run_bol_ok : forall q n rs g, match q with None => True | Some c => c = nl end ->
  run (RBol true) (MState q n rs g) = [MState q n rs g].
Proof. intros [c|] n rs g H; simpl; [subst c|]; reflexivity. Qed.

Lemma run_eol_ok : forall p n tl g, match tl with [] => True | c :: _ => c = nl end ->
  run (REol true) (MState p n tl g) = [MState p n tl g].
Proof. intros p n [|c t] g H; simpl; [|subst c]; reflexivity. Qed.

Lemma run_seq_eq : forall a b s, run (RSeq a b) s = flat_map (run b) (run a s).
Proof. reflexivity. Qed.

Lemma run_group_eq : forall n r s,
  run (RGroup n r) s = map (fun s' => MState (prev s') (pos s') (rest s')
                                      ((n, firstn (pos s' - pos s) (rest s)) :: caps s')) (run r s).
Proof. reflexivity. Qed.

Lemma run_group_star_dot : forall p n x tl g,
  Forall (fun c => c <> nl) x ->
  match tl with [] => True | c :: _ => c = nl end ->
  exists L, run (RGroup 2 (star dot)) (MState p n (x ++ tl) g)
            = MState (after p x) (n + length x) tl ((2, x) :: g) :: L.
Proof.
  intros p n x tl g Hx Hr.
  destruct (star_class_run (fun c => negb (c =? nl)%N) x tl p n g) as [L HL].
  - eapply Forall_impl; [|exact Hx]. intros c Hc. cbv beta.
    destruct (N.eqb_spec c nl); [contradiction|reflexivity].
  - destruct tl as [|c r]; [exact I|]. subst c. reflexivity.
  - exists (map (fun s' => MState (prev s') (pos s') (rest s')
                 ((2, firstn (pos s' - n) (x ++ tl)) :: caps s')) L).
    rewrite run_group_eq. unfold star, dot. rewrite HL. cbn [map pos prev caps]. cbn [rest].
    replace (n + length x - n) with (length x) by lia.
    rewrite firstn_app, firstn_all, Nat.sub_diag, firstn_O, app_nil_r. reflexivity.
Qed.

Lemma subsection_match_here : forall q l x tl,
  match q with None => True | Some c => c = nl end ->
  ((97 <=? l) && (l <=? 122))%N = true -> is_digit l = false ->
  match x with cx :: _ => is_space cx = false | [] => False end ->
  Forall (fun c => c <> nl) x ->
  match tl with [] => True | c :: _ => c = nl end ->
  match_here DocumentParser.subsection_pattern q ([40; l; 41; 32]%N ++ x ++ tl)
  = Some (4 + length x, [(2, x); (1, [l])]).
Proof.
  intros q l x tl Hq Hl Hd Hx Hn Hr.
  assert (H : exists L, run DocumentParser.subsection_pattern (MState q 0 ([40; l; 41; 32]%N ++ x ++ tl) [])
           = MState (after (Some 32%N) x) (4 + length x) tl [(2, x); (1, [l])] :: L).
  { unfold DocumentParser.subsection_pattern, seqs. cbn [fold_right app].
    eapply run_seq_head; [eexists; apply run_bol_ok; exact Hq|].
    eapply run_seq_head.
    { destruct (star_class_run is_space [] (40%N :: l :: 41%N :: 32%N :: x ++ tl) q 0 []
                  (Forall_nil _) eq_refl) as [L HL]. exists L. exact HL. }
    eapply run_seq_head; [eexists; apply run_class_yes; reflexivity|].
    eapply run_seq_head.
    { eexists. cbn [run]. unfold lower_az. rewrite (run_class_yes _ l _ _ _ _ Hl).
      unfold plus. rewrite run_seq_eq. unfold dig. rewrite (run_class_no _ l _ _ _ _ Hd).
      cbn [flat_map app map]. reflexivity. }
    eapply run_seq_head; [eexists; apply run_class_yes; reflexivity|].
    eapply run_seq_head.
    { unfold plus. rewrite run_seq_eq. unfold sp. rewrite (run_class_yes _ 32%N _ _ _ _ eq_refl).
      cbn [flat_map].
      destruct (star_class_run is_space [] (x ++ tl) (Some 32%N) 4 [(1, [l])] (Forall_nil _))
        as [L HL]; [destruct x; [contradiction|exact Hx]|].
      cbn [app] in HL. cbn [pos rest caps prev length Nat.add Nat.sub firstn]. rewrite app_nil_r. exists L. exact HL. }
    eapply run_seq_head.
    { destruct (run_group_star_dot (Some 32%N) 4 x tl [(1, [l])] Hn Hr)
        as [L HL]. exists L. exact HL. }
    eapply run_seq_head.
    { eexists. apply run_eol_ok. exact Hr. }
    eexists. reflexivity. }
  destruct H as [L HL]. unfold match_here. rewrite HL. reflexivity.
Qed.

Lemma run_star_eq : forall g r s,
  run (RStar g r) s = star_iter (run r) g (S (length (rest s))) s.
Proof. reflexivity. Qed.

Lemma subsection_bol_fail : forall p rs, bol_prev p = false ->
  match_here DocumentParser.subsection_pattern p rs = None.
Proof.
  intros [q|] rs H; [|discriminate H]. cbn [bol_prev] in H.
  unfold match_here, DocumentParser.subsection_pattern, seqs. cbn [fold_right].
  rewrite run_seq_eq. cbn [run prev andb]. rewrite H. reflexivity.
Qed.

Lemma scan_skip_n : forall r pre post p off,
  scan r p (pre ++ post) off (length pre) = scan r (after p pre) post (off + length pre) 0.
Proof.
  intros r pre. induction pre as [|c t IH]; intros post p off.
  - cbn [app length after]. rewrite Nat.add_0_r. reflexivity.
  - cbn [app length after scan]. rewrite IH. f_equal. lia.
Qed.

Lemma scan_match_step : forall r p c t off k g,
  match_here r p (c :: t) = Some (k, g) ->
  scan r p (c :: t) off 0 = MObj off (off + k) g :: scan r (Some c) t (S off) (k - 1).
Proof. intros r p c t off k g H. cbn [scan]. rewrite H. reflexivity. Qed.

Lemma scan_none_step : forall r p c t off,
  match_here r p (c :: t) = None ->
  scan r p (c :: t) off 0 = scan r (Some c) t (S off) 0.
Proof. intros r p c t off H. cbn [scan]. rewrite H. reflexivity. Qed.

Lemma scan_match_skip : forall r p c pre post off g,
  match_here r p (c :: pre ++ post) = Some (S (length pre), g) ->
  scan r p (c :: pre ++ post) off 0
  = MObj off (off + S (length pre)) g :: scan r (after (Some c) pre) post (S off + length pre) 0.
Proof.
  intros r p c pre post off g H. rewrite (scan_match_step _ _ _ _ _ _ _ H).
  rewrite Nat.sub_succ, Nat.sub_0_r, scan_skip_n. reflexivity.
Qed.

Lemma subsection_end_fail : forall p,
  match_here DocumentParser.subsection_pattern p [] = None.
Proof.
  intros p. destruct (bol_prev p) eqn:B; [|apply subsection_bol_fail; exact B].
  destruct p as [q|]; [cbn [bol_prev] in B; apply N.eqb_eq in B; subst q|]; vm_compute; reflexivity.
Qed.

Lemma subsection_match_bol : forall p rs k g,
  match_here DocumentParser.subsection_pattern p rs = Some (k, g) -> bol_prev p = true.
Proof.
  intros p rs k g M. destruct (bol_prev p) eqn:B; [reflexivity|].
  rewrite (subsection_bol_fail p rs B) in M. discriminate.
Qed.

(** Every match of the subsection pattern starts at the start of a line. *)
Lemma scan_subsection_bol : forall rs p off skip u,
  In u (scan DocumentParser.subsection_pattern p rs off skip) ->
  exists pre post, rs = pre ++ post /\ mstart u = off + length pre /\ bol_prev (after p pre) = true.
Proof.
  induction rs as [|c t IH]; intros p off skip u H.
  - destruct skip as [|sk]; [|destruct H]. cbn [scan] in H.
    destruct (match_here DocumentParser.subsection_pattern p []) as [[k g]|] eqn:M; [|destruct H].
    destruct H as [<-|[]]. exists [], []. split; [reflexivity|]. split; [cbn; lia|].
    exact (subsection_match_bol _ _ _ _ M).
  - assert (Tl : forall off' sk', In u (scan DocumentParser.subsection_pattern (Some c) t off' sk') ->
                   off' = S off ->
                   exists pre post, c :: t = pre ++ post /\ mstart u = off + length pre /\
                                    bol_prev (after p pre) = true).
    { intros off' sk' H' ->. destruct (IH _ _ _ _ H') as [pre [post [E [Hs Hb]]]].
      exists (c :: pre), post. split; [rewrite E; reflexivity|]. split; [cbn [length]; lia|]. exact Hb. }
    destruct skip as [|sk]; cbn [scan] in H; [|exact (Tl _ _ H eq_refl)].
    destruct (match_here DocumentParser.subsection_pattern p (c :: t)) as [[k g]|] eqn:M;
      [|exact (Tl _ _ H eq_refl)].
    destruct H as [<-|H]; [|exact (Tl _ _ H eq_refl)].
    exists [], (c :: t). split; [reflexivity|]. split; [cbn; lia|].
    exact (subsection_match_bol _ _ _ _ M).
Qed.

Lemma bol_after_none : forall pre : str, bol_prev (after None pre) = true ->
  pre = [] \/ exists l, pre = l ++ [nl].
Proof.
  intros pre. induction pre as [|c t _] using rev_ind; intros H; [left; reflexivity|].
  right. rewrite after_snoc in H. cbn [bol_prev] in H. apply N.eqb_eq in H. subst c.
  exists t. reflexivity.
Qed.

Lemma no_match_in_app : forall r (a b : str) p post,
  no_match_in r p (a ++ b) post -> no_match_in r p a (b ++ post) /\ no_match_in r (after p a) b post.
Proof.
  intros r a. induction a as [|c t IH]; intros b p post H; cbn [app after no_match_in] in *.
  - split; [exact I|exact H].
  - destruct H as [H1 H2]. destruct (IH b (Some c) post H2) as [H3 H4].
    rewrite <- app_assoc in H1. split; [split; assumption|exact H4].
Qed.

Lemma split_at_nl : forall x : str, exists x1 x2, x = x1 ++ x2 /\ Forall (fun c => c <> nl) x1 /\
  match x2 with [] => True | c :: _ => c = nl end.
Proof.
  induction x as [|c t IH].
  - exists [], []. split; [reflexivity|]. split; [constructor|exact I].
  - destruct (N.eq_dec c nl) as [->|Hc].
    + exists [], (nl :: t). split; [reflexivity|]. split; [constructor|reflexivity].
    + destruct IH as [x1 [x2 [E [H1 H2]]]]. exists (c :: x1), x2.
      rewrite E. split; [reflexivity|]. split; [constructor; assumption|exact H2].
Qed.

Lemma first_line_plain : forall x1 x2 : str,
  match x1 ++ x2 with cx :: _ => is_space cx = false | [] => False end ->
  match x2 with [] => True | c :: _ => c = nl end ->
  match x1 with cx :: _ => is_space cx = false | [] => False end.
Proof.
  intros [|c x1] x2 H1 H2; [|exact H1]. cbn [app] in H1.
  destruct x2 as [|d x2]; [exact H1|]. subst d. discriminate H1.
Qed.

(** The matches of the subsection pattern in [lead], a line "(a) x" and a line
    "(b) y", when no match starts in [lead], in [x] or [y] after their first line,
    or at the line end before "(b)". *)
Lemma subsections_finditer_lines : forall lead x y : str,
  no_match_in DocumentParser.subsection_pattern None lead
    (of_string "(a) " ++ x ++ nl :: of_string "(b) " ++ y) ->
  bol_prev (after None lead) = true ->
  match x with cx :: _ => is_space cx = false | [] => False end ->
  no_match_in DocumentParser.subsection_pattern (Some 32%N) (x ++ [nl]) (of_string "(b) " ++ y) ->
  match y with cy :: _ => is_space cy = false | [] => False end ->
  no_match_in DocumentParser.subsection_pattern (Some 32%N) y [] ->
  map (fun u => (mstart u, grp u 1))
    (finditer DocumentParser.subsection_pattern (lead ++ of_string "(a) " ++ x ++ nl :: of_string "(b) " ++ y))
  = [(length lead, [97%N]); (length lead + 5 + length x, [98%N])].
Proof.
  intros lead x y Hl Hb Hx Hnx Hy Hny.
  destruct (split_at_nl x) as [x1 [x2 [-> [Hx1 Hx2]]]].
  destruct (split_at_nl y) as [y1 [y2 [-> [Hy1 Hy2]]]].
  pose proof (first_line_plain x1 x2 Hx Hx2) as Hx1'.
  pose proof (first_line_plain y1 y2 Hy Hy2) as Hy1'.
  rewrite <- app_assoc in Hnx. apply no_match_in_app in Hnx as [_ Hnx].
  apply no_match_in_app in Hny as [_ Hny].
  unfold finditer. rewrite (scan_skip_prefix _ _ _ _ _ Hl).
  assert (Hq : match after None lead with None => True | Some c => c = nl end).
  { destruct (after None lead) as [c|]; [|exact I]. apply N.eqb_eq. exact Hb. }
  rewrite <- (app_assoc x1 x2).
  rewrite <- (app_nil_r y2).
  change (of_string "(a) " ++ x1 ++ x2 ++ nl :: of_string "(b) " ++ y1 ++ y2 ++ [])
    with (40%N :: (97%N :: 41%N :: 32%N :: x1) ++
          (x2 ++ nl :: 40%N :: 98%N :: 41%N :: 32%N :: y1 ++ y2 ++ [])).
  rewrite (scan_match_skip _ _ 40%N (97%N :: 41%N :: 32%N :: x1)
             (x2 ++ nl :: 40%N :: 98%N :: 41%N :: 32%N :: y1 ++ y2 ++ []) _ [(2, x1); (1, [97%N])]).
  2: { apply (subsection_match_here (after None lead) 97%N x1); try reflexivity; try assumption.
       destruct x2 as [|d x2]; [reflexivity|exact Hx2]. }
  replace (x2 ++ nl :: 40%N :: 98%N :: 41%N :: 32%N :: y1 ++ y2 ++ [])
    with ((x2 ++ [nl]) ++ (of_string "(b) " ++ y1 ++ y2 ++ []))
    by (rewrite <- app_assoc; reflexivity).
  rewrite <- (app_nil_r y2) in Hnx.
  cbn [after]. rewrite (scan_skip_prefix _ _ _ _ _ Hnx). rewrite after_snoc.
  change (of_string "(b) " ++ y1 ++ y2 ++ [])
    with (40%N :: (98%N :: 41%N :: 32%N :: y1) ++ (y2 ++ [])).
  rewrite (scan_match_skip _ _ 40%N (98%N :: 41%N :: 32%N :: y1) (y2 ++ []) _ [(2, y1); (1, [98%N])]).
  2: { apply (subsection_match_here (Some nl) 98%N y1); try reflexivity; try assumption.
       destruct y2 as [|d y2]; [exact I|exact Hy2]. }
  cbn [after]. rewrite (scan_skip_prefix _ _ _ _ _ Hny).
  cbn [scan]. rewrite subsection_end_fail.
  cbn [map mstart]. rewrite !length_app. cbn [length grp group find mgroups fst snd Nat.eqb option_map].
  apply f_equal2; [apply f_equal2; [lia|reflexivity]|].
  apply f_equal2; [|reflexivity]. apply f_equal2; [lia|reflexivity].
Qed.

(** * The claims *)

(** [parse] keeps the chapters when the chapter pattern matches somewhere
    in the text, otherwise the articles when the article pattern matches,
    and otherwise the sections. *)
Lemma parse_fallback : forall text md,
  let t := structured_text text in
  let d := DocumentParser.parse text md in
  (finditer DocumentParser.chapter_pattern text <> [] ->
     chapters d = DocumentParser.extract_chapters t /\ chapters d <> [] /\
     articles d = [] /\ sections d = []) /\
  (finditer DocumentParser.chapter_pattern text = [] ->
     chapters d = [] /\
     (finditer DocumentParser.article_pattern text <> [] ->
        articles d = DocumentParser.extract_articles t /\ articles d <> [] /\ sections d = []) /\
     (finditer DocumentParser.article_pattern text = [] ->
        articles d = [] /\ sections d = DocumentParser.extract_sections t)).
Proof.
  intros text md. cbv zeta.
  destruct (parse_shape text md) as [_ [_ [Hc [Ha Hs]]]].
  assert (Lc : length (DocumentParser.extract_chapters (structured_text text))
               = length (finditer DocumentParser.chapter_pattern text)).
  { rewrite extract_chapters_length. apply finditer_structured_length. simpl; auto. }
  assert (La : length (DocumentParser.extract_articles (structured_text text))
               = length (finditer DocumentParser.article_pattern text)).
  { rewrite extract_articles_length. apply finditer_structured_length. simpl; auto. }
  rewrite Hc, Ha, Hs.
  destruct (DocumentParser.extract_chapters (structured_text text)) as [|c cs];
    [destruct (DocumentParser.extract_articles (structured_text text)) as [|a as_]|];
    simpl in Lc, La;
    try (symmetry in Lc; apply length_zero_iff_nil in Lc);
    try (symmetry in La; apply length_zero_iff_nil in La);
    repeat match goal with
           | |- _ /\ _ => split
           | |- _ -> _ => intro
           | |- ~ _ => intro
           end;
    try congruence;
    repeat match goal with H : finditer _ _ = [] |- _ => rewrite H in * end;
    simpl in *; try congruence; try (exfalso; lia).
Qed.

(** C4: the fallback chain holds (chapters, else articles, else sections),
    but two article marker lines need not give two articles: in the article
    pattern "^(?:Article|Art\.?)\s+(\d+|[IVXLCDM]+)\.?\s*[-:]?\s*(.*)$" the "\s*" after
    the number also matches a newline, so on "Article 1" followed by the
    line "Article 2" the first match runs to the end of the second line:
    there is one match, no chapter, and one article numbered "1" with
    heading "Article 2".  With a heading on each line ("Article 1 A",
    "Article 2 B") the two articles are found. *)
Theorem article_lines_merge :
  (forall text md,
     let t := structured_text text in
     let d := DocumentParser.parse text md in
     (finditer DocumentParser.chapter_pattern text = [] ->
        chapters d = [] /\
        (finditer DocumentParser.article_pattern text <> [] ->
           articles d = DocumentParser.extract_articles t /\ articles d <> [] /\ sections d = []) /\
        (finditer DocumentParser.article_pattern text = [] ->
           articles d = [] /\ sections d = DocumentParser.extract_sections t)) /\
     (finditer DocumentParser.chapter_pattern text <> [] ->
        chapters d = DocumentParser.extract_chapters t /\ chapters d <> [] /\
        articles d = [] /\ sections d = [])) /\
  finditer DocumentParser.chapter_pattern (lines ["Article 1"; "Article 2"]%string) = [] /\
  length (finditer DocumentParser.article_pattern (lines ["Article 1"; "Article 2"]%string)) = 1 /\
  chapters (DocumentParser.parse (lines ["Article 1"; "Article 2"]%string) None) = [] /\
  map (fun a => (art_number a, art_heading a))
      (articles (DocumentParser.parse (lines ["Article 1"; "Article 2"]%string) None))
    = [(of_string "1", Some (of_string "Article 2"))] /\
  map (fun a => (art_number a, art_heading a))
      (articles (DocumentParser.parse (lines ["Article 1 A"; "Article 2 B"]%string) None))
    = [(of_string "1", Some (of_string "A")); (of_string "2", Some (of_string "B"))].
Proof.
  split.
  - intros text md. destruct (parse_fallback text md) as [H1 H2]. split; assumption.
  - repeat split; vm_compute; reflexivity.
Qed.

(** C9: [parse] is a total function (it has a result for every input), and
    on the empty text it returns a document with no preamble and no
    structural unit: no part, chapter, article or section. *)
Theorem parse_empty_input : forall md,
  let d := DocumentParser.parse [] md in
  preamble d = None /\ parts d = [] /\ chapters d = [] /\ articles d = [] /\ sections d = [].
Proof. intros md. repeat split; vm_compute; reflexivity. Qed.

(** C3: the article pattern has no letter suffix: the line "Article 31A"
    yields an article numbered "31" with id "art_31" and heading "A", while
    the article patterns of [PDFParser] capture "31A"; the section numbered
    "2.1.3" does get the id "sec_2_1_3". *)
Theorem article_letter_suffix :
  let d := DocumentParser.parse (of_string "Article 31A") None in
  map art_number (articles d) = [of_string "31"] /\
  map art_id (articles d) = [of_string "art_31"] /\
  map art_heading (articles d) = [Some (of_string "A")] /\
  option_map (fun m => grp m 1)
    (pmatch PDFParser.article_text_pattern (of_string "Article 31A")) = Some (of_string "31A") /\
  map sec_id (sections (DocumentParser.parse (of_string "Section 2.1.3 Title") None))
    = [of_string "sec_2_1_3"].
Proof. repeat split; vm_compute; reflexivity. Qed.

(** C1: a text with one chapter marker whose content span does not cover
    the marker line ("CHAPTER 1 Intro", 15 of the 20 characters after the
    empty preamble), and a text whose article before the first chapter lies
    in no chapter span and is dropped from the document. *)
Lemma chapter_spans_counterexample :
  structured_text (lines ["CHAPTER 1 Intro"; "body"]%string)
    = lines ["CHAPTER 1 Intro"; "body"]%string /\
  length (lines ["CHAPTER 1 Intro"; "body"]%string) = 20 /\
  map snd (DocumentParser.units mend (lines ["CHAPTER 1 Intro"; "body"]%string)
             (finditer DocumentParser.chapter_pattern (lines ["CHAPTER 1 Intro"; "body"]%string)))
    = [lines [""; "body"]%string] /\
  structured_text (lines ["Article 1 X"; "CHAPTER 1 Y"; "z"]%string)
    = lines ["Article 1 X"; "CHAPTER 1 Y"; "z"]%string /\
  map snd (DocumentParser.units mend (lines ["Article 1 X"; "CHAPTER 1 Y"; "z"]%string)
             (finditer DocumentParser.chapter_pattern (lines ["Article 1 X"; "CHAPTER 1 Y"; "z"]%string)))
    = [lines [""; "z"]%string] /\
  map chp_articles (chapters (DocumentParser.parse (lines ["Article 1 X"; "CHAPTER 1 Y"; "z"]%string) None))
    = [[]] /\
  articles (DocumentParser.parse (lines ["Article 1 X"; "CHAPTER 1 Y"; "z"]%string) None) = [].
Proof. repeat split; vm_compute; reflexivity. Qed.

(** C1 (amended): the chapters of [parse] are built from the matches of the
    chapter pattern in the text after the preamble, one chapter per match,
    in text order, and as many as the chapter pattern has matches in the
    whole input.  The matches do not overlap, and the marker text of each
    match followed by its content span, unit after unit, tile the text from
    the first chapter marker to its end: the content spans are disjoint and
    cover exactly what no marker covers from there on. *)
Theorem chapter_units_tile : forall text md,
  let t := structured_text text in
  let ms := finditer DocumentParser.chapter_pattern t in
  let chs := chapters (DocumentParser.parse text md) in
  chs = DocumentParser.extract_chapters t /\
  length chs = length (finditer DocumentParser.chapter_pattern text) /\
  map chp_number chs = map (fun m => grp m 1) ms /\
  chain 0 ms (length t) /\ Forall (fun m => mstart m < mend m) ms /\
  concat (map (fun '(m, span) => group0 t m ++ span) (DocumentParser.units mend t ms)) =
  match ms with [] => [] | m :: _ => skipn (mstart m) t end.
Proof.
  intros text md. cbv zeta.
  destruct (parse_shape text md) as [_ [_ [Hc _]]]. rewrite Hc.
  split; [reflexivity|].
  split. { rewrite extract_chapters_length. apply finditer_structured_length. simpl; auto. }
  split. { unfold DocumentParser.extract_chapters. apply map_units. reflexivity. }
  split; [apply finditer_chain|].
  split.
  - assert (Hm := scan_minlen DocumentParser.chapter_pattern (structured_text text) None 0 0).
    assert (E : 0 < minlen DocumentParser.chapter_pattern) by (vm_compute; lia).
    eapply Forall_impl; [|exact Hm]. intros m Hm'. simpl in Hm'. lia.
  - apply (units_tile _ _ 0). apply finditer_chain.
Qed.

(** C2: the subsection extractor cuts its spans from the start of each
    match, not from its end: on "(a) x" and "(b) y" the code's contents are
    ") x" and ") y", while spans from the end of each match give two empty
    contents. *)
Lemma subsection_span_counterexample :
  map sec_content (DocumentParser.extract_subsections (lines ["(a) x"; "(b) y"]%string))
    = [of_string ") x"; of_string ") y"] /\
  map sec_content
    (map (fun '(m, span) => DocumentParser.build_subsection m span)
       (DocumentParser.units mend (lines ["(a) x"; "(b) y"]%string)
          (finditer DocumentParser.subsection_pattern (lines ["(a) x"; "(b) y"]%string))))
    = [[]; []].
Proof. split; vm_compute; reflexivity. Qed.

(** C2 (amended): the unit built from match [i] of a level's pattern gets
    the span from the end of match [i] (from its start, for subsections) to
    the start of match [i+1], or to the end of the text for the last match.
    Chapters extract their articles from exactly that span and articles
    their sections; sections extract their subsections from the span with
    surrounding whitespace stripped. *)
Theorem unit_spans : forall text i,
  let cm := finditer DocumentParser.chapter_pattern text in
  let am := finditer DocumentParser.article_pattern text in
  let sm := finditer DocumentParser.section_pattern text in
  let um := finditer DocumentParser.subsection_pattern text in
  nth_error (DocumentParser.extract_chapters text) i =
    option_map (fun m => DocumentParser.build_chapter m (slice text (mend m) (next_start text cm i)))
               (nth_error cm i) /\
  nth_error (DocumentParser.extract_articles text) i =
    option_map (fun m => DocumentParser.build_article m (slice text (mend m) (next_start text am i)))
               (nth_error am i) /\
  nth_error (DocumentParser.extract_sections text) i =
    option_map (fun m => DocumentParser.build_section m (slice text (mend m) (next_start text sm i)))
               (nth_error sm i) /\
  nth_error (DocumentParser.extract_subsections text) i =
    option_map (fun m => DocumentParser.build_subsection m
                           (slice text (mstart m) (next_start text um i)))
               (nth_error um i) /\
  (forall m span,
     chp_articles (DocumentParser.build_chapter m span) = DocumentParser.extract_articles span /\
     art_sections (DocumentParser.build_article m span) = DocumentParser.extract_sections span /\
     sec_subsections (DocumentParser.build_section m span)
       = DocumentParser.extract_subsections (strip span)).
Proof.
  intros text i. cbv zeta.
  split; [apply nth_error_map_units|].
  split; [apply nth_error_map_units|].
  split; [apply nth_error_map_units|].
  split; [apply nth_error_map_units|].
  intros m span. repeat split.
Qed.

(** C10: [extract_constitution_structure] keeps at most one part entry per part
    number: the part numbers of its result are pairwise distinct.  The line scan
    keeps, in line order, the part lines whose number no earlier part line carries
    (the first line for each number), and every one of them is in the result.  The
    articles are not deduplicated: one entry per line matching an article pattern. *)
Theorem part_entries_first_per_number : forall md,
  NoDup (map PDFParser.p_number
           (PDFParser.st_parts (PDFParser.extract_constitution_structure md))) /\
  PDFParser.st_parts (PDFParser.scan_lines md)
    = first_by_number [] (line_entries PDFParser.line_part md) /\
  (forall p, In p (PDFParser.st_parts (PDFParser.scan_lines md)) <->
     exists pre suf, line_entries PDFParser.line_part md = pre ++ p :: suf /\
       ~ In (PDFParser.p_number p) (map PDFParser.p_number pre)) /\
  (forall p, In p (PDFParser.st_parts (PDFParser.scan_lines md)) ->
     In p (PDFParser.st_parts (PDFParser.extract_constitution_structure md))) /\
  PDFParser.st_articles (PDFParser.extract_constitution_structure md)
    = line_entries PDFParser.line_article md.
Proof.
  intros md. destruct (scan_lines_spec md) as [Hs Ha].
  split; [|split; [exact Hs|split; [|split]]].
  - rewrite structure_parts. cbv zeta. apply vii_step_nodup.
    destruct (_ <? 22); [apply fix_missing_parts_nodup|]; apply scan_parts_nodup.
  - intros p. rewrite Hs. apply (first_by_number_spec _ [] p).
  - intros p H. rewrite structure_parts. cbv zeta. apply vii_step_keep.
    destruct (_ <? 22); [apply fix_missing_parts_keep|]; exact H.
  - rewrite structure_articles. exact Ha.
Qed.

(** C8: the parts returned by [extract_constitution_structure] always include one
    numbered "VII".  When the line scan found no part VII and neither the fallback
    patterns of [_fix_missing_parts] for "VII" nor the patterns of
    [_find_part_vii_specifically] match anywhere in the text, the entry is the
    placeholder, whose heading is "THE STATES IN PART B OF THE FIRST SCHEDULE" and
    whose position is -1. *)
Theorem part_vii_always_present : forall md,
  In PDFParser.vii_number
     (map PDFParser.p_number (PDFParser.st_parts (PDFParser.extract_constitution_structure md))) /\
  (~ In PDFParser.vii_number (map PDFParser.p_number (PDFParser.st_parts (PDFParser.scan_lines md))) ->
   PDFParser.first_search (PDFParser.fallback_patterns PDFParser.vii_number) md = None ->
   PDFParser.first_search PDFParser.part_vii_patterns md = None ->
   In PDFParser.vii_placeholder (PDFParser.st_parts (PDFParser.extract_constitution_structure md))) /\
  PDFParser.p_title PDFParser.vii_placeholder
    = of_string "THE STATES IN PART B OF THE FIRST SCHEDULE" /\
  PDFParser.p_position PDFParser.vii_placeholder = (-1)%Z.
Proof.
  intros md. split; [|split; [|split; reflexivity]].
  - rewrite structure_parts. cbv zeta. apply vii_step_has.
  - intros H1 H2 H3. rewrite structure_parts. cbv zeta. apply vii_step_placeholder; [|exact H3].
    destruct (_ <? 22); [apply vii_not_in_fixed|]; assumption.
Qed.

Lemma part_vii_always_present_witness :
  In PDFParser.vii_placeholder (PDFParser.st_parts (PDFParser.extract_constitution_structure [])).
Proof.
  apply (proj1 (proj2 (part_vii_always_present [])));
    [vm_compute; intros [] | vm_compute; reflexivity | vm_compute; reflexivity].
Defined.

(** C7: [_find_part_vii_specifically] means to insert Part VII between
    parts VI and VIII (its comments: "Find correct position to insert Part VII
    (between VI and VIII)", "Insert before Part VIII or later"), but its check
    lists only VIII, IX and X: on "PART VI" and "PART XI" the line scan finds VI
    and XI, [_fix_missing_parts] adds nothing, and the placeholder VII is
    appended after XI, at position 2, where [_fix_missing_parts]'s scan would
    put a part of index 6 at position 1.  Only the final sort puts VII between
    VI and XI.  That final sort holds for every input: each repair operation
    returns a stable re-sort by canonical index of its working list (a
    permutation of it, keys increasing), and a part numbered outside I-XXII
    comes after every canonical part. *)
Theorem part_vii_insert_slip :
  (let md := lines ["PART VI"; "PART XI"]%string in
   let ps := PDFParser.fix_missing_parts md (PDFParser.st_parts (PDFParser.scan_lines md)) in
   map PDFParser.p_number ps = map of_string ["VI"; "XI"]%string /\
   PDFParser.fix_insert_pos 6 0 ps = 1 /\
   PDFParser.vii_insert_pos 0 ps = 2 /\
   map PDFParser.p_number (PDFParser.find_part_vii_unsorted md ps)
     = map of_string ["VI"; "XI"; "VII"]%string /\
   map PDFParser.p_number (PDFParser.st_parts (PDFParser.extract_constitution_structure md))
     = map of_string ["VI"; "VII"; "XI"]%string) /\
  (forall text found,
     Permutation (PDFParser.fix_missing_parts text found)
                 (PDFParser.fix_missing_parts_unsorted text found) /\
     Sorted le (map PDFParser.part_key (PDFParser.fix_missing_parts text found)) /\
     Permutation (PDFParser.find_part_vii_specifically text found)
                 (PDFParser.find_part_vii_unsorted text found) /\
     Sorted le (map PDFParser.part_key (PDFParser.find_part_vii_specifically text found))) /\
  (forall p q, In (PDFParser.p_number p) PDFParser.expected_parts ->
     ~ In (PDFParser.p_number q) PDFParser.expected_parts ->
     PDFParser.part_key p < PDFParser.part_key q).
Proof.
  split; [vm_compute; repeat split|split].
  - intros text found. rewrite fix_missing_parts_sort, find_part_vii_sort.
    split; [apply sort_by_perm|]. split; [apply sort_by_sorted|].
    split; [apply sort_by_perm|apply sort_by_sorted].
  - intros p q Hp Hq. rewrite (part_key_unknown q Hq). pose proof (part_key_known p Hp). lia.
Qed.

(** C6, counterexample: with parts I, II, IV and V found, an earlier mention
    "See Part III of the Act." matches the first fallback pattern before the line
    "PART III - FREEDOMS" is reached, so part III gets the heading "of the Act",
    position 4 and line "Part III".  And the patterns are not tried from strict to
    loose: "See PART III." matches the first, plain pattern and none of the three
    after it. *)
Lemma part_iii_repair_counterexample :
  let found := [PDFParser.mkPartEntry (of_string "I") (of_string "THE UNION") 0%Z (of_string "PART I");
                PDFParser.mkPartEntry (of_string "II") (of_string "CITIZENSHIP") 1%Z (of_string "PART II");
                PDFParser.mkPartEntry (of_string "IV") (of_string "DIRECTIVES") 3%Z (of_string "PART IV");
                PDFParser.mkPartEntry (of_string "V") (of_string "THE UNION") 4%Z (of_string "PART V")] in
  let md := lines ["See Part III of the Act."; "PART III - FREEDOMS"]%string in
  nth_error (PDFParser.fix_missing_parts md found) 2
    = Some (PDFParser.mkPartEntry (of_string "III") (of_string "of the Act") 4%Z (of_string "Part III")) /\
  map (fun r => match search r (of_string "See PART III.") with Some _ => true | None => false end)
      (PDFParser.fallback_patterns (of_string "III"))
    = [true; false; false; false].
Proof. vm_compute. split; reflexivity. Qed.

(** C6, amended: for every canonical part number [e] absent from the found parts,
    [_fix_missing_parts] tries the four patterns (plain mention, start of line,
    markdown heading, bold) in that order on the whole text and adds the entry of
    the first match of the first pattern that matches; every part it returns was
    found or is such an entry.  With parts I, II, IV and V found and a line
    "PART III - FREEDOMS" such that no match of the first, plain pattern
    "\bPART\s+III\b" starts before it, the result starts with I, II, then III
    with heading "FREEDOMS", the line's offset as position and line "PART III",
    then IV and V. *)
Theorem fix_missing_parts_spec :
  (forall text found e m,
     In e PDFParser.expected_parts -> ~ In e (map PDFParser.p_number found) ->
     PDFParser.first_search (PDFParser.fallback_patterns e) text = Some m ->
     In (PDFParser.recovered_entry text e m) (PDFParser.fix_missing_parts text found)) /\
  (forall text found p,
     In p (PDFParser.fix_missing_parts text found) ->
     In p found \/ exists e m,
       PDFParser.first_search (PDFParser.fallback_patterns e) text = Some m /\
       p = PDFParser.recovered_entry text e m) /\
  (forall (pre post : str) t1 z1 l1 t2 z2 l2 t4 z4 l4 t5 z5 l5,
     (forall r m, hd_error (PDFParser.fallback_patterns (of_string "III")) = Some r ->
        search r (pre ++ of_string "PART III - FREEDOMS" ++ post) = Some m -> length pre <= mstart m) ->
     (pre = [] \/ exists pre', pre = pre' ++ [nl]) ->
     (post = [] \/ exists t, post = nl :: t) ->
     exists rest,
       PDFParser.fix_missing_parts (pre ++ of_string "PART III - FREEDOMS" ++ post)
         [PDFParser.mkPartEntry (of_string "I") t1 z1 l1; PDFParser.mkPartEntry (of_string "II") t2 z2 l2;
          PDFParser.mkPartEntry (of_string "IV") t4 z4 l4; PDFParser.mkPartEntry (of_string "V") t5 z5 l5]
       = [PDFParser.mkPartEntry (of_string "I") t1 z1 l1; PDFParser.mkPartEntry (of_string "II") t2 z2 l2;
          PDFParser.mkPartEntry (of_string "III") (of_string "FREEDOMS") (Z.of_nat (length pre))
            (of_string "PART III");
          PDFParser.mkPartEntry (of_string "IV") t4 z4 l4; PDFParser.mkPartEntry (of_string "V") t5 z5 l5]
         ++ rest).
Proof.
  split; [exact fix_missing_parts_recovers|].
  split; [exact fix_missing_parts_in|exact part_iii_repair].
Qed.

Lemma fix_missing_parts_spec_witness :
  exists rest,
    PDFParser.fix_missing_parts ((lines ["We the people"; "PART I - A"; "PART II - B"]%string ++ [nl]) ++ of_string "PART III - FREEDOMS" ++ (nl :: of_string "PART IV - DIRECTIVES"))
      [PDFParser.mkPartEntry (of_string "I") (of_string "A") 14%Z (of_string "PART I");
       PDFParser.mkPartEntry (of_string "II") (of_string "B") 25%Z (of_string "PART II");
       PDFParser.mkPartEntry (of_string "IV") (of_string "DIRECTIVES") 57%Z (of_string "PART IV");
       PDFParser.mkPartEntry (of_string "V") (of_string "THE UNION") 80%Z (of_string "PART V")]
    = [PDFParser.mkPartEntry (of_string "I") (of_string "A") 14%Z (of_string "PART I");
       PDFParser.mkPartEntry (of_string "II") (of_string "B") 25%Z (of_string "PART II");
       PDFParser.mkPartEntry (of_string "III") (of_string "FREEDOMS")
         (Z.of_nat (length (lines ["We the people"; "PART I - A"; "PART II - B"]%string ++ [nl]))) (of_string "PART III");
       PDFParser.mkPartEntry (of_string "IV") (of_string "DIRECTIVES") 57%Z (of_string "PART IV");
       PDFParser.mkPartEntry (of_string "V") (of_string "THE UNION") 80%Z (of_string "PART V")]
      ++ rest.
Proof.
  apply (proj2 (proj2 fix_missing_parts_spec)).
  - intros r m Hr Hs. injection Hr as <-. vm_compute in Hs. injection Hs as <-.
    apply Nat.leb_le. vm_compute. reflexivity.
  - right. exists (lines ["We the people"; "PART I - A"; "PART II - B"]%string). reflexivity.
  - right. eexists. reflexivity.
Defined.

(** C5, counterexample: in a section whose text is "Intro text." followed by the
    line "(a) first (b) second", the inline marker "(b)" starts no subsection:
    the section has the single subsection "a".  In a section whose text is
    "Intro (a) first" followed by the line "(b) second", the inline marker "(a)"
    is ignored: the content is not cut before it, and the only subsection is "b". *)
Lemma subsection_inline_counterexample :
  map (fun s => (sec_content s, map sec_number (sec_subsections s)))
      (DocumentParser.extract_sections
         (lines ["Section 1 Title"; "Intro text."; "(a) first (b) second"]%string))
  = [(of_string "Intro text.", [of_string "a"])] /\
  map (fun s => (sec_content s, map sec_number (sec_subsections s)))
      (DocumentParser.extract_sections
         (lines ["Section 1 Title"; "Intro (a) first"; "(b) second"]%string))
  = [(of_string "Intro (a) first", [of_string "b"])].
Proof. split; vm_compute; reflexivity. Qed.

(** C5, amended: the subsection pattern "^\s*\(([a-z]|\d+)\)\s+(.*)$" is
    anchored at line starts (MULTILINE), so only a marker that begins a line
    starts a subsection.  For every section, with [t] its stripped span: the
    subsections are numbered by group 1 of the matches of the pattern in [t],
    one per match and in order; every match starts at the start of a line of
    [t]; and the content is [t] stripped before the first match, or [t] when
    there is none.  In particular, when [t] is [lead], then a line starting
    "(a) " and a line starting "(b) ", where [lead] is empty or ends with a
    newline, the texts [x] and [y] after "(a) " and "(b) " start with a
    non-space character and may run over several lines, and no match starts in
    [lead], in [x] (or the newline after it) or in [y], the content is [lead]
    stripped and the subsections are numbered "a" and "b". *)
Theorem section_subsection_markers : forall (m : mobj) (span : str),
  let t := strip span in
  let ms := finditer DocumentParser.subsection_pattern t in
  let s := DocumentParser.build_section m span in
  map sec_number (sec_subsections s) = map (fun u => grp u 1) ms /\
  sec_content s = match ms with [] => t | u :: _ => strip (firstn (mstart u) t) end /\
  Forall (fun u => exists pre post, t = pre ++ post /\ mstart u = length pre /\
                     (pre = [] \/ exists l, pre = l ++ [nl])) ms /\
  (forall lead x y : str,
     t = lead ++ of_string "(a) " ++ x ++ nl :: of_string "(b) " ++ y ->
     (lead = [] \/ exists l, lead = l ++ [nl]) ->
     no_match_in DocumentParser.subsection_pattern None lead
       (of_string "(a) " ++ x ++ nl :: of_string "(b) " ++ y) ->
     match x with cx :: _ => is_space cx = false | [] => False end ->
     no_match_in DocumentParser.subsection_pattern (Some 32%N) (x ++ [nl]) (of_string "(b) " ++ y) ->
     match y with cy :: _ => is_space cy = false | [] => False end ->
     no_match_in DocumentParser.subsection_pattern (Some 32%N) y [] ->
     sec_content s = strip lead /\ map sec_number (sec_subsections s) = [of_string "a"; of_string "b"]).
Proof.
  intros m span. cbv zeta.
  assert (Hn : map sec_number (sec_subsections (DocumentParser.build_section m span))
               = map (fun u => grp u 1) (finditer DocumentParser.subsection_pattern (strip span))).
  { unfold DocumentParser.build_section. cbv zeta. cbn [sec_subsections].
    unfold DocumentParser.extract_subsections. apply map_units. reflexivity. }
  assert (Hc : sec_content (DocumentParser.build_section m span)
               = match finditer DocumentParser.subsection_pattern (strip span) with
                 | [] => strip span | u :: _ => strip (firstn (mstart u) (strip span)) end).
  { unfold DocumentParser.build_section, DocumentParser.extract_subsections, search. cbv zeta.
    cbn [sec_content].
    destruct (finditer DocumentParser.subsection_pattern (strip span)) as [|u us]; reflexivity. }
  split; [exact Hn|]. split; [exact Hc|]. split.
  - apply Forall_forall. intros u Hu. unfold finditer in Hu.
    destruct (scan_subsection_bol _ _ _ _ _ Hu) as [pre [post [E [Hs Hb]]]].
    exists pre, post. split; [exact E|]. split; [exact Hs|]. apply bol_after_none. exact Hb.
  - intros lead x y Ht Hl Hnl Hx Hnx Hy Hny.
    assert (Hb : bol_prev (after None lead) = true)
      by (destruct Hl as [->|[l ->]]; [reflexivity|rewrite after_snoc; reflexivity]).
    pose proof (subsections_finditer_lines lead x y Hnl Hb Hx Hnx Hy Hny) as F.
    rewrite Ht in Hn, Hc.
    destruct (finditer DocumentParser.subsection_pattern
                (lead ++ of_string "(a) " ++ x ++ nl :: of_string "(b) " ++ y))
      as [|u1 [|u2 [|u3 us]]]; try discriminate F.
    injection F as E1 E2 E3 E4. rewrite Hc, Hn, E1. cbn [map]. rewrite E2, E4.
    rewrite firstn_app, firstn_all, Nat.sub_diag, firstn_O, app_nil_r.
    split; reflexivity.
Qed.

Lemma section_subsection_markers_witness :
  sec_content (DocumentParser.build_section (MObj 0 0 [])
                 (lines ["Intro text."; "(a) first"; "continued"; "(b) second"; "third"]%string))
    = strip (of_string "Intro text." ++ [nl]) /\
  map sec_number (sec_subsections (DocumentParser.build_section (MObj 0 0 [])
                 (lines ["Intro text."; "(a) first"; "continued"; "(b) second"; "third"]%string)))
    = [of_string "a"; of_string "b"].
Proof.
  apply (proj2 (proj2 (proj2 (section_subsection_markers (MObj 0 0 [])
           (lines ["Intro text."; "(a) first"; "continued"; "(b) second"; "third"]%string))))
           (of_string "Intro text." ++ [nl]) (lines ["first"; "continued"]%string)
           (lines ["second"; "third"]%string)).
  - vm_compute. reflexivity.
  - right. eexists. reflexivity.
  - vm_compute. repeat split.
  - vm_compute. reflexivity.
  - vm_compute. repeat split.
  - vm_compute. reflexivity.
  - vm_compute. repeat split.
Defined.

(** * Further properties of the code *)

Lemma run_caps : forall r s s', In s' (run r s) -> forall n w, In (n, w) (caps s') ->
  In (n, w) (caps s) \/ captured_by r s n w.
Proof.
  induction r; intros s s' Hin n0 w Hw; simpl in Hin.
  - destruct (rest s) as [|c t]; [destruct Hin|].
    destruct (f c); [|destruct Hin]. destruct Hin as [<- | []]. left; exact Hw.
  - apply in_flat_map in Hin. destruct Hin as [s1 [H1 H2]].
    destruct (IHr2 _ _ H2 n0 w Hw) as [Hc|[r1' [s0 [s2 [Hg [Ha [Hr Hw']]]]]]].
    + destruct (IHr1 _ _ H1 n0 w Hc) as [Hc'|[r1' [s0 [s2 [Hg [Ha [Hr Hw']]]]]]];
        [left; exact Hc'|].
      right. exists r1', s0, s2. simpl. auto.
    + right. exists r1', s0, s2. simpl. repeat split; auto.
      eapply advances_trans; [eapply run_advances; exact H1 | exact Ha].
  - apply in_app_or in Hin. destruct Hin as [H|H];
      [destruct (IHr1 _ _ H n0 w Hw) as [Hc|[r1' [s0 [s2 [Hg Hr]]]]]
      |destruct (IHr2 _ _ H n0 w Hw) as [Hc|[r1' [s0 [s2 [Hg Hr]]]]]];
      auto; right; exists r1', s0, s2; simpl; auto.
  - change (In s' (star_iter (run r) greedy (S (length (rest s))) s)) in Hin.
    set (R := fun a b => advances a b /\ forall n w, In (n, w) (caps b) ->
                         In (n, w) (caps a) \/ captured_by r a n w).
    assert (HR : R s s').
    { eapply (star_iter_rel (run r) R); [| | | exact Hin].
      - intros a. split; [apply advances_refl|]. intros; left; assumption.
      - intros a b c [Hab Hb] [Hbc Hc]. split; [eapply advances_trans; eassumption|].
        intros n1 w1 Hn. destruct (Hc n1 w1 Hn) as [H|[r1' [s0 [s2 [Hg [Ha Hr]]]]]].
        + exact (Hb n1 w1 H).
        + right. exists r1', s0, s2. split; [exact Hg|split; [eapply advances_trans; eassumption|exact Hr]].
      - intros a b Hab. split; [eapply run_advances; exact Hab|]. apply IHr. exact Hab. }
    destruct (proj2 HR n0 w Hw) as [H|[r1' [s0 [s2 H]]]]; [left; exact H|].
    right. exists r1', s0, s2. exact H.
  - assert (Hsub : forall x, In x (run r s) -> In (n0, w) (caps x) ->
              In (n0, w) (caps s) \/ captured_by (ROpt greedy r) s n0 w).
    { intros x Hx Hc. destruct (IHr _ _ Hx n0 w Hc) as [H|[r1' [s0 [s2 H]]]]; [left; exact H|].
      right. exists r1', s0, s2. exact H. }
    destruct greedy.
    + apply in_app_or in Hin. destruct Hin as [H|[<-|[]]]; [apply (Hsub s'); assumption|left; exact Hw].
    + destruct Hin as [<-|H]; [left; exact Hw|apply (Hsub s'); assumption].
  - apply in_map_iff in Hin. destruct Hin as [s1 [<- H1]]. simpl in Hw.
    destruct Hw as [E|Hw].
    + injection E as <- <-. right. exists r, s, s1. simpl. repeat split; auto.
      apply advances_refl.
    + destruct (IHr _ _ H1 n0 w Hw) as [H|[r1' [s0 [s2 [Hg H]]]]]; [left; exact H|].
      right. exists r1', s0, s2. simpl. auto.
  - destruct (prev s) as [c|]; [destruct (multiline && (c =? nl)%N)|];
      try destruct Hin as [<- | []]; try (left; exact Hw); destruct Hin.
  - destruct (rest s) as [|c t]; [destruct Hin as [<- | []]; left; exact Hw|].
    destruct (_ && _); [destruct Hin as [<- | []]; left; exact Hw | destruct Hin].
  - destruct (xorb _ _); [destruct Hin as [<- | []]; left; exact Hw | destruct Hin].
  - destruct Hin as [<- | []]. left; exact Hw.
Qed.

Lemma run_chars : forall P r s s', classes_ok P r -> In s' (run r s) -> advances_in P s s'.
Proof.
  intros P r. induction r; intros s s' Hok Hin; simpl in Hin; simpl in Hok;
    try (destruct Hok as [Ok1 Ok2]).
  - destruct (rest s) as [|c t] eqn:E; [destruct Hin|].
    destruct (f c) eqn:Ef; [|destruct Hin]. destruct Hin as [<- | []].
    exists [c]. simpl. rewrite E. split; [reflexivity|]. split; [lia|].
    constructor; [apply Hok; exact Ef | constructor].
  - apply in_flat_map in Hin. destruct Hin as [s1 [H1 H2]].
    destruct (IHr1 _ _ Ok1 H1) as [w1 [E1 [P1 F1]]].
    destruct (IHr2 _ _ Ok2 H2) as [w2 [E2 [P2 F2]]].
    exists (w1 ++ w2). rewrite E1, E2, app_assoc, length_app.
    split; [reflexivity|]. split; [lia|]. apply Forall_app; auto.
  - apply in_app_or in Hin. destruct Hin; [apply IHr1 | apply IHr2]; assumption.
  - change (In s' (star_iter (run r) greedy (S (length (rest s))) s)) in Hin.
    eapply (star_iter_rel (run r) (advances_in P)); [| | | exact Hin].
    + intros a. exists []. simpl. split; [reflexivity|]. split; [lia|constructor].
    + intros a b c [w1 [E1 [P1 F1]]] [w2 [E2 [P2 F2]]].
      exists (w1 ++ w2). rewrite E1, E2, app_assoc, length_app.
      split; [reflexivity|]. split; [lia|]. apply Forall_app; auto.
    + intros a b Hab. apply IHr; assumption.
  - assert (Hr : advances_in P s s) by (exists []; simpl; split; [reflexivity|split; [lia|constructor]]).
    destruct greedy.
    + apply in_app_or in Hin. destruct Hin as [H | [<- | []]]; [apply IHr; assumption | exact Hr].
    + destruct Hin as [<- | H]; [exact Hr | apply IHr; assumption].
  - apply in_map_iff in Hin. destruct Hin as [s1 [<- H1]].
    destruct (IHr _ _ Hok H1) as [w [E [Pw F]]]. exists w. simpl. auto.
  - assert (E : s' = s).
    { destruct (prev s) as [c|]; [destruct (multiline && (c =? nl)%N)|];
        (destruct Hin as [<- | []] || destruct Hin); reflexivity. }
    subst s'. exists []. simpl. split; [reflexivity|split; [lia|constructor]].
  - assert (E : s' = s).
    { destruct (rest s) as [|c t]; [|destruct (_ && _)];
        (destruct Hin as [<- | []] || destruct Hin); reflexivity. }
    subst s'. exists []. simpl. split; [reflexivity|split; [lia|constructor]].
  - assert (E : s' = s) by (destruct (xorb _ _); (destruct Hin as [<- | []] || destruct Hin); reflexivity).
    subst s'. exists []. simpl. split; [reflexivity|split; [lia|constructor]].
  - destruct Hin as [<- | []]. exists []. simpl. split; [reflexivity|split; [lia|constructor]].
Qed.

Lemma capture_chars : forall P r1 s0 s1, classes_ok P r1 -> In s1 (run r1 s0) ->
  Forall P (firstn (pos s1 - pos s0) (rest s0)).
Proof.
  intros P r1 s0 s1 Hok Hin. destruct (run_chars P r1 s0 s1 Hok Hin) as [w [E [Pw F]]].
  rewrite E, Pw. replace (pos s0 + length w - pos s0) with (length w) by lia.
  rewrite firstn_app, firstn_all, Nat.sub_diag, firstn_O, app_nil_r. exact F.
Qed.

Lemma in_firstn_in : forall {A} n (l : list A) x, In x (firstn n l) -> In x l.
Proof.
  intros A n l x H. rewrite <- (firstn_skipn n l). apply in_or_app. left; exact H.
Qed.

Lemma scan_in : forall r rs p off skip m, In m (scan r p rs off skip) ->
  exists p' pre rs' s', rs = pre ++ rs' /\ In s' (run r (MState p' 0 rs' [])) /\
                        mgroups m = caps s'.
Proof.
  intros r rs. induction rs as [|c t IH]; intros p off skip m Hm; simpl in Hm.
  - destruct skip; [|destruct Hm].
    unfold match_here in Hm.
    destruct (run r (MState p 0 [] [])) as [|s' l] eqn:E; [destruct Hm|].
    destruct Hm as [<-|[]]. exists p, [], [], s'. simpl.
    split; [reflexivity|]. split; [rewrite E; left; reflexivity | reflexivity].
  - assert (Ht : forall p1 off1 sk1, In m (scan r p1 t off1 sk1) ->
              exists p' pre rs' s', c :: t = pre ++ rs' /\
                In s' (run r (MState p' 0 rs' [])) /\ mgroups m = caps s').
    { intros p1 off1 sk1 H. destruct (IH p1 off1 sk1 m H) as [p' [pre [rs' [s' [E H']]]]].
      exists p', (c :: pre), rs', s'. rewrite E. split; [reflexivity|exact H']. }
    destruct skip as [|sk]; [|eapply Ht; exact Hm].
    destruct (match_here r p (c :: t)) as [[k g]|] eqn:M; [|eapply Ht; exact Hm].
    destruct Hm as [<-|Hm]; [|eapply Ht; exact Hm].
    unfold match_here in M.
    destruct (run r (MState p 0 (c :: t) [])) as [|s' l] eqn:E; [discriminate|].
    injection M as _ <-. exists p, [], (c :: t), s'. simpl.
    split; [reflexivity|]. split; [rewrite E; left; reflexivity | reflexivity].
Qed.

Lemma grp_in_groups : forall m n, grp m n = [] \/ In (n, grp m n) (mgroups m).
Proof.
  intros m n. unfold grp, group.
  destruct (find (fun p => Nat.eqb (fst p) n) (mgroups m)) as [[n' w]|] eqn:E; [|left; reflexivity].
  right. apply find_some in E. destruct E as [H E]. simpl in E. apply Nat.eqb_eq in E.
  subst n'. exact H.
Qed.

(** What group [n] of a match of [finditer] holds: characters of the classes
    of the group's pattern, taken from the text. *)
Lemma finditer_grp : forall r n text m, In m (finditer r text) ->
  grp m n = [] \/
  exists r1 s0 s1, has_group n r1 r /\ In s1 (run r1 s0) /\
    grp m n = firstn (pos s1 - pos s0) (rest s0) /\
    (forall c, In c (rest s0) -> In c text).
Proof.
  intros r n text m Hm. destruct (grp_in_groups m n) as [E|Hg]; [left; exact E|].
  destruct (scan_in r text None 0 0 m Hm) as [p' [pre [rs' [s' [Et [Hs' Eg]]]]]].
  rewrite Eg in Hg.
  destruct (run_caps r _ s' Hs' n (grp m n) Hg) as [[]|[r1 [s0 [s1 [Hh [[w [Ew _]] [Hr Hw]]]]]]].
  right. exists r1, s0, s1. split; [exact Hh|]. split; [exact Hr|]. split; [exact Hw|].
  intros c Hc. rewrite Et. apply in_or_app. right. simpl in Ew. rewrite Ew.
  apply in_or_app. right. exact Hc.
Qed.

Lemma finditer_grp_chars : forall (P : char -> Prop) r n text m,
  (forall r1, has_group n r1 r -> classes_ok P r1) -> In m (finditer r text) ->
  Forall P (grp m n).
Proof.
  intros P r n text m Hok Hm.
  destruct (finditer_grp r n text m Hm) as [->|[r1 [s0 [s1 [Hh [Hr [-> _]]]]]]]; [constructor|].
  apply (capture_chars P r1); [apply Hok; exact Hh | exact Hr].
Qed.

Lemma finditer_grp_in : forall r n text m c, In m (finditer r text) ->
  In c (grp m n) -> In c text.
Proof.
  intros r n text m c Hm Hc.
  destruct (finditer_grp r n text m Hm) as [E|[r1 [s0 [s1 [_ [_ [E Hin]]]]]]];
    rewrite E in Hc; [destruct Hc|].
  apply Hin. eapply in_firstn_in. exact Hc.
Qed.

Lemma units_in : forall a text ms m span,
  In (m, span) (DocumentParser.units a text ms) -> In m ms.
Proof.
  intros a text ms. induction ms as [|m0 ms IH]; intros m span H; simpl in H; [destruct H|].
  destruct H as [E|H]; [injection E as -> _; left; reflexivity | right; eapply IH; exact H].
Qed.

Lemma ci_eq_dot : forall c, ci_eq c 46%N = true -> c = 46%N.
Proof.
  intros c H. unfold ci_eq, ascii_lower in H. simpl in H.
  rewrite !orb_false_r in H. apply N.eqb_eq in H.
  destruct ((65 <=? c)%N && (c <=? 90)%N) eqn:E; [|exact H].
  apply andb_prop in E as [E1 E2]. apply N.leb_le in E1. lia.
Qed.

Ltac group_cases H :=
  simpl in H;
  repeat match goal with
         | H : _ \/ _ |- _ => destruct H
         | H : _ /\ _ |- _ => destruct H
         | H : False |- _ => destruct H
         end; subst; try discriminate.

Lemma section_number_chars_aux : forall text m, In m (finditer DocumentParser.section_pattern text) ->
  Forall (fun c => is_digit c = true \/ c = 46%N) (grp m 1).
Proof.
  intros text m Hm. eapply finditer_grp_chars; [|exact Hm].
  intros r1 H. group_cases H. simpl.
  repeat split; intros c Hc; auto. right. apply ci_eq_dot. exact Hc.
Qed.

Lemma article_number_chars_aux : forall text m, In m (finditer DocumentParser.article_pattern text) ->
  Forall roman_or_digit (grp m 1).
Proof.
  intros text m Hm. eapply finditer_grp_chars; [|exact Hm].
  intros r1 H. group_cases H. simpl. unfold roman_or_digit.
  repeat split; intros c Hc; auto.
Qed.

Lemma chapter_number_chars_aux : forall text m, In m (finditer DocumentParser.chapter_pattern text) ->
  Forall roman_or_digit (grp m 1).
Proof.
  intros text m Hm. eapply finditer_grp_chars; [|exact Hm].
  intros r1 H. group_cases H. simpl. unfold roman_or_digit.
  repeat split; intros c Hc; auto.
Qed.

Lemma subsection_number_chars_aux : forall text m,
  In m (finditer DocumentParser.subsection_pattern text) ->
  Forall (fun c => ((97 <=? c) && (c <=? 122))%N = true \/ is_digit c = true) (grp m 1).
Proof.
  intros text m Hm. eapply finditer_grp_chars; [|exact Hm].
  intros r1 H. group_cases H. simpl.
  repeat split; intros c Hc; auto.
Qed.

Lemma replace_char_not_in : forall a b s, a <> b -> ~ In a (replace_char a b s).
Proof.
  intros a b s Hab H. unfold replace_char in H. apply in_map_iff in H.
  destruct H as [c [E _]]. destruct (N.eqb_spec c a); [congruence|]. congruence.
Qed.

(** Sections: the number of every section [_extract_sections] returns is
    made of decimal digits and dots, and its id contains no dot. *)
Theorem section_numbers_shape : forall text,
  Forall (fun s => Forall (fun c => is_digit c = true \/ c = 46%N) (sec_number s) /\
                   ~ In 46%N (sec_id s))
         (DocumentParser.extract_sections text).
Proof.
  intros text. apply Forall_forall. intros s Hs. unfold DocumentParser.extract_sections in Hs.
  apply in_map_iff in Hs. destruct Hs as [[m span] [<- Hu]]. apply units_in in Hu.
  split; [apply (section_number_chars_aux text m Hu)|].
  unfold DocumentParser.build_section. cbv zeta. cbn [sec_id].
  intros H. apply in_app_or in H. destruct H as [H|H].
  - simpl in H. repeat (destruct H as [H|H]; [discriminate H|]). destruct H.
  - revert H. apply replace_char_not_in. discriminate.
Qed.

(** Chapters and articles: every character of a chapter or article number
    is a decimal digit or, case-insensitively, one of IVXLCDM. *)
Theorem unit_numbers_shape : forall text,
  Forall (fun c => Forall roman_or_digit (chp_number c)) (DocumentParser.extract_chapters text) /\
  Forall (fun a => Forall roman_or_digit (art_number a)) (DocumentParser.extract_articles text).
Proof.
  intros text. split; apply Forall_forall.
  - intros c Hc. unfold DocumentParser.extract_chapters in Hc.
    apply in_map_iff in Hc. destruct Hc as [[m span] [<- Hu]]. apply units_in in Hu.
    exact (chapter_number_chars_aux text m Hu).
  - intros a Ha. unfold DocumentParser.extract_articles in Ha.
    apply in_map_iff in Ha. destruct Ha as [[m span] [<- Hu]]. apply units_in in Hu.
    exact (article_number_chars_aux text m Hu).
Qed.

(** Subsections: every subsection of a section has a number made of ASCII
    lower-case letters and decimal digits, the id [subsec_] followed by that
    number, no heading and no subsections of its own. *)
Theorem subsections_shape : forall text,
  Forall (fun s => Forall (fun u =>
    Forall (fun c => ((97 <=? c) && (c <=? 122))%N = true \/ is_digit c = true) (sec_number u) /\
    sec_id u = of_string "subsec_" ++ sec_number u /\
    sec_heading u = None /\ sec_subsections u = []) (sec_subsections s))
    (DocumentParser.extract_sections text).
Proof.
  intros text. apply Forall_forall. intros s Hs. apply Forall_forall. intros u Hu. unfold DocumentParser.extract_sections in Hs.
  apply in_map_iff in Hs. destruct Hs as [[m span] [<- _]].
  unfold DocumentParser.build_section in Hu. cbv zeta in Hu. cbn [sec_subsections] in Hu.
  unfold DocumentParser.extract_subsections in Hu.
  apply in_map_iff in Hu. destruct Hu as [[m' span'] [<- Hu]]. apply units_in in Hu.
  split; [exact (subsection_number_chars_aux _ m' Hu)|]. repeat split.
Qed.

Lemma slice_in : forall s i j c, In c (slice s i j) -> In c s.
Proof.
  intros s i j c H. unfold slice in H. apply in_firstn_in in H.
  rewrite <- (firstn_skipn i s). apply in_or_app. right. exact H.
Qed.

Lemma gaps_chars : forall repl s ms pos c, In c (gaps repl s pos ms) -> In c s \/ In c repl.
Proof.
  intros repl s ms. induction ms as [|m ms IH]; intros pos c H; simpl in H.
  - left. rewrite <- (firstn_skipn pos s). apply in_or_app. right. exact H.
  - apply in_app_or in H. destruct H as [H|H]; [left; eapply slice_in; exact H|].
    apply in_app_or in H. destruct H as [H|H]; [right; exact H | eapply IH; exact H].
Qed.

Lemma re_sub_chars : forall r repl s c, In c (re_sub r repl s) -> In c s \/ In c repl.
Proof. intros r repl s c H. eapply gaps_chars. exact H. Qed.

Lemma gaps_class : forall f rs pre mid p,
  Forall (fun c => f c = false) mid ->
  gaps [] (pre ++ mid ++ rs) (length pre) (scan (RClass f) p rs (length pre + length mid) 0)
  = mid ++ filter (fun c => negb (f c)) rs.
Proof.
  intros f rs. induction rs as [|c t IH]; intros pre mid p Hmid.
  - cbn [scan filter]. unfold match_here. cbn [run rest]. cbn [gaps].
    rewrite app_nil_r, skipn_app, skipn_all, Nat.sub_diag. reflexivity.
  - destruct (f c) eqn:Ef.
    + rewrite (scan_match_step _ _ c t _ 1 []).
      2: { unfold match_here. cbn [run rest pos caps]. rewrite Ef. reflexivity. }
      cbn [gaps mstart mend Nat.sub]. cbn [filter]. rewrite Ef. cbn [negb].
      pose proof (IH (pre ++ mid ++ [c]) [] (Some c) (Forall_nil _)) as H.
      replace ((pre ++ mid ++ [c]) ++ [] ++ t) with (pre ++ mid ++ c :: t) in H
        by (rewrite <- !app_assoc; reflexivity).
      replace (length (pre ++ mid ++ [c]) + length (@nil char)) with (S (length pre + length mid)) in H
        by (rewrite !length_app; simpl; lia).
      replace (length (pre ++ mid ++ [c])) with (length pre + length mid + 1) in H
        by (rewrite !length_app; simpl; lia).
      rewrite H. cbn [app].
      unfold slice. rewrite skipn_app, skipn_all, Nat.sub_diag. cbn [skipn app].
      replace (length pre + length mid - length pre) with (length mid) by lia.
      rewrite firstn_app, firstn_all, Nat.sub_diag, firstn_O, app_nil_r. reflexivity.
    + rewrite scan_none_step.
      2: { unfold match_here. cbn [run rest]. rewrite Ef. reflexivity. }
      replace (pre ++ mid ++ c :: t) with (pre ++ (mid ++ [c]) ++ t)
        by (rewrite <- !app_assoc; reflexivity).
      replace (S (length pre + length mid)) with (length pre + length (mid ++ [c]))
        by (rewrite length_app; simpl; lia).
      rewrite IH by (apply Forall_app; split; [exact Hmid | constructor; [exact Ef | constructor]]).
      cbn [filter]. rewrite Ef. cbn [negb]. rewrite <- app_assoc. reflexivity.
Qed.

Lemma re_sub_class : forall f s,
  re_sub_empty (RClass f) s = filter (fun c => negb (f c)) s.
Proof.
  intros f s. unfold re_sub_empty, re_sub, finditer.
  exact (gaps_class f s [] [] None (Forall_nil _)).
Qed.

Lemma drop_while_in : forall p s c, In c (drop_while p s) -> In c s.
Proof.
  intros p s. induction s as [|x t IH]; intros c H; simpl in H; [exact H|].
  destruct (p x); [right; apply IH; exact H | exact H].
Qed.

Lemma strip_by_in : forall p s c, In c (strip_by p s) -> In c s.
Proof.
  intros p s c H. unfold strip_by in H. apply in_rev in H. apply drop_while_in in H.
  apply in_rev in H. apply drop_while_in in H. exact H.
Qed.

Lemma filter_class_out : forall (f : char -> bool) s c, In c (filter (fun x => negb (f x)) s) -> f c = false.
Proof.
  intros f s c H. apply filter_In in H. destruct H as [_ H]. destruct (f c); [discriminate|reflexivity].
Qed.

Lemma vii_title_bounds : forall text,
  5 < length (PDFParser.vii_title text) < 100 /\
  (forall c, In c (PDFParser.vii_title text) -> ~ In c vii_markup).
Proof.
  intros text. unfold PDFParser.vii_title.
  assert (Hdef : 5 < length PDFParser.default_vii_title < 100 /\
                 (forall c, In c PDFParser.default_vii_title -> ~ In c vii_markup)).
  { split; [vm_compute; lia|]. intros c Hc Hm.
    unfold vii_markup in Hm. vm_compute in Hm.
    vm_compute in Hc. repeat (destruct Hc as [<-|Hc]; [repeat (destruct Hm as [Hm|Hm]; [discriminate|]); destruct Hm|]).
    destruct Hc. }
  destruct (search PDFParser.vii_context_pattern text) as [cm|]; [|exact Hdef].
  set (x := strip (re_sub (plus sp) (of_string " ")
                     (re_sub_empty (oneof false "#*_[](){}") (strip (grp cm 1))))).
  destruct ((5 <? length x) && (length x <? 100)) eqn:E; [|exact Hdef].
  apply andb_true_iff in E. destruct E as [E1 E2].
  apply Nat.ltb_lt in E1, E2. split; [lia|].
  intros c Hc Hm. unfold x in Hc. apply strip_by_in, re_sub_chars in Hc.
  destruct Hc as [Hc|Hc].
  - unfold oneof in Hc. rewrite re_sub_class in Hc. apply filter_class_out in Hc.
    cbv beta in Hc. rewrite (proj2 (existsb_exists _ _)) in Hc; [discriminate|].
    exists c. split; [exact Hm | apply N.eqb_refl].
  - destruct Hc as [<-|[]]. vm_compute in Hm.
    repeat (destruct Hm as [Hm|Hm]; [discriminate|]). destruct Hm.
Qed.

(** [_find_part_vii_specifically] adds exactly one entry to the parts it is
    given, numbered VII, whose title has between 6 and 99 characters and
    none of [#*_[](){}]; it is located at the first Part VII pattern match,
    or is the placeholder when no pattern matches. *)
Theorem find_part_vii_adds_one : forall text found, exists e,
  Permutation (PDFParser.find_part_vii_specifically text found) (e :: found) /\
  PDFParser.p_number e = PDFParser.vii_number /\
  5 < length (PDFParser.p_title e) < 100 /\
  (forall c, In c (PDFParser.p_title e) -> ~ In c vii_markup) /\
  match PDFParser.first_search PDFParser.part_vii_patterns text with
  | Some m => PDFParser.p_position e = Z.of_nat (mstart m) /\
              PDFParser.p_title e = PDFParser.vii_title text
  | None => e = PDFParser.vii_placeholder
  end.
Proof.
  intros text found. rewrite find_part_vii_eq.
  destruct (PDFParser.first_search PDFParser.part_vii_patterns text) as [m|].
  - eexists. split; [eapply perm_trans; [apply sort_by_perm | apply list_insert_perm]|].
    cbn [PDFParser.p_number PDFParser.p_title PDFParser.p_position].
    destruct (vii_title_bounds text) as [H1 H2]. auto.
  - eexists. split; [eapply perm_trans; [apply sort_by_perm | apply list_insert_perm]|].
    destruct (vii_title_bounds []) as [_ _].
    split; [reflexivity|]. split; [vm_compute; lia|]. split; [|reflexivity].
    intros c Hc Hm. unfold vii_markup in Hm. vm_compute in Hm.
    vm_compute in Hc. repeat (destruct Hc as [<-|Hc]; [repeat (destruct Hm as [Hm|Hm]; [discriminate|]); destruct Hm|]).
    destruct Hc.
Qed.

Lemma recovered_title_nonempty : forall text e m,
  PDFParser.p_title (PDFParser.recovered_entry text e m) <> [].
Proof.
  intros text e m. unfold PDFParser.recovered_entry. cbn [PDFParser.p_title].
  destruct (strip_chars _ _); discriminate.
Qed.

Lemma fix_fold_adds : forall text es l nums,
  exists added,
    Permutation (fst (fold_left (PDFParser.fix_step text) es (l, nums))) (l ++ added) /\
    snd (fold_left (PDFParser.fix_step text) es (l, nums)) = nums ++ map PDFParser.p_number added /\
    NoDup (map PDFParser.p_number added) /\
    Forall (recovered_for text es nums) added.
Proof.
  intros text es. induction es as [|e es IH]; intros l nums.
  - exists []. simpl. rewrite !app_nil_r. split; [reflexivity|split; [reflexivity|split; constructor]].
  - cbn [fold_left].
    assert (Hs : PDFParser.fix_step text (l, nums) e =
      if PDFParser.mem_str e nums then (l, nums)
      else match PDFParser.first_search (PDFParser.fallback_patterns e) text with
           | Some m =>
               let ei := match PDFParser.index_of e PDFParser.expected_parts with
                         | Some i => i | None => 0 end in
               (PDFParser.list_insert (PDFParser.fix_insert_pos ei 0 l)
                  (PDFParser.recovered_entry text e m) l, nums ++ [e])
           | None => (l, nums)
           end) by reflexivity.
    rewrite Hs. clear Hs.
    destruct (PDFParser.mem_str e nums) eqn:Em.
    + destruct (IH l nums) as [added [H1 [H2 [H3 H4]]]]. exists added.
      repeat split; auto. eapply Forall_impl; [|exact H4].
      intros p [Ha [Hb Hc]]. split; [right; exact Ha|auto].
    + destruct (PDFParser.first_search (PDFParser.fallback_patterns e) text) as [m|] eqn:Ef.
      * set (r := PDFParser.recovered_entry text e m).
        cbv zeta.
        set (l' := PDFParser.list_insert (PDFParser.fix_insert_pos
                     match PDFParser.index_of e PDFParser.expected_parts with
                     | Some i => i | None => 0 end 0 l) r l).
        destruct (IH l' (nums ++ [e])) as [added [H1 [H2 [H3 H4]]]].
        exists (r :: added). split; [|split; [|split]].
        -- eapply perm_trans; [exact H1|].
           eapply perm_trans; [apply Permutation_app_tail; apply list_insert_perm|].
           simpl. apply Permutation_middle.
        -- rewrite H2, <- app_assoc. reflexivity.
        -- simpl. constructor; [|exact H3].
           intros Hin. rewrite Forall_forall in H4.
           apply in_map_iff in Hin. destruct Hin as [q [Hq Hqin]].
           destruct (H4 q Hqin) as [_ [Hn _]]. apply Hn. rewrite Hq.
           apply in_or_app. right. left. reflexivity.
        -- constructor.
           ++ split; [left; reflexivity|]. split; [apply mem_str_false; exact Em|].
              exists m. split; [exact Ef|reflexivity].
           ++ eapply Forall_impl; [|exact H4].
              intros p [Ha [Hb Hc]]. split; [right; exact Ha|]. split; [|exact Hc].
              intro Hp. apply Hb. apply in_or_app. left. exact Hp.
      * destruct (IH l nums) as [added [H1 [H2 [H3 H4]]]]. exists added.
        repeat split; auto. eapply Forall_impl; [|exact H4].
        intros p [Ha [Hb Hc]]. split; [right; exact Ha|auto].
Qed.

(** [_fix_missing_parts] keeps every part it is given and adds at most one
    entry per canonical number missing from them, each recovered from the
    first fallback pattern that matches and with a non-empty title. *)
Theorem fix_missing_parts_adds : forall text found, exists added,
  Permutation (PDFParser.fix_missing_parts text found) (found ++ added) /\
  NoDup (map PDFParser.p_number added) /\
  Forall (fun p => In (PDFParser.p_number p) PDFParser.expected_parts /\
                   ~ In (PDFParser.p_number p) (map PDFParser.p_number found) /\
                   PDFParser.p_title p <> [] /\
                   exists m, PDFParser.first_search
                               (PDFParser.fallback_patterns (PDFParser.p_number p)) text = Some m /\
                             p = PDFParser.recovered_entry text (PDFParser.p_number p) m) added.
Proof.
  intros text found.
  destruct (fix_fold_adds text PDFParser.expected_parts found (map PDFParser.p_number found))
    as [added [H1 [_ [H3 H4]]]].
  exists added. split; [|split; [exact H3|]].
  - rewrite fix_missing_parts_eq. eapply perm_trans; [apply sort_by_perm|exact H1].
  - eapply Forall_impl; [|exact H4]. intros p [Ha [Hb [m [Hm Hp]]]].
    split; [exact Ha|]. split; [exact Hb|]. split; [|exists m; auto].
    rewrite Hp. apply recovered_title_nonempty.
Qed.

Lemma scan_schedules_fold : forall ils s seen,
  PDFParser.st_schedules (fst (fold_left PDFParser.scan_line ils (s, seen)))
    = PDFParser.st_schedules s ++ entries line_schedule ils.
Proof.
  intros ils. induction ils as [|[i raw] ils IH]; intros s seen.
  - simpl. rewrite app_nil_r. reflexivity.
  - cbn [fold_left]. rewrite (entries_cons line_schedule).
    destruct (PDFParser.scan_line (s, seen) (i, raw)) as [s' seen'] eqn:Hst.
    rewrite IH, app_assoc. f_equal.
    unfold PDFParser.scan_line in Hst. unfold entries. cbn [flat_map].
    destruct (strip raw) as [|c t].
    + injection Hst as <- _. simpl. rewrite app_nil_r. reflexivity.
    + unfold line_schedule.
      destruct (match PDFParser.line_part i (c :: t) with
                | Some p => if PDFParser.mem_str (PDFParser.p_number p) seen
                            then (PDFParser.st_parts s, seen)
                            else (PDFParser.st_parts s ++ [p], seen ++ [PDFParser.p_number p])
                | None => (PDFParser.st_parts s, seen) end) as [ps sn].
      injection Hst as <- _. cbn [PDFParser.st_schedules].
      destruct (search PDFParser.schedule_pattern (c :: t)); simpl; rewrite ?app_nil_r; reflexivity.
Qed.

Lemma scan_schedules : forall md,
  PDFParser.st_schedules (PDFParser.extract_constitution_structure md) =
  line_entries line_schedule md.
Proof.
  intros md. unfold line_entries. change (PDFParser.st_schedules
    (fst (fold_left PDFParser.scan_line (PDFParser.enumerate (split_lines md))
            (PDFParser.mkStructure [] [] [], []))) = entries line_schedule (PDFParser.enumerate (split_lines md))).
  apply scan_schedules_fold.
Qed.

Section Entries.
Context {A : Type} (f : nat -> str -> option A) (posf : A -> Z) (linef : A -> str).
Hypothesis Hf : forall i line x, f i line = Some x -> posf x = Z.of_nat i /\ linef x = line.

Lemma entries_at : forall l k x, In x (entries f (combine (seq k (length l)) l)) ->
  exists j raw, nth_error l j = Some raw /\ strip raw <> [] /\
    posf x = Z.of_nat (k + j) /\ linef x = strip raw.
Proof.
  intros l. induction l as [|raw l IH]; intros k x H; [destruct H|].
  cbn [length seq combine] in H. rewrite entries_cons in H. apply in_app_or in H.
  destruct H as [H|H].
  - unfold entries in H. cbn [flat_map] in H. rewrite app_nil_r in H.
    destruct (strip raw) as [|c t] eqn:Es; [destruct H|].
    destruct (f k (c :: t)) as [y|] eqn:Ey; [|destruct H].
    destruct H as [<-|[]]. destruct (Hf _ _ _ Ey) as [E1 E2].
    exists 0, raw. rewrite Es. split; [reflexivity|]. split; [discriminate|].
    rewrite Nat.add_0_r. auto.
  - destruct (IH (S k) x H) as [j [r [H1 [H2 [H3 H4]]]]].
    exists (S j), r. split; [exact H1|]. split; [exact H2|]. split; [|exact H4].
    rewrite H3. f_equal. lia.
Qed.

Lemma entries_sorted : forall l k,
  StronglySorted Z.lt (map posf (entries f (combine (seq k (length l)) l))).
Proof.
  intros l. induction l as [|raw l IH]; intros k; [constructor|].
  cbn [length seq combine]. rewrite entries_cons.
  unfold entries at 1. cbn [flat_map]. rewrite app_nil_r.
  destruct (strip raw) as [|c t]; [apply IH|].
  destruct (f k (c :: t)) as [y|] eqn:Ey; [|apply IH].
  cbn [app map]. constructor; [apply IH|].
  apply Forall_forall. intros z Hz. apply in_map_iff in Hz. destruct Hz as [x [<- Hx]].
  destruct (entries_at l (S k) x Hx) as [j [r [_ [_ [H3 _]]]]].
  rewrite H3, (proj1 (Hf _ _ _ Ey)). lia.
Qed.

Lemma line_entries_at : forall md x, In x (line_entries f md) -> line_at md (posf x) (linef x).
Proof.
  intros md x H. unfold line_entries, PDFParser.enumerate in H.
  destruct (entries_at _ 0 x H) as [j [r [H1 [H2 [H3 H4]]]]].
  rewrite H3, H4. split; [lia|]. split; [exact H2|].
  exists r. rewrite Nat2Z.id. auto.
Qed.

Lemma line_entries_sorted : forall md, StronglySorted Z.lt (map posf (line_entries f md)).
Proof. intros md. apply entries_sorted. Qed.
End Entries.

Lemma first_by_number_sorted : forall (R : Z -> Z -> Prop) g l seen,
  StronglySorted R (map g l) -> StronglySorted R (map g (first_by_number seen l)).
Proof.
  intros R g l. induction l as [|q l IH]; intros seen H; [constructor|].
  cbn [map] in H. apply StronglySorted_inv in H. destruct H as [Hs Hall].
  simpl. destruct (PDFParser.mem_str (PDFParser.p_number q) seen); [apply IH; exact Hs|].
  cbn [map]. constructor; [apply IH; exact Hs|].
  apply Forall_forall. intros z Hz. apply in_map_iff in Hz. destruct Hz as [x [<- Hx]].
  apply first_by_number_spec in Hx. destruct Hx as [pre [suf [-> _]]].
  rewrite Forall_forall in Hall. apply Hall. apply in_map. apply in_or_app. right. left. reflexivity.
Qed.

Lemma first_by_number_incl : forall l seen p, In p (first_by_number seen l) -> In p l.
Proof.
  intros l seen p H. apply first_by_number_spec in H. destruct H as [pre [suf [-> _]]].
  apply in_or_app. right. left. reflexivity.
Qed.

Lemma line_part_pos : forall i line p, PDFParser.line_part i line = Some p ->
  PDFParser.p_position p = Z.of_nat i /\ PDFParser.p_line p = line.
Proof.
  intros i line p H. unfold PDFParser.line_part in H.
  destruct (match pmatch _ line with Some m => Some m | None => _ end) as [m|]; [|discriminate].
  injection H as <-. auto.
Qed.

Lemma line_article_pos : forall i line a, PDFParser.line_article i line = Some a ->
  PDFParser.a_position a = Z.of_nat i /\ PDFParser.a_line a = line.
Proof.
  intros i line a H. unfold PDFParser.line_article in H.
  destruct (match pmatch _ line with Some m => Some m | None => _ end) as [m|]; [|discriminate].
  injection H as <-. auto.
Qed.

Lemma line_schedule_pos : forall i line s, line_schedule i line = Some s ->
  PDFParser.s_position s = Z.of_nat i /\ PDFParser.s_name s = line.
Proof.
  intros i line s H. unfold line_schedule in H.
  destruct (search _ line); [|discriminate]. injection H as <-. auto.
Qed.

(** The line scan of [extract_constitution_structure]: the position of every
    part, article and schedule entry it records is the index of the line it
    was read from, its [line] ([name] for schedules) is that line stripped,
    and positions strictly increase along each list. *)
Theorem line_scan_positions : forall md,
  (forall p, In p (PDFParser.st_parts (PDFParser.scan_lines md)) ->
     line_at md (PDFParser.p_position p) (PDFParser.p_line p)) /\
  (forall a, In a (PDFParser.st_articles (PDFParser.extract_constitution_structure md)) ->
     line_at md (PDFParser.a_position a) (PDFParser.a_line a)) /\
  (forall s, In s (PDFParser.st_schedules (PDFParser.extract_constitution_structure md)) ->
     line_at md (PDFParser.s_position s) (PDFParser.s_name s)) /\
  StronglySorted Z.lt (map PDFParser.p_position (PDFParser.st_parts (PDFParser.scan_lines md))) /\
  StronglySorted Z.lt (map PDFParser.a_position
                        (PDFParser.st_articles (PDFParser.extract_constitution_structure md))) /\
  StronglySorted Z.lt (map PDFParser.s_position
                        (PDFParser.st_schedules (PDFParser.extract_constitution_structure md))).
Proof.
  intros md. destruct (scan_lines_spec md) as [Hp Ha].
  rewrite structure_articles, scan_schedules, Ha, Hp.
  split; [|split; [|split; [|split; [|split]]]].
  - intros p H. apply first_by_number_incl in H.
    exact (line_entries_at _ _ _ line_part_pos md p H).
  - exact (line_entries_at _ _ _ line_article_pos md).
  - exact (line_entries_at _ _ _ line_schedule_pos md).
  - apply first_by_number_sorted. exact (line_entries_sorted _ _ _ line_part_pos md).
  - exact (line_entries_sorted _ _ _ line_article_pos md).
  - exact (line_entries_sorted _ _ _ line_schedule_pos md).
Qed.

Lemma clean_markdown_out : forall s c, In c (strip (PDFParser.clean_markdown s)) ->
  ~ In c (of_string "#*_").
Proof.
  intros s c Hc Hm. apply strip_by_in in Hc. unfold PDFParser.clean_markdown, oneof in Hc.
  rewrite re_sub_class in Hc. apply filter_class_out in Hc. cbv beta in Hc.
  rewrite (proj2 (existsb_exists _ _)) in Hc; [discriminate|].
  exists c. split; [exact Hm | apply N.eqb_refl].
Qed.

(** The titles of the parts and articles read by the line scan contain no
    [#], [*] or [_]. *)
Theorem scanned_titles_clean : forall md,
  (forall p c, In p (PDFParser.st_parts (PDFParser.scan_lines md)) ->
     In c (PDFParser.p_title p) -> ~ In c (of_string "#*_")) /\
  (forall a c, In a (PDFParser.st_articles (PDFParser.extract_constitution_structure md)) ->
     In c (PDFParser.a_title a) -> ~ In c (of_string "#*_")).
Proof.
  intros md. destruct (scan_lines_spec md) as [Hp Ha].
  rewrite structure_articles, Ha, Hp. split.
  - intros p c H. apply first_by_number_incl in H.
    unfold line_entries, entries in H. apply in_flat_map in H.
    destruct H as [[i raw] [_ H]]. destruct (strip raw) as [|x t]; [destruct H|].
    destruct (PDFParser.line_part i (x :: t)) as [q|] eqn:Eq; [|destruct H].
    destruct H as [<-|[]]. unfold PDFParser.line_part in Eq.
    destruct (match pmatch _ _ with Some m => Some m | None => _ end) as [m|]; [|discriminate].
    injection Eq as <-. apply clean_markdown_out.
  - intros a c H.
    unfold line_entries, entries in H. apply in_flat_map in H.
    destruct H as [[i raw] [_ H]]. destruct (strip raw) as [|x t]; [destruct H|].
    destruct (PDFParser.line_article i (x :: t)) as [q|] eqn:Eq; [|destruct H].
    destruct H as [<-|[]]. unfold PDFParser.line_article in Eq.
    destruct (match pmatch _ _ with Some m => Some m | None => _ end) as [m|]; [|discriminate].
    injection Eq as <-. apply clean_markdown_out.
Qed.

Lemma class_run_split : forall (f : char -> bool) t, exists x r,
  t = x ++ r /\ Forall (fun c => f c = true) x /\
  match r with c :: _ => f c = false | [] => True end.
Proof.
  intros f t. induction t as [|c t [x [r [E [Hx Hr]]]]].
  - exists [], []. auto.
  - destruct (f c) eqn:Ef.
    + exists (c :: x), r. subst t. split; [reflexivity|]. split; [constructor; auto|exact Hr].
    + exists [], (c :: t). simpl. auto.
Qed.

Lemma squeeze_run : forall f d x r, Forall (fun c => f c = true) x ->
  squeeze f d true (x ++ r) = squeeze f d true r.
Proof.
  intros f d x r Hx. induction Hx as [|c x Hc Hx IH]; [reflexivity|].
  simpl. rewrite Hc. exact IH.
Qed.

Lemma squeeze_after_run : forall f d r, match r with c :: _ => f c = false | [] => True end ->
  squeeze f d true r = squeeze f d false r.
Proof. intros f d [|c r] H; [reflexivity|]. simpl. rewrite H. reflexivity. Qed.

Lemma match_here_plus_class : forall f p c x r,
  f c = true -> Forall (fun ch => f ch = true) x ->
  match r with c :: _ => f c = false | [] => True end ->
  match_here (plus (RClass f)) p (c :: x ++ r) = Some (S (length x), []).
Proof.
  intros f p c x r Hc Hx Hr. unfold match_here, plus.
  rewrite run_seq_eq, run_class_yes by exact Hc. cbn [flat_map].
  destruct (star_class_run f x r (Some c) 1 [] Hx Hr) as [l E]. rewrite E. reflexivity.
Qed.

Lemma match_here_plus_class_no : forall f p rs,
  match rs with c :: _ => f c = false | [] => True end ->
  match_here (plus (RClass f)) p rs = None.
Proof.
  intros f p [|c t] H; unfold match_here, plus; rewrite run_seq_eq; [reflexivity|].
  rewrite run_class_no by exact H. reflexivity.
Qed.

Lemma gaps_plus_class : forall f d n rs pre mid p, length rs <= n ->
  Forall (fun c => f c = false) mid ->
  gaps d (pre ++ mid ++ rs) (length pre) (scan (plus (RClass f)) p rs (length pre + length mid) 0)
  = mid ++ squeeze f d false rs.
Proof.
  intros f d n. induction n as [|n IH]; intros rs pre mid p Hn Hmid.
  - destruct rs; [|simpl in Hn; lia].
    cbn [scan]. rewrite match_here_plus_class_no by exact I. cbn [gaps squeeze].
    rewrite app_nil_r, skipn_app, skipn_all, Nat.sub_diag. reflexivity.
  - destruct rs as [|c t].
    + cbn [scan]. rewrite match_here_plus_class_no by exact I. cbn [gaps squeeze].
      rewrite app_nil_r, skipn_app, skipn_all, Nat.sub_diag. reflexivity.
    + destruct (f c) eqn:Ef.
      * destruct (class_run_split f t) as [x [r [-> [Hx Hr]]]].
        rewrite (scan_match_step _ _ c (x ++ r) _ (S (length x)) [])
          by (apply match_here_plus_class; assumption).
        replace (S (length x) - 1) with (length x) by lia.
        rewrite scan_skip_n. cbn [gaps mstart mend].
        pose proof (IH r (pre ++ mid ++ c :: x) [] (after (Some c) x)) as H.
        rewrite <- !app_assoc in H. cbn [app] in H.
        replace (length (pre ++ mid ++ c :: x) + length (@nil char))
          with (S (length pre + length mid) + length x) in H
          by (rewrite !length_app; simpl; lia).
        replace (length (pre ++ mid ++ c :: x)) with (length pre + length mid + S (length x)) in H
          by (rewrite !length_app; simpl; lia).
        rewrite H; [| simpl in Hn; rewrite length_app in Hn; simpl in Hn; lia | constructor].
        cbn [app squeeze]. rewrite Ef, squeeze_run by exact Hx.
        rewrite squeeze_after_run by exact Hr.
        unfold slice. rewrite skipn_app, skipn_all, Nat.sub_diag. cbn [skipn app].
        replace (length pre + length mid - length pre) with (length mid) by lia.
        rewrite firstn_app, firstn_all, Nat.sub_diag, firstn_O, app_nil_r. reflexivity.
      * rewrite scan_none_step by (apply match_here_plus_class_no; exact Ef).
        pose proof (IH t pre (mid ++ [c]) (Some c)) as H.
        rewrite <- app_assoc in H. cbn [app] in H. rewrite length_app in H. cbn [length] in H.
        replace (length pre + (length mid + 1)) with (S (length pre + length mid)) in H by lia.
        rewrite H; [| simpl in Hn; lia | apply Forall_app; split; [exact Hmid|constructor; [exact Ef|constructor]]].
        cbn [squeeze]. rewrite Ef, <- app_assoc. reflexivity.
Qed.

Lemma re_sub_plus_class : forall f d s,
  re_sub (plus (RClass f)) d s = squeeze f d false s.
Proof.
  intros f d s. unfold re_sub, finditer.
  exact (gaps_plus_class f d (length s) s [] [] None (le_n _) (Forall_nil _)).
Qed.

Lemma squeeze_true_head : forall f d s,
  match squeeze f d true s with a :: _ => f a = false | [] => True end.
Proof.
  intros f d s. induction s as [|c t IH]; [exact I|]. simpl.
  destruct (f c) eqn:Ef; [exact IH | exact Ef].
Qed.

Lemma no_adj_cons2 : forall f x a u,
  no_adj f (x :: a :: u) = negb (f x && f a) && no_adj f (a :: u).
Proof. reflexivity. Qed.

Lemma squeeze_no_adj : forall f dc inrun s,
  no_adj f (squeeze f [dc] inrun s) = true.
Proof.
  intros f dc inrun s. revert inrun. induction s as [|c t IH]; intros inrun; [reflexivity|].
  simpl. destruct (f c) eqn:Ef; [destruct inrun; [apply IH|]|].
  - cbn [app]. pose proof (squeeze_true_head f [dc] t) as Hh. pose proof (IH true) as Ht.
    destruct (squeeze f [dc] true t) as [|a u]; [reflexivity|].
    rewrite no_adj_cons2, Hh, andb_false_r. exact Ht.
  - pose proof (IH false) as Ht.
    destruct (squeeze f [dc] false t) as [|a u]; [reflexivity|].
    rewrite no_adj_cons2, Ef. exact Ht.
Qed.

Lemma no_adj_app : forall f a b, no_adj f (a ++ b) = true -> no_adj f b = true.
Proof.
  intros f a b. induction a as [|x a IH]; intros H; [exact H|].
  apply IH. cbn [app] in H. destruct (a ++ b) as [|y u]; [reflexivity|].
  apply andb_true_iff in H. apply H.
Qed.

Lemma no_adj_pair : forall f pre a b post,
  no_adj f (pre ++ a :: b :: post) = true -> f a = false \/ f b = false.
Proof.
  intros f pre a b post H. apply no_adj_app in H. cbn [no_adj] in H.
  apply andb_true_iff in H. destruct H as [H _]. apply negb_true_iff, andb_false_iff in H.
  exact H.
Qed.

Lemma squeeze_pair : forall f d s pre a b post,
  squeeze f [d] false s = pre ++ a :: b :: post -> f a = false \/ f b = false.
Proof.
  intros f d s pre a b post E. apply (no_adj_pair f pre a b post).
  rewrite <- E. apply squeeze_no_adj.
Qed.

Lemma drop_while_suffix : forall p s, exists pre, s = pre ++ drop_while p s.
Proof.
  intros p s. induction s as [|c t [pre IH]]; [exists []; reflexivity|]. simpl.
  destruct (p c); [exists (c :: pre); simpl; f_equal; exact IH | exists []; reflexivity].
Qed.

Lemma drop_while_head : forall p s,
  match drop_while p s with a :: _ => p a = false | [] => True end.
Proof.
  intros p s. induction s as [|c t IH]; [exact I|]. simpl.
  destruct (p c) eqn:E; [exact IH | exact E].
Qed.

Lemma strip_by_parts : forall p s, exists a b,
  s = a ++ strip_by p s ++ b /\ drop_while p s = strip_by p s ++ b.
Proof.
  intros p s. destruct (drop_while_suffix p s) as [a Ea].
  destruct (drop_while_suffix p (rev (drop_while p s))) as [b Eb].
  exists a, (rev b). unfold strip_by.
  assert (E : drop_while p s = rev (drop_while p (rev (drop_while p s))) ++ rev b).
  { rewrite <- rev_app_distr, <- Eb, rev_involutive. reflexivity. }
  split; [|exact E]. rewrite Ea at 1. f_equal. exact E.
Qed.

Lemma strip_by_first : forall p s c u, strip_by p s = c :: u -> p c = false.
Proof.
  intros p s c u H. destruct (strip_by_parts p s) as [a [b [_ E]]].
  pose proof (drop_while_head p s) as Hh. rewrite E, H in Hh. exact Hh.
Qed.

Lemma strip_by_last : forall p s c u, strip_by p s = u ++ [c] -> p c = false.
Proof.
  intros p s c u H. unfold strip_by in H.
  pose proof (drop_while_head p (rev (drop_while p s))) as Hh.
  apply (f_equal (@rev char)) in H. rewrite rev_involutive, rev_app_distr in H.
  rewrite H in Hh. exact Hh.
Qed.

Lemma gaps_chars_ms : forall repl s ms pos c, In c (gaps repl s pos ms) ->
  In c s \/ (ms <> [] /\ In c repl).
Proof.
  intros repl s ms. induction ms as [|m ms IH]; intros pos c H; simpl in H.
  - left. rewrite <- (firstn_skipn pos s). apply in_or_app. right. exact H.
  - apply in_app_or in H. destruct H as [H|H]; [left; eapply slice_in; exact H|].
    apply in_app_or in H. destruct H as [H|H]; [right; split; [discriminate|exact H]|].
    destruct (IH _ _ H) as [H'|[_ H']]; [left; exact H'|right; split; [discriminate|exact H']].
Qed.

Lemma gaps_by_chars : forall tm s ms pos c, In c (gaps_by tm s pos ms) ->
  In c s \/ exists m, In m ms /\ In c (tm m).
Proof.
  intros tm s ms. induction ms as [|m ms IH]; intros pos c H; simpl in H.
  - left. rewrite <- (firstn_skipn pos s). apply in_or_app. right. exact H.
  - apply in_app_or in H. destruct H as [H|H]; [left; eapply slice_in; exact H|].
    apply in_app_or in H. destruct H as [H|H]; [right; exists m; split; [left; reflexivity|exact H]|].
    destruct (IH _ _ H) as [H'|[m' [Hm H']]]; [left; exact H'|right; exists m'; split; [right; exact Hm|exact H']].
Qed.

Lemma re_sub_group1_chars : forall r s c, In c (re_sub_group1 r s) -> In c s.
Proof.
  intros r s c H. unfold re_sub_group1 in H. apply gaps_by_chars in H.
  destruct H as [H|[m [Hm H]]]; [exact H|]. eapply finditer_grp_in; eassumption.
Qed.

Lemma finditer_class_witness : forall P r s m, classes_ok P r -> 0 < minlen r ->
  In m (finditer r s) -> exists c, In c s /\ P c.
Proof.
  intros P r s m Hok Hmin Hm. unfold finditer in Hm.
  destruct (scan_in r s None 0 0 m Hm) as [p' [pre [rs' [s' [E [Hrun _]]]]]].
  destruct (run_chars P r _ _ Hok Hrun) as [w [Ew [Hpos Hw]]].
  pose proof (run_minlen r _ _ Hrun) as Hl. cbn [pos] in Hl, Hpos. cbn [rest] in Ew.
  destruct w as [|c w]; [simpl in Hpos; lia|].
  exists c. split; [|inversion Hw; assumption].
  subst s rs'. apply in_or_app. right. left. reflexivity.
Qed.

Lemma re_sub_class_chars : forall r (d : char) repl s c, classes_ok (fun x => x = d) r ->
  0 < minlen r -> Forall (fun x => x = d) repl -> In c (re_sub r repl s) -> In c s.
Proof.
  intros r d repl s c Hok Hmin Hrepl H. unfold re_sub in H. apply gaps_chars_ms in H.
  destruct H as [H|[Hne H]]; [exact H|].
  destruct (finditer r s) as [|m ms] eqn:E; [contradiction|].
  destruct (finditer_class_witness _ r s m Hok Hmin) as [x [Hx ->]]; [rewrite E; left; reflexivity|].
  rewrite Forall_forall in Hrepl. rewrite (Hrepl c H). exact Hx.
Qed.

Lemma spaces_pattern_chars : classes_ok (fun x => x = 32%N) PDFParser.spaces_pattern /\ 0 < minlen PDFParser.spaces_pattern.
Proof.
  split; [|simpl; lia]. simpl.
  split; intros x Hx; apply N.eqb_eq; exact Hx.
Qed.

Lemma blank_lines_pattern_chars : classes_ok (fun x => x = nl) PDFParser.blank_lines_pattern /\ 0 < minlen PDFParser.blank_lines_pattern.
Proof.
  split; [|simpl; lia]. simpl.
  repeat split; intros x Hx; apply N.eqb_eq; exact Hx.
Qed.

(** [clean_text] only keeps characters of its input, never leaves two
    consecutive spaces, and neither starts nor ends with whitespace. *)
Theorem clean_text_shape : forall text,
  (forall c, In c (PDFParser.clean_text text) -> In c text) /\
  (forall pre post, PDFParser.clean_text text <> pre ++ 32%N :: 32%N :: post) /\
  (forall c u, PDFParser.clean_text text = c :: u -> is_space c = false) /\
  (forall c u, PDFParser.clean_text text = u ++ [c] -> is_space c = false).
Proof.
  intros text. unfold PDFParser.clean_text.
  set (t1 := re_sub_empty PDFParser.header_pattern text).
  set (t2 := re_sub_group1 PDFParser.emphasis_pattern t1).
  set (t3 := re_sub_group1 PDFParser.link_pattern t2).
  set (t4 := re_sub PDFParser.blank_lines_pattern [nl; nl] t3).
  split; [|split; [|split]].
  - intros c H. apply strip_by_in in H.
    apply (re_sub_class_chars PDFParser.spaces_pattern 32%N [32%N] t4 c
             (proj1 spaces_pattern_chars) (proj2 spaces_pattern_chars)) in H;
      [|repeat constructor].
    apply (re_sub_class_chars PDFParser.blank_lines_pattern nl [nl; nl] t3 c
             (proj1 blank_lines_pattern_chars) (proj2 blank_lines_pattern_chars)) in H;
      [|repeat constructor].
    apply re_sub_group1_chars, re_sub_group1_chars in H.
    unfold t1, re_sub_empty in H. apply gaps_chars_ms in H.
    destruct H as [H|[_ []]]. exact H.
  - intros pre post E.
    destruct (strip_by_parts is_space (re_sub PDFParser.spaces_pattern [32%N] t4)) as [a [b [Es _]]].
    unfold strip in E. rewrite E in Es. unfold PDFParser.spaces_pattern, lit in Es.
    rewrite re_sub_plus_class in Es.
    destruct (squeeze_pair (fun x => (x =? 32)%N) 32%N t4 (a ++ pre) 32%N 32%N (post ++ b))
      as [Hn|Hn]; [|discriminate Hn|discriminate Hn].
    transitivity (a ++ (pre ++ 32%N :: 32%N :: post) ++ b); [exact Es|].
    rewrite <- !app_assoc. reflexivity.
  - intros c u E. exact (strip_by_first _ _ c u E).
  - intros c u E. exact (strip_by_last _ _ c u E).
Qed.

Lemma chain_le_hi : forall ms lo hi, chain lo ms hi -> forall m, In m ms -> mend m <= hi.
Proof.
  intros ms. induction ms as [|m ms IH]; intros lo hi H x Hx; [destruct Hx|].
  destruct H as [H1 [H2 H3]]. destruct Hx as [<-|Hx]; [|exact (IH _ _ H3 x Hx)].
  clear IH. revert H3. generalize (mend m). induction ms as [|m' ms IH]; intros k H; simpl in H; [lia|].
  destruct H as [A [B C]]. specialize (IH _ C). lia.
Qed.

Lemma search_bounds : forall r text m, search r text = Some m -> mstart m <= length text.
Proof.
  intros r text m H. unfold search in H.
  pose proof (finditer_chain r text) as Hc.
  destruct (finditer r text) as [|m' ms] eqn:E; [discriminate|]. injection H as ->.
  pose proof (chain_le_hi _ _ _ Hc m (or_introl eq_refl)). destruct Hc as [_ [Hle _]]. lia.
Qed.

(** [parse] cuts the text at the earliest match of the chapter, article and
    section patterns: what precedes it becomes the stripped preamble (none
    when the cut is at 0 or nothing matches), and the rest goes on to the
    extractors.  No match starts before the cut, and when any of the three
    patterns matches, the cut is exactly at the start of one of their first
    matches. *)
Theorem split_preamble_cut : forall text, exists pref,
  text = pref ++ snd (DocumentParser.split_preamble text) /\
  fst (DocumentParser.split_preamble text) = match pref with [] => None | _ => Some (strip pref) end /\
  (forall r m, In r top_patterns -> search r text = Some m -> length pref <= mstart m) /\
  ((exists r m, In r top_patterns /\ search r text = Some m) ->
   exists r m, In r top_patterns /\ search r text = Some m /\ mstart m = length pref).
Proof.
  intros text. unfold DocumentParser.split_preamble. cbv zeta.
  destruct (Z.ltb_spec 0 (DocumentParser.find_first_structure text)) as [Hp|Hp]; cbn [fst snd].
  - destruct (find_first_structure_spec text) as [Hle|[[r0 [m0 [Hr0 [Hs0 Hp0]]]] Hmin]]; [lia|].
    pose proof (search_bounds _ _ _ Hs0) as Hb.
    rewrite Hp0, Nat2Z.id in *.
    assert (Hl : length (firstn (mstart m0) text) = mstart m0) by (rewrite length_firstn; lia).
    exists (firstn (mstart m0) text). split; [symmetry; apply firstn_skipn|].
    split; [|split].
    + destruct (firstn (mstart m0) text) eqn:E; [simpl in Hl; lia|reflexivity].
    + intros r m Hr Hs. rewrite Hl. specialize (Hmin r m Hr Hs). lia.
    + intros _. exists r0, m0. auto.
  - exists []. split; [reflexivity|]. split; [reflexivity|]. split; [intros; simpl; lia|].
    intros Hex. destruct (find_first_structure_some text Hex) as [r0 [m0 [Hr0 [Hs0 Hp0]]]].
    exists r0, m0. repeat split; auto. cbn [length]. lia.
Qed.
